(** * quai-manager: the merge-mining coordinator of [manager/main.go]

  A shallow embedding of the coordinator's pure decision logic and of
  the effects it issues (RPC calls, goroutine fan-out, mutex and
  wait-group operations), followed by the properties established for it.

  Conventions of the embedding:
  - a Go slice is a [list]; an indexed read or write outside the slice
    panics, which the model renders as [None] (or as a run cut short);
  - a [*big.Int] is an optional heap cell ([None] is the nil pointer); the
    Go operator [==] on two such pointers compares the cells' addresses,
    never the numbers they hold;
  - an [*ethclient.Client] is an opaque handle; every RPC issued through a
    handle is recorded as an [Event], and what the node answers is an
    argument of the function that models the caller; the nil handle is
    the handle 0, and what [ethclient.Dial] answers is given per call
    site;
  - [uint64] header fields are [Z]; the only arithmetic done on them here
    is the comparison of two timestamps. *)

From Stdlib Require Import ZArith Lia Floats.SpecFloat.
From stdpp Require Import base option list relations strings.

Local Open Scope Z_scope.

(** ** Data model *)

Module Types.

(** [common.Hash], [common.Address], [types.Bloom]: opaque payloads. *)
Definition Hash := N.
Definition Address := N.
Definition Bloom := N.
Definition Payload := list N.

(** [types.BlockNonce]: eight bytes, kept as one number; the zero value
    [types.BlockNonce{}] is [0]. *)
Definition BlockNonce := N.
Definition emptyNonce : BlockNonce := 0%N.

(** A [big.Int] living on the heap: the address of the cell and the
    number stored in it. *)
Record BigInt := mkBig { addr : N; val : Z }.

(** [*big.Int]. *)
Definition BigPtr := option BigInt.

(** Go's [p == q] on two [*big.Int]: same cell, or both nil. *)
Definition ptr_eqb (p q : BigPtr) : bool :=
  match p, q with
  | None, None => true
  | Some a, Some b => N.eqb (addr a) (addr b)
  | _, _ => false
  end.

(** [types.Header], with the fields the coordinator touches. *)
Record Header := mkHeader {
  ParentHash : list Hash;
  UncleHash : list Hash;
  Number : list BigPtr;
  Extra : list Payload;
  BaseFee : list BigPtr;
  GasLimit : list Z;
  GasUsed : list Z;
  TxHash : list Hash;
  ReceiptHash : list Hash;
  Root : list Hash;
  Difficulty : list BigPtr;
  NetworkDifficulty : list BigPtr;
  Coinbase : list Address;
  Bloom_ : list Bloom;
  Time : Z;
  Location : list Z;
  Nonce : BlockNonce
}.

(** [types.Block], [types.ReceiptBlock], [types.ExternalBlock]. *)
Record Block := mkBlock {
  bHeader : Header; bTransactions : Payload; bUncles : Payload }.

Record ReceiptBlock := mkReceiptBlock {
  rHeader : Header; rTransactions : Payload; rUncles : Payload;
  rReceipts : Payload }.

Record ExternalBlock := mkExternalBlock {
  eHeader : Header; eTransactions : Payload; eUncles : Payload;
  eReceipts : Payload }.

(** [types.NewBlockWithHeader(h).WithBody(txs, uncles)]. *)
Definition NewBlockWithBody (h : Header) (txs uncles : Payload) : Block :=
  mkBlock h txs uncles.

(** [block.WithSeal(header)]: same body, the header replaced. *)
Definition WithSeal (b : Block) (h : Header) : Block :=
  mkBlock h (bTransactions b) (bUncles b).

(** [*ethclient.Client]. *)
Definition Client := N.

(** [orderedBlockClients]. *)
Record orderedBlockClients := mkClients {
  primeClient : Client;
  primeAvailable : bool;
  regionClients : list Client;
  regionsAvailable : list bool;
  zoneClients : list (list Client);
  zonesAvailable : list (list bool)
}.

(** The part of [Manager] shared between the goroutines. *)
Record Manager := mkManager {
  clients : orderedBlockClients;
  combinedHeader : Header;
  pendingBlocks : list (option ReceiptBlock);
  location : list Z
}.

(** What the coordinator does to the outside world. *)
Inductive Event :=
| EvHeaderByNumber (c : Client)
| EvGetPendingBlock (c : Client)
| EvBlockByHash (c : Client) (h : Hash)
| EvGetBlockReceipts (c : Client) (h : Hash)
| EvGetExternalBlock (c : Client) (h : Hash) (ctx : Z)
| EvSendExternalBlock (c : Client) (b : Block) (receipts : Payload) (ctx : Z)
| EvSendMinedBlock (c : Client) (sealed : Block)
| EvSealHeader (h : Header)
| EvInterrupt
| EvSleep (secs : Z)
| EvLock
| EvUnlock.

(** How many events of a trace satisfy a test. *)
Fixpoint count (p : Event → bool) (t : list Event) : nat :=
  match t with
  | [] => 0
  | e :: t => ((if p e then 1 else 0) + count p t)%nat
  end.

Definition isSendExternalBlock (e : Event) : bool :=
  match e with EvSendExternalBlock _ _ _ _ => true | _ => false end.
Definition isSendMinedBlock (e : Event) : bool :=
  match e with EvSendMinedBlock _ _ => true | _ => false end.
Definition isSend (e : Event) : bool :=
  isSendExternalBlock e || isSendMinedBlock e.

(** Code that issues events and may panic part-way: the events issued so
    far, and the value returned unless a panic cut the run short. *)
Record Eff (A : Type) := mkEff { events : list Event; result : option A }.
Global Arguments mkEff {A} _ _.
Global Arguments events {A} _.
Global Arguments result {A} _.

Global Instance Eff_ret : MRet Eff := λ A a, mkEff [] (Some a).
Global Instance Eff_bind : MBind Eff := λ A B f x,
  match result x with
  | Some a => mkEff (events x ++ events (f a)) (result (f a))
  | None => mkEff (events x) None
  end.

Definition emit (e : Event) : Eff () := mkEff [e] (Some ()).
Definition panic {A} : Eff A := mkEff [] None.

(** [l[i]] with a Go [int] index. *)
Definition index {A} (l : list A) (i : Z) : Eff A :=
  match (if 0 <=? i then l !! Z.to_nat i else None) with
  | Some x => mret x
  | None => panic
  end.

(** [l[i] = x] with a Go [int] index. *)
Definition store {A} (l : list A) (i : nat) (x : A) : option (list A) :=
  if decide (i < length l)%nat then Some (<[i:=x]> l) else None.

(** How a run against what the environment has supplied so far ends:
    with a value, in a panic, or still waiting for a node or a channel. *)
Inductive Outcome (A : Type) :=
| Returned (a : A)
| Panicked
| Waiting.
Global Arguments Returned {A} _.
Global Arguments Panicked {A}.
Global Arguments Waiting {A}.

(** The registry of a deployment: three regions of three zones. *)
Definition shaped (cs : orderedBlockClients) : Prop :=
  length (regionClients cs) = 3%nat ∧
  length (zoneClients cs) = 3%nat ∧
  Forall (λ row, length row = 3%nat) (zoneClients cs).

(** What the nodes answer. [BlockByHash] and
    [GetExternalBlockByHashAndContext] are used for the block they
    return only (nil is [None]); [GetBlockReceipts] for both the block
    and the error; [HeaderByNumber] answers [None] when it returns an
    error. *)
Record Network := mkNetwork {
  blockByHash : Client → Hash → option Block;
  getBlockReceipts : Client → Hash → option ReceiptBlock * bool;
  getExternalBlock : Client → Hash → Z → option ExternalBlock;
  headerByNumber : Client → option Header
}.

(** A location byte minus one, as [uint8] arithmetic does it. *)
Definition byte_pred (b : Z) : Z := (b - 1) mod 256.

(** The header built by [main]: every per-tier slice has three zero
    slots, the scalars are zero. *)
Definition initialHeader : Header :=
  mkHeader (replicate 3 0%N) (replicate 3 0%N) (replicate 3 None)
    (replicate 3 []) (replicate 3 None) (replicate 3 0) (replicate 3 0)
    (replicate 3 0%N) (replicate 3 0%N) (replicate 3 0%N)
    (replicate 3 None) (replicate 3 None) (replicate 3 0%N)
    (replicate 3 0%N) 0 [] emptyNonce.

(** Every per-tier slice of a header has a slot for each of the three
    tiers. *)
Definition tiered (h : Header) : Prop :=
  length (ParentHash h) = 3%nat ∧ length (UncleHash h) = 3%nat ∧
  length (Number h) = 3%nat ∧ length (Extra h) = 3%nat ∧
  length (BaseFee h) = 3%nat ∧ length (GasLimit h) = 3%nat ∧
  length (GasUsed h) = 3%nat ∧ length (TxHash h) = 3%nat ∧
  length (ReceiptHash h) = 3%nat ∧ length (Root h) = 3%nat ∧
  length (Difficulty h) = 3%nat ∧ length (NetworkDifficulty h) = 3%nat ∧
  length (Coinbase h) = 3%nat ∧ length (Bloom_ h) = 3%nat.

End Types.
Import Types.

(** ** Retry delay

  [delaySecs := int64(math.Floor((math.Pow(2, float64(attempts)) - 1) * 0.5))]
  followed by the clamp to [exponentialBackoffCeilingSecs]. The
  arithmetic is IEEE 754 binary64, taken from [SpecFloat]; the final
  conversion to [int64] is where Go leaves the result to the
  implementation when the value does not fit. *)

Module Backoff.

Definition prec : Z := 53.
Definition emax : Z := 1024.
Definition float64 := spec_float.

(** [float64(n)] for an integer [n]: round to nearest even. *)
Definition f64_of_int (n : Z) : float64 := binary_normalize prec emax n 0 false.

Definition f64_one : float64 := f64_of_int 1.
Definition f64_half : float64 := SFldexp prec emax f64_one (-1).

Definition f64_sub : float64 → float64 → float64 := SFsub prec emax.
Definition f64_mul : float64 → float64 → float64 := SFmul prec emax.

(** The signed significand of a finite float. *)
Definition signed (s : bool) (m : positive) : Z := cond_Zopp s (Zpos m).

(** The integer a finite float denotes, when it denotes one. *)
Definition f64_integral (f : float64) : option Z :=
  match f with
  | S754_zero _ => Some 0
  | S754_finite s m e =>
      if 0 <=? e then Some (signed s m * 2 ^ e)
      else if signed s m mod 2 ^ (- e) =? 0 then Some (signed s m / 2 ^ (- e))
      else None
  | _ => None
  end.

(** [math.Pow(2, y)]. The Go standard library is not part of this
    repository; its documented result at base two and an integral [y] is
    the exact power of two, rounded into the subnormal range or to zero
    below it and to [+Inf] above the largest finite float. The caller
    only ever passes [float64(attempts)], an integral value; any other
    exponent is answered with NaN here. *)
Definition math_Pow2 (y : float64) : float64 :=
  match y with
  | S754_infinity false => S754_infinity false
  | S754_infinity true => S754_zero false
  | S754_nan => S754_nan
  | _ => match f64_integral y with
         | Some n => SFldexp prec emax f64_one n
         | None => S754_nan
         end
  end.

(** [math.Floor]. *)
Definition math_Floor (f : float64) : float64 :=
  match f with
  | S754_finite s m e =>
      if e <? 0 then binary_normalize prec emax (signed s m / 2 ^ (- e)) 0 s
      else f
  | _ => f
  end.

Definition minInt64 : Z := - 2 ^ 63.
Definition maxInt64 : Z := 2 ^ 63 - 1.

(** What a Go implementation answers for [int64(f)] when [f] is NaN, an
    infinity or beyond the range of [int64]: the language leaves it
    implementation-dependent. *)
Definition Conversion := float64 → Z.

(** amd64: CVTTSD2SQ answers the "integer indefinite" value. *)
Definition amd64 : Conversion := fun _ => minInt64.

(** arm64: FCVTZS saturates, and sends NaN to zero. *)
Definition arm64 : Conversion := fun f =>
  match f with
  | S754_nan => 0
  | S754_infinity true | S754_finite true _ _ => minInt64
  | _ => maxInt64
  end.

(** [int64(f)]: truncation toward zero when the result fits. *)
Definition int64_of_f64 (conv : Conversion) (f : float64) : Z :=
  match f with
  | S754_zero _ => 0
  | S754_finite s m e =>
      let t := if 0 <=? e then signed s m * 2 ^ e
               else Z.quot (signed s m) (2 ^ (- e)) in
      if (minInt64 <=? t) && (t <=? maxInt64) then t else conv f
  | _ => conv f
  end.

Definition exponentialBackoffCeilingSecs : Z := 14400.

(** The delay both retry loops compute from the attempt counter. *)
Definition delaySecs (conv : Conversion) (attempts : Z) : Z :=
  let delaySecs :=
    int64_of_f64 conv
      (math_Floor
         (f64_mul (f64_sub (math_Pow2 (f64_of_int attempts)) f64_one)
            f64_half)) in
  if delaySecs >? exponentialBackoffCeilingSecs
  then exponentialBackoffCeilingSecs else delaySecs.

(** The delay as the specification words it: [floor((2^n - 1) / 2)]
    seconds, clamped to the ceiling. *)
Definition spec_delay (n : Z) : Z :=
  Z.min ((2 ^ n - 1) / 2) exponentialBackoffCeilingSecs.

(** [time.Duration(delaySecs) * time.Second]: an [int64] count of
    nanoseconds, the product wrapping around. *)
Definition wrap64 (x : Z) : Z := (x + 2 ^ 63) mod 2 ^ 64 - 2 ^ 63.
Definition sleepDuration (delaySecs : Z) : Z := wrap64 (delaySecs * 1000000000).

End Backoff.

(** ** Pending-header aggregator *)

Module Aggregator.
Import Backoff.

(** [dst[i] = src[i]] on two slices; either index out of range panics. *)
Definition copy_slot {A} (dst src : list A) (i : nat) : option (list A) :=
  x ← src !! i;
  if decide (i < length dst)%nat then Some (<[i:=x]> dst) else None.

(** [updateCombinedHeader]: the fourteen per-tier assignments, in source
    order, then the two scalars. The mutex it takes and releases around
    them has no effect on the value computed. *)
Definition updateCombinedHeader (m : Manager) (header : Header) (i : nat)
  : option Manager :=
  let c := combinedHeader m in
  let time := Time header in
  let time := if time <=? Time c then Time c else time in
  parentHash ← copy_slot (ParentHash c) (ParentHash header) i;
  uncleHash ← copy_slot (UncleHash c) (UncleHash header) i;
  number ← copy_slot (Number c) (Number header) i;
  extra ← copy_slot (Extra c) (Extra header) i;
  baseFee ← copy_slot (BaseFee c) (BaseFee header) i;
  gasLimit ← copy_slot (GasLimit c) (GasLimit header) i;
  gasUsed ← copy_slot (GasUsed c) (GasUsed header) i;
  txHash ← copy_slot (TxHash c) (TxHash header) i;
  receiptHash ← copy_slot (ReceiptHash c) (ReceiptHash header) i;
  root ← copy_slot (Root c) (Root header) i;
  difficulty ← copy_slot (Difficulty c) (Difficulty header) i;
  networkDifficulty ←
    copy_slot (NetworkDifficulty c) (NetworkDifficulty header) i;
  coinbase ← copy_slot (Coinbase c) (Coinbase header) i;
  bloom ← copy_slot (Bloom_ c) (Bloom_ header) i;
  Some (mkManager (clients m)
          (mkHeader parentHash uncleHash number extra baseFee gasLimit
             gasUsed txHash receiptHash root difficulty networkDifficulty
             coinbase bloom time (location m) (Nonce c))
          (pendingBlocks m) (location m)).

(** Capacity of [updatedCh] (and of the other buffered channels). *)
Definition resultQueueSize : nat := 10.

(** One delivery handled by [loopGlobalBlock], the three cases of its
    [select] being the same code at tier 0, 1 and 2. [block.Header()]
    hands out a copy of the block's header, as the accessors of
    [core/types] do; the function returns, next to the new shared state,
    that local [header] as the last assignment leaves it, and the number
    of combined-header pointers queued on [updatedCh] (the send is
    dropped when the buffer is full). *)
Definition loopGlobalBlock (m : Manager) (updatedCh : nat) (i : nat)
    (block : ReceiptBlock) : option (Manager * Header * nat) :=
  let header := rHeader block in
  m ← updateCombinedHeader m header i;
  pending ← store (pendingBlocks m) i (Some block);
  let m := mkManager (clients m) (combinedHeader m) pending (location m) in
  let header :=
    mkHeader (ParentHash header) (UncleHash header) (Number header)
      (Extra header) (BaseFee header) (GasLimit header) (GasUsed header)
      (TxHash header) (ReceiptHash header) (Root header)
      (Difficulty header) (NetworkDifficulty header) (Coinbase header)
      (Bloom_ header) (Time header) (Location header) emptyNonce in
  let updatedCh :=
    if decide (updatedCh < resultQueueSize)%nat then S updatedCh
    else updatedCh in
  Some (m, header, updatedCh).

(** One answer of a node to [GetPendingBlock]: how long the call took
    (nanoseconds), the block returned (nil is [None]) and whether the
    error returned is non-nil. *)
Record Answer := mkAnswer {
  took : Z; answered : option ReceiptBlock; failed : bool }.

Definition twelveHours : Z := 12 * 3600 * 1000000000.

(** The retry loop of [fetchPendingBlocks]. [now] is the clock in
    nanoseconds; each iteration consumes one answer of the script. *)
Fixpoint retryLoop (conv : Conversion) (client : Client)
    (attempts lastUpdatedAt now : Z) (script : list Answer)
    (acc : list Event) : Outcome (list Event * ReceiptBlock) :=
  match script with
  | [] => Waiting
  | a :: script =>
      let attempts :=
        if twelveHours <=? now - lastUpdatedAt then 0 else attempts in
      let now := now + took a in
      let acc := acc ++ [EvGetPendingBlock client] in
      match answered a, failed a with
      | Some receiptBlock, false => Returned (acc, receiptBlock)
      | _, _ =>
          let lastUpdatedAt := now in
          let attempts := attempts + 1 in
          let delay := delaySecs conv attempts in
          let now := now + Z.max 0 (sleepDuration delay) in
          retryLoop conv client attempts lastUpdatedAt now script
            (acc ++ [EvSleep delay])
      end
  end.

(** The stale-header test of [fetchPendingBlocks]:
    [receiptBlock != nil &&
     receiptBlock.Header().Number[sliceIndex] == m.combinedHeader.Number[sliceIndex] &&
     err == nil]. Both operands of [==] are [*big.Int]. [None] is an
    index out of range. *)
Definition staleHeader (m : Manager) (sliceIndex : nat) (a : Answer)
  : option bool :=
  match answered a with
  | None => Some false
  | Some receiptBlock =>
      fetched ← Number (rHeader receiptBlock) !! sliceIndex;
      current ← Number (combinedHeader m) !! sliceIndex;
      Some (ptr_eqb fetched current && negb (failed a))
  end.

(** [fetchPendingBlocks]: the calls it issues, and the block it then
    sends on the pending-block channel of tier [sliceIndex]. *)
Definition fetchPendingBlocks (conv : Conversion) (m : Manager)
    (client : Client) (sliceIndex : nat) (now : Z) (script : list Answer)
  : Outcome (list Event * ReceiptBlock) :=
  match script with
  | [] => Waiting
  | first :: script =>
      let now := now + took first in
      let acc := [EvLock; EvGetPendingBlock client] in
      match staleHeader m sliceIndex first with
      | None => Panicked
      | Some stale =>
          let refetched :=
            if stale then
              match script with
              | [] => None
              | second :: script =>
                  Some (second, script, now + took second,
                        acc ++ [EvGetPendingBlock client])
              end
            else Some (first, script, now, acc) in
          match refetched with
          | None => Waiting
          | Some (last, script, now, acc) =>
              let finish r :=
                match r with
                | Returned (acc, receiptBlock) =>
                    Returned (acc ++ [EvUnlock], receiptBlock)
                | Panicked => Panicked
                | Waiting => Waiting
                end in
              match answered last, failed last with
              | Some receiptBlock, false => finish (Returned (acc, receiptBlock))
              | _, _ => finish (retryLoop conv client 0 now now script acc)
              end
          end
      end
  end.

(** How many times a trace calls [GetPendingBlock]. *)
Definition isFetch (e : Event) : bool :=
  match e with EvGetPendingBlock _ => true | _ => false end.
Definition fetches (t : list Event) : nat := count isFetch t.

End Aggregator.


(** ** Mining driver *)

Module Driver.

(** [headerNullCheck]: [Some true] when it returns its error, [Some
    false] when it returns nil. *)
Definition headerNullCheck (m : Manager) : option bool :=
  let number := Number (combinedHeader m) in
  n0 ← number !! 0%nat;
  if n0 is None then Some true else
  n1 ← number !! 1%nat;
  if n1 is None then Some true else
  n2 ← number !! 2%nat;
  if n2 is None then Some true else Some false.

(** One iteration of [miningLoop]. [updatedCh] counts the queued
    pointers, each of them the pointer [m.combinedHeader], so that the
    header received is the combined header as it is now. [stopCh] tells
    whether the stop channel is non-nil. The result is the events
    issued, the channel afterwards, and [stopCh] afterwards. *)
Definition miningLoop (m : Manager) (updatedCh : nat) (stopCh : bool)
  : Outcome (list Event * nat * bool) :=
  match updatedCh with
  | O => Waiting
  | S updatedCh =>
      let header := combinedHeader m in
      let interrupt := if stopCh then [EvInterrupt] else [] in
      let acc := interrupt ++ [EvLock; EvUnlock] in
      match headerNullCheck m with
      | None => Panicked
      | Some false => Returned (acc ++ [EvSealHeader header], updatedCh, true)
      | Some true => Returned (acc, updatedCh, true)
      end
  end.

(** A block number is present. *)
Definition filled (h : Header) (k : nat) : Prop :=
  ∃ n, Number h !! k = Some (Some n).

Definition isSealHeader (e : Event) : bool :=
  match e with EvSealHeader _ => true | _ => false end.

End Driver.

(** ** Missing-external-block responder *)

Module Responder.

(** [core.MissingExternalBlock]. *)
Record MissingExternalBlock := mkMissing {
  mHash : Hash; mLocation : list Z; mContext : Z }.

Inductive Handled := Replied | Dropped.

(** The node of tier [ctx] at location [(r, z)], as the registry lists
    it: PRIME, the [r]-th region, or the [z]-th zone of the [r]-th
    region. *)
Definition nodeAt (cs : orderedBlockClients) (ctx r z : Z) : option Client :=
  if ctx =? 0 then Some (primeClient cs)
  else if ctx =? 1 then regionClients cs !! Z.to_nat (r - 1)
  else row ← zoneClients cs !! Z.to_nat (r - 1); row !! Z.to_nat (z - 1).

(** The tier of the node named by the two bytes [(a, b)]. *)
Definition tierOf (a b : Z) : Z :=
  if a =? 0 then 0 else if b =? 0 then 1 else 2.

(** The client picked by the three [if]s on the request's context; a
    context outside 0..2 leaves the nil client, on which the next call
    panics. *)
Definition owner (m : Manager) (req : MissingExternalBlock) : Eff Client :=
  let cs := clients m in
  let client : option Client :=
    if mContext req =? 0 then Some (primeClient cs) else None in
  client ←
    (if mContext req =? 1 then
       r ← index (mLocation req) 0;
       c ← index (regionClients cs) (r - 1);
       mret (Some c)
     else mret client);
  client ←
    (if mContext req =? 2 then
       r ← index (mLocation req) 0;
       row ← index (zoneClients cs) (r - 1);
       z ← index (mLocation req) 1;
       c ← index row (z - 1);
       mret (Some c)
     else mret client);
  match client with
  | Some c => mret c
  | None => panic
  end.

(** The client the answer goes back to: the subscribed node, named by
    the two bytes [chain]. *)
Definition extClient (m : Manager) (chain : list Z) : Eff Client :=
  let cs := clients m in
  c0 ← index chain 0;
  c1 ← index chain 1;
  if (c0 =? 0) && (c1 =? 0) then mret (primeClient cs)
  else if negb (c0 =? 0) && (c1 =? 0) then
    index (regionClients cs) (byte_pred c0)
  else
    row ← index (zoneClients cs) (byte_pred c0);
    index row (byte_pred c1).

(** The reply that ends a successful lookup. A failed send is logged
    and nothing else happens. *)
Definition reply (m : Manager) (chain : list Z) (req : MissingExternalBlock)
    (block : Block) (receipts : Payload) : Eff Handled :=
  c ← extClient m chain;
  emit (EvSendExternalBlock c block receipts (mContext req));;
  mret Replied.

(** [GetExternalBlockByHashAndContext] on [c], and the block rebuilt
    from the answer. *)
Definition probe (net : Network) (c : Client) (req : MissingExternalBlock)
  : Eff (option (Block * Payload)) :=
  emit (EvGetExternalBlock c (mHash req) (mContext req));;
  mret (eb ← getExternalBlock net c (mHash req) (mContext req);
        Some (NewBlockWithBody (eHeader eb) (eTransactions eb) (eUncles eb),
              eReceipts eb)).

(** The body of the loop of [subscribeMissingExternalBlockClient] for
    one request received by the subscription of node [chain]. *)
Definition subscribeMissingExternalBlockClient (m : Manager) (net : Network)
    (chain : list Z) (req : MissingExternalBlock) : Eff Handled :=
  client ← owner m req;
  emit (EvBlockByHash client (mHash req));;
  match blockByHash net client (mHash req) with
  | Some block =>
      emit (EvGetBlockReceipts client (mHash req));;
      let '(receiptBlock, err) := getBlockReceipts net client (mHash req) in
      if err then mret Dropped else
      match receiptBlock with
      | None => panic
      | Some receiptBlock => reply m chain req block (rReceipts receiptBlock)
      end
  | None =>
      found ← probe net (primeClient (clients m)) req;
      match found with
      | Some (block, receipts) => reply m chain req block receipts
      | None =>
          r ← index (mLocation req) 0;
          region ← index (regionClients (clients m)) (r - 1);
          found ← probe net region req;
          match found with
          | Some (block, receipts) => reply m chain req block receipts
          | None => mret Dropped
          end
      end
  end.

End Responder.

(** ** Result dispatcher *)

Module Dispatcher.

(** [types.HeaderBundle]. *)
Record HeaderBundle := mkBundle { Header_ : Header; Context : Z }.

(** [checkConnection]. *)
Definition checkConnection (net : Network) (client : Client) : Eff bool :=
  emit (EvHeaderByNumber client);;
  mret (if headerByNumber net client is Some _ then true else false).

(** A loop that returns false at the first client not answering. *)
Fixpoint allOnline (net : Network) (cs : list Client) : Eff bool :=
  match cs with
  | [] => mret true
  | blockClient :: cs =>
      ok ← checkConnection net blockClient;
      if (ok : bool) then allOnline net cs else mret false
  end.

(** [allChainsOnline]; the nested loops over the zone clients visit
    them row by row. *)
Definition allChainsOnline (m : Manager) (net : Network) : Eff bool :=
  let cs := clients m in
  ok ← checkConnection net (primeClient cs);
  if negb ok then mret false else
  ok ← allOnline net (regionClients cs);
  if negb ok then mret false else
  allOnline net (concat (zoneClients cs)).

(** [for i, x := range l] with the index at hand. *)
Fixpoint forRange {A} (f : Z → A → Eff ()) (i : Z) (l : list A) : Eff () :=
  match l with
  | [] => mret ()
  | x :: l => f i x;; forRange f (i + 1) l
  end.

Definition when (c : bool) (body : Eff ()) : Eff () :=
  if c then body else mret ().

(** [SendClientsExtBlock]. *)
Definition SendClientsExtBlock (m : Manager) (mined : Z)
    (externalContexts : list Z) (block : Block)
    (receiptBlock : ReceiptBlock) : Eff () :=
  let cs := clients m in
  let blockLocation := Location (bHeader block) in
  let send client :=
    emit (EvSendExternalBlock client block (rReceipts receiptBlock) mined) in
  if blockLocation is [] then mret () else
  forRange (λ _ ctx,
    when ((ctx =? 0) && primeAvailable cs) (send (primeClient cs));;
    when (ctx =? 1)
      (l0 ← index blockLocation 0;
       available ← index (regionsAvailable cs) (byte_pred l0);
       when available
         (client ← index (regionClients cs) (byte_pred l0); send client));;
    when (ctx =? 2)
      (l0 ← index blockLocation 0;
       row ← index (zonesAvailable cs) (byte_pred l0);
       l1 ← index blockLocation 1;
       available ← index row (byte_pred l1);
       when available
         (l0 ← index blockLocation 0;
          row ← index (zoneClients cs) (byte_pred l0);
          l1 ← index blockLocation 1;
          client ← index row (byte_pred l1);
          send client))) 0 externalContexts;;
  forRange (λ i blockClient,
    l0 ← index blockLocation 0;
    let miningRegion := l0 - 1 =? i in
    when (negb miningRegion) (send blockClient)) 0 (regionClients cs);;
  forRange (λ i row,
    forRange (λ j blockClient,
      l0 ← index blockLocation 0;
      miningZone ←
        (if l0 - 1 =? i then l1 ← index blockLocation 1; mret (l1 - 1 =? j)
         else mret false);
      when (negb miningZone) (send blockClient)) 0 row) 0 (zoneClients cs).

(** [SendClientsMinedExtBlock]; [wg.Done()] is deferred by its last
    statement and so runs exactly when the function returns. *)
Definition SendClientsMinedExtBlock (m : Manager) (mined : Z)
    (externalContexts : list Z) (header : Header) : Eff () :=
  receiptBlock ← index (pendingBlocks m) mined;
  match receiptBlock with
  | Some receiptBlock =>
      let block :=
        NewBlockWithBody header (rTransactions receiptBlock)
          (rUncles receiptBlock) in
      SendClientsExtBlock m mined externalContexts block receiptBlock
  | None => mret ()
  end.

(** [SendMinedBlock]: the pending block is read through before anything
    is tested, so a nil one panics. *)
Definition SendMinedBlock (m : Manager) (mined : Z) (header : Header)
  : Eff () :=
  let cs := clients m in
  receiptBlock ← index (pendingBlocks m) mined;
  match receiptBlock with
  | None => panic
  | Some receiptBlock =>
      let block :=
        NewBlockWithBody (rHeader receiptBlock) (rTransactions receiptBlock)
          (rUncles receiptBlock) in
      let sealed := WithSeal block header in
      when (mined =? 0) (emit (EvSendMinedBlock (primeClient cs) sealed));;
      when (mined =? 1)
        (l0 ← index (location m) 0;
         client ← index (regionClients cs) (byte_pred l0);
         emit (EvSendMinedBlock client sealed));;
      when (mined =? 2)
        (l0 ← index (location m) 0;
         row ← index (zoneClients cs) (byte_pred l0);
         l1 ← index (location m) 1;
         client ← index row (byte_pred l1);
         emit (EvSendMinedBlock client sealed))
  end.

(** What the goroutine running [resultLoop] does, statement by
    statement. *)
Inductive Instr :=
| ILock
| IUnlock
| IEmit (e : Event)
| IAdd
| IGo (body : Eff ())
| IWait
| IPanic.

(** [wg.Add(1); go f(...)]. *)
Definition spawn (body : Eff ()) : list Instr := [IAdd; IGo body].

(** [if bundle.Context == k && header.Number[k] != nil { body }], then
    the rest. *)
Definition guarded (bundle : HeaderBundle) (k : nat) (body rest : list Instr)
  : list Instr :=
  if Context bundle =? Z.of_nat k then
    match Number (Header_ bundle) !! k with
    | None => [IPanic]
    | Some None => rest
    | Some (Some _) => body ++ rest
    end
  else rest.

(** One iteration of [resultLoop], for the bundle received. The
    goroutines read the shared state as it is during the iteration. *)
Definition resultLoop (m : Manager) (net : Network) (bundle : HeaderBundle)
  : list Instr :=
  let header := Header_ bundle in
  let extBlock mined ctxs := spawn (SendClientsMinedExtBlock m mined ctxs header) in
  let minedBlock mined := spawn (SendMinedBlock m mined header) in
  let online := allChainsOnline m net in
  ILock :: map IEmit (events online) ++
  match result online with
  | None => [IPanic]
  | Some false => []
  | Some true =>
      guarded bundle 0
        (extBlock 0 [1; 2] ++ extBlock 1 [0; 2] ++ extBlock 2 [0; 1] ++
         [IWait] ++
         minedBlock 2 ++ minedBlock 1 ++ minedBlock 0 ++ [IWait])
      (guarded bundle 1
        (extBlock 1 [0; 2] ++ extBlock 2 [0; 1] ++ [IWait] ++
         minedBlock 2 ++ minedBlock 1 ++ [IWait])
      (guarded bundle 2
        (extBlock 2 [0; 1] ++ [IWait] ++ minedBlock 2 ++ [IWait])
        [IUnlock]))
  end.

(** The dispatcher with its goroutines: what is left of the main
    goroutine, what is left of each spawned one, the wait-group counter,
    the mutex, whether a panic has taken the process down, the RPC
    trace so far, and the shared state. *)
Record Config := mkConfig {
  main : list Instr;
  threads : list (Eff ());
  wg : nat;
  held : bool;
  crashed : bool;
  trace : list Event;
  mgr : Manager
}.

Definition initial (m : Manager) (net : Network) (bundle : HeaderBundle)
  : Config :=
  mkConfig (resultLoop m net bundle) [] 0 false false [] m.

(** Interleaving semantics: either the main goroutine runs its next
    statement or one of the spawned goroutines issues its next call,
    returns (running the deferred [wg.Done()]) or panics. A panic
    takes the whole process down: nothing runs after it. *)
Inductive step : Config → Config → Prop :=
| step_lock r ts n t m :
    step (mkConfig (ILock :: r) ts n false false t m)
         (mkConfig r ts n true false (t ++ [EvLock]) m)
| step_unlock r ts n t m :
    step (mkConfig (IUnlock :: r) ts n true false t m)
         (mkConfig r ts n false false (t ++ [EvUnlock]) m)
| step_emit e r ts n h t m :
    step (mkConfig (IEmit e :: r) ts n h false t m)
         (mkConfig r ts n h false (t ++ [e]) m)
| step_add r ts n h t m :
    step (mkConfig (IAdd :: r) ts n h false t m)
         (mkConfig r ts (S n) h false t m)
| step_go body r ts n h t m :
    step (mkConfig (IGo body :: r) ts n h false t m)
         (mkConfig r (ts ++ [body]) n h false t m)
| step_wait r ts h t m :
    step (mkConfig (IWait :: r) ts 0 h false t m)
         (mkConfig r ts 0 h false t m)
| step_panic r ts n h t m :
    step (mkConfig (IPanic :: r) ts n h false t m)
         (mkConfig (IPanic :: r) ts n h true t m)
| step_call r ts1 e es res ts2 n h t m :
    step (mkConfig r (ts1 ++ mkEff (e :: es) res :: ts2) n h false t m)
         (mkConfig r (ts1 ++ mkEff es res :: ts2) n h false (t ++ [e]) m)
| step_done r ts1 ts2 n h t m :
    step (mkConfig r (ts1 ++ mkEff [] (Some ()) :: ts2) (S n) h false t m)
         (mkConfig r (ts1 ++ ts2) n h false t m)
| step_crash r ts1 ts2 n h t m :
    step (mkConfig r (ts1 ++ mkEff [] None :: ts2) n h false t m)
         (mkConfig r (ts1 ++ mkEff [] None :: ts2) n h true t m).

(** The configurations an iteration can be in. *)
Definition reachable (m : Manager) (net : Network) (bundle : HeaderBundle)
  : Config → Prop := rtc step (initial m net bundle).

(** The order in which the calls of an iteration may appear: the lock,
    the connection checks, the external-block sends (Phase A), the
    sealed-block sends (Phase B), the unlock. *)
Definition phase (e : Event) : nat :=
  match e with
  | EvLock => 0
  | EvHeaderByNumber _ => 1
  | EvSendExternalBlock _ _ _ _ => 2
  | EvSendMinedBlock _ _ => 3
  | EvUnlock => 4
  | _ => 5
  end.

(** No call of an earlier phase after a call of a later one. *)
Fixpoint phased (lo : nat) (t : list Event) : bool :=
  match t with
  | [] => true
  | e :: t => (lo <=? phase e)%nat && phased (phase e) t
  end.

(** The calls a goroutine or the main goroutine has yet to issue. *)
Definition pendingOf (i : Instr) : list Event :=
  match i with
  | ILock => [EvLock]
  | IUnlock => [EvUnlock]
  | IEmit e => [e]
  | IGo body => events body
  | _ => []
  end.
Definition pendingEvents (c : Config) : list Event :=
  concat (map events (threads c)) ++ concat (map pendingOf (main c)).

(** A static check of a dispatcher program, from which the ordering of
    every interleaving follows. [expectGo] tells that [wg.Add(1)] has
    just run and its [go] statement is due; the mode tells whether
    goroutines may be running and, if any of them issues calls, the one
    phase their calls belong to; [lo] bounds the phases seen before the
    running goroutines were spawned; [h] is the state of the mutex. *)
Inductive Mode := Quiet | Busy (running : option nat).

Definition isQuiet (mode : Mode) : bool :=
  match mode with Quiet => true | Busy _ => false end.

Definition bound (lo : nat) (mode : Mode) : nat :=
  match mode with Busy (Some L) => L | _ => lo end.

Definition uniform (L : nat) (body : Eff ()) : bool :=
  forallb (λ e, phase e =? L)%nat (events body).

Fixpoint admissible (expectGo : bool) (mode : Mode) (lo : nat) (h : bool)
    (p : list Instr) : bool :=
  match p with
  | [] => negb expectGo
  | ILock :: r =>
      negb expectGo && isQuiet mode && negb h && (lo =? 0)%nat &&
      admissible false Quiet 0 true r
  | IUnlock :: r =>
      negb expectGo && isQuiet mode && h && (lo <=? 4)%nat &&
      admissible false Quiet 4 false r
  | IEmit e :: r =>
      negb expectGo && isQuiet mode && (lo <=? phase e)%nat &&
      (negb (isSend e) || h) && admissible false Quiet (phase e) h r
  | IAdd :: r => negb expectGo && admissible true mode lo h r
  | IGo body :: r =>
      expectGo && h &&
      match events body with
      | [] =>
          admissible false
            (match mode with Quiet => Busy None | _ => mode end) lo h r
      | e :: _ =>
          uniform (phase e) body && (lo <=? phase e)%nat &&
          match mode with
          | Busy (Some L) => (phase e =? L)%nat
          | _ => true
          end &&
          admissible false (Busy (Some (phase e))) lo h r
      end
  | IWait :: r => negb expectGo && admissible false Quiet (bound lo mode) h r
  | IPanic :: r => negb expectGo && admissible false mode lo h r
  end.

(** The mode may take goroutines whose calls are of phase [L]. *)
Definition takes (L : nat) (mode : Mode) : Prop :=
  match mode with Busy (Some L') => L' = L | _ => True end.

(** What the static check guarantees of every configuration an
    admissible program reaches. *)
Definition ordered (c : Config) : Prop :=
  ∃ expectGo mode lo,
    admissible expectGo mode lo (held c) (main c) = true ∧
    wg c = (length (threads c) + (if expectGo : bool then 1 else 0))%nat ∧
    (mode = Quiet → threads c = []) ∧
    Forall (λ body, events body = [] ∨
                    ∃ L, mode = Busy (Some L) ∧ uniform L body = true)
      (threads c) ∧
    (∀ L, mode = Busy (Some L) → (lo ≤ L)%nat) ∧
    (threads c ≠ [] → held c = true) ∧
    phased 0 (trace c) = true ∧
    Forall (λ e, (phase e ≤ bound lo mode)%nat) (trace c).

(** The registry has three regions of three zones, the pending blocks
    have their three slots and the location names a zone. *)
Definition sliced (m : Manager) : Prop :=
  length (regionClients (clients m)) = 3%nat ∧
  length (zoneClients (clients m)) = 3%nat ∧
  Forall (λ row, length row = 3%nat) (zoneClients (clients m)) ∧
  length (pendingBlocks m) = 3%nat ∧
  ∃ r z, location m = [r; z] ∧ 1 <= r <= 3 ∧ 1 <= z <= 3.

(** A scheduler for running the model: [None] runs the main goroutine,
    [Some k] the [k]-th spawned one. *)
Definition runMain (c : Config) : option Config :=
  if crashed c then None else
  match main c with
  | ILock :: r =>
      if held c then None
      else Some (mkConfig r (threads c) (wg c) true false (trace c ++ [EvLock]) (mgr c))
  | IUnlock :: r =>
      if held c
      then Some (mkConfig r (threads c) (wg c) false false (trace c ++ [EvUnlock]) (mgr c))
      else None
  | IEmit e :: r =>
      Some (mkConfig r (threads c) (wg c) (held c) false (trace c ++ [e]) (mgr c))
  | IAdd :: r =>
      Some (mkConfig r (threads c) (S (wg c)) (held c) false (trace c) (mgr c))
  | IGo body :: r =>
      Some (mkConfig r (threads c ++ [body]) (wg c) (held c) false (trace c) (mgr c))
  | IWait :: r =>
      if wg c is O
      then Some (mkConfig r (threads c) O (held c) false (trace c) (mgr c))
      else None
  | IPanic :: r =>
      Some (mkConfig (IPanic :: r) (threads c) (wg c) (held c) true (trace c) (mgr c))
  | [] => None
  end.

Definition runThread (k : nat) (c : Config) : option Config :=
  if crashed c then None else
  match threads c !! k with
  | Some (mkEff (e :: es) res) =>
      Some (mkConfig (main c) (take k (threads c) ++ mkEff es res :: drop (S k) (threads c))
              (wg c) (held c) false (trace c ++ [e]) (mgr c))
  | Some (mkEff [] (Some _)) =>
      match wg c with
      | S n => Some (mkConfig (main c) (take k (threads c) ++ drop (S k) (threads c))
                       n (held c) false (trace c) (mgr c))
      | O => None
      end
  | Some (mkEff [] None) =>
      Some (mkConfig (main c) (threads c) (wg c) (held c) true (trace c) (mgr c))
  | None => None
  end.

Fixpoint run (schedule : list (option nat)) (c : Config) : option Config :=
  match schedule with
  | [] => Some c
  | None :: schedule => c ← runMain c; run schedule c
  | Some k :: schedule => c ← runThread k c; run schedule c
  end.

End Dispatcher.

(** ** Auto-locator *)

Module Locator.

(** [math.MaxInt] on a 64-bit platform. *)
Definition MaxInt : Z := 2 ^ 63 - 1.

(** One of the two loops of [findBestLocation]: [i] is the loop index,
    [best] the location chosen so far (zero: none yet) and [lowest] the
    difficulty it was chosen for. A nil difficulty panics in [Cmp]. *)
Fixpoint lowestDifficulty (net : Network) (tier : nat) (cs : list Client)
    (i best lowest : Z) : Eff (Z * Z) :=
  match cs with
  | [] => mret (best, lowest)
  | client :: cs =>
      emit (EvHeaderByNumber client);;
      match headerByNumber net client with
      | None => lowestDifficulty net tier cs (i + 1) best lowest
      | Some latestHeader =>
          match Difficulty latestHeader !! tier with
          | Some (Some difficulty) =>
              if val difficulty <? lowest
              then lowestDifficulty net tier cs (i + 1) (i + 1) (val difficulty)
              else lowestDifficulty net tier cs (i + 1) best lowest
          | _ => panic
          end
      end
  end.

(** The difficulty of tier [tier] in the latest head of a node, when
    the node answers and the header carries one. *)
Definition difficultyOf (net : Network) (tier : nat) (client : Client)
  : option Z :=
  latestHeader ← headerByNumber net client;
  difficulty ← mjoin (Difficulty latestHeader !! tier);
  Some (val difficulty).

(** [findBestLocation]. *)
Definition findBestLocation (cs : orderedBlockClients) (net : Network)
  : Eff (list Z) :=
  '(regionLocation, _) ← lowestDifficulty net 1 (regionClients cs) 0 0 MaxInt;
  zones ← index (zoneClients cs) (regionLocation - 1);
  '(zoneLocation, _) ← lowestDifficulty net 2 zones 0 0 MaxInt;
  mret [regionLocation mod 256; zoneLocation mod 256].

End Locator.

(** ** Sample data *)

Module Sample.
Import Aggregator Driver Responder Dispatcher Locator.

(** The registry of a full deployment: PRIME, three regions, nine
    zones, every handle distinct. *)
Definition registry : orderedBlockClients :=
  mkClients 100%N true [110; 120; 130]%N [true; true; true]
    [[111; 112; 113]; [121; 122; 123]; [131; 132; 133]]%N
    [[true; true; true]; [true; true; true]; [true; true; true]].

Definition big (a : N) (v : Z) : BigPtr := Some (mkBig a v).

(** A header whose three block numbers are the given pointers. *)
Definition headerWith (number : list BigPtr) (time : Z) (loc : list Z)
    (nonce : BlockNonce) : Header :=
  mkHeader [1; 2; 3]%N [4; 5; 6]%N number [[7]; [8]; [9]]%N
    [big 1 10; big 2 11; big 3 12] [30; 31; 32] [20; 21; 22]
    [40; 41; 42]%N [50; 51; 52]%N [60; 61; 62]%N
    [big 4 1000; big 5 100; big 6 10] [big 7 1000; big 8 100; big 9 10]
    [70; 71; 72]%N [80; 81; 82]%N time loc nonce.

(** A coordinator mining at (1,1) whose PRIME slot sits at block 5. *)
Definition combined : Header :=
  headerWith [big 11 5; None; None] 90 [1; 1] emptyNonce.
Definition manager : Manager :=
  mkManager registry combined [None; None; None] [1; 1].

(** A pending PRIME block at the same height 5, freshly decoded (its
    number lives in a cell of its own), and one at height 6. *)
Definition sameHeight : ReceiptBlock :=
  mkReceiptBlock (headerWith [big 21 5; big 22 7; big 23 9] 95 [1; 1] 0%N)
    [1]%N [2]%N [3]%N.
Definition nextHeight : ReceiptBlock :=
  mkReceiptBlock (headerWith [big 31 6; big 32 7; big 33 9] 99 [1; 1] 0%N)
    [4]%N [5]%N [6]%N.

(** A coordinator with all three slots filled. *)
Definition fullHeader : Header :=
  headerWith [big 11 5; big 12 7; big 13 9] 90 [1; 1] emptyNonce.
Definition fullManager : Manager :=
  mkManager registry fullHeader
    [Some nextHeight; Some nextHeight; Some nextHeight] [1; 1].

(** A network in which every node is up and knows nothing. *)
Definition quiet : Network :=
  mkNetwork (λ _ _, None) (λ _ _, (None, true)) (λ _ _ _, None)
    (λ _, Some fullHeader).

(** The same network with ZONE(1,2) unreachable. *)
Definition zoneDown : Network :=
  mkNetwork (λ _ _, None) (λ _ _, (None, true)) (λ _ _ _, None)
    (λ c, if (c =? 112)%N then None else Some fullHeader).

(** A network in which ZONE(2,3) holds block 5 but cannot produce its
    receipts. *)
Definition heldBlock : Block := mkBlock fullHeader [4]%N [5]%N.
Definition receiptsDown : Network :=
  mkNetwork (λ c _, if (c =? 123)%N then Some heldBlock else None)
    (λ _ _, (None, true)) (λ _ _ _, None) (λ _, Some fullHeader).

(** A network in which only REGION 2 has the external block. *)
Definition regionHas : Network :=
  mkNetwork (λ _ _, None) (λ _ _, (None, true))
    (λ c _ _, if (c =? 120)%N
              then Some (mkExternalBlock fullHeader [4]%N [5]%N [6]%N)
              else None)
    (λ _, Some fullHeader).

(** A network whose region heads carry difficulties beyond [int64]:
    REGION 2 has the lowest. *)
Definition heavy : Network :=
  mkNetwork (λ _ _, None) (λ _ _, (None, true)) (λ _ _ _, None)
    (λ c, Some (mkHeader [] [] [] [] [] [] [] [] [] []
                  [None;
                   big 1 (if (c =? 120)%N then 2 ^ 63 else 2 ^ 63 + 5);
                   big 2 7] [] [] [] 0 [] 0%N)).

(** A network whose heads carry ordinary difficulties: REGION 3 and,
    within it, ZONE 2 have the lowest. *)
Definition ordinary : Network :=
  mkNetwork (λ _ _, None) (λ _ _, (None, true)) (λ _ _ _, None)
    (λ c, Some (mkHeader [] [] [] [] [] [] [] [] [] []
                  [None;
                   big 1 (if (c =? 130)%N then 40 else 50);
                   big 2 (if (c =? 132)%N then 6 else 7)] [] [] [] 0 [] 0%N)).

(** A solution of ZONE class for the full coordinator. *)
Definition zoneBundle : HeaderBundle := mkBundle fullHeader 2.
Definition primeBundle : HeaderBundle := mkBundle fullHeader 0.

End Sample.


(** ** Vocabulary for the dispatcher's properties *)

Module DispatcherSpec.
Import Responder Dispatcher.

(** Every client of the registry, in the order [allChainsOnline] visits
    them. *)
Definition everyClient (cs : orderedBlockClients) : list Client :=
  primeClient cs :: regionClients cs ++ concat (zoneClients cs).

(** The node answers [HeaderByNumber]. *)
Definition answers (net : Network) (client : Client) : bool :=
  if headerByNumber net client is Some _ then true else false.

(** The clients up to and including the first that does not answer. *)
Fixpoint pinged (net : Network) (cs : list Client) : list Client :=
  match cs with
  | [] => []
  | c :: cs => c :: if answers net c then pinged net cs else []
  end.

(** A slice without its element of index [k]. *)
Definition others {A} (k : Z) (l : list A) : list A :=
  if 0 <=? k then take (Z.to_nat k) l ++ drop (S (Z.to_nat k)) l else l.

(** The zone clients row by row, without the zone [z] of region [r]. *)
Definition zonesExcept (r z : Z) (rows : list (list Client)) : list Client :=
  match rows !! Z.to_nat (r - 1) with
  | Some row =>
      concat (take (Z.to_nat (r - 1)) rows) ++ others (z - 1) row ++
      concat (drop (S (Z.to_nat (r - 1))) rows)
  | None => concat rows
  end.

(** The availability flags have the layout of the registry. *)
Definition flagged (cs : orderedBlockClients) : Prop :=
  length (regionsAvailable cs) = 3%nat ∧
  length (zonesAvailable cs) = 3%nat ∧
  Forall (λ row, length row = 3%nat) (zonesAvailable cs).

(** The flag of the node of tier [ctx] at location [(r, z)]. *)
Definition availableAt (cs : orderedBlockClients) (ctx r z : Z) : bool :=
  if ctx =? 0 then primeAvailable cs
  else if ctx =? 1 then default false (regionsAvailable cs !! Z.to_nat (r - 1))
  else default false
         (row ← zonesAvailable cs !! Z.to_nat (r - 1); row !! Z.to_nat (z - 1)).

(** The node of the mining slice that an entry of [externalContexts]
    selects: the one of that tier, if flagged available. *)
Definition miningTarget (cs : orderedBlockClients) (r z ctx : Z)
  : list Client :=
  if (0 <=? ctx) && (ctx <=? 2) && availableAt cs ctx r z
  then option_list (nodeAt cs ctx r z) else [].

(** Who is sent an external block mined at [(r, z)]. *)
Definition fanOut (cs : orderedBlockClients) (r z : Z) (ctxs : list Z)
  : list Client :=
  concat (map (miningTarget cs r z) ctxs) ++
  others (r - 1) (regionClients cs) ++ zonesExcept r z (zoneClients cs).

(** The state of the mutex once a program has run to its end. *)
Fixpoint finalHeld (h : bool) (p : list Instr) : bool :=
  match p with
  | [] => h
  | ILock :: p => finalHeld true p
  | IUnlock :: p => finalHeld false p
  | _ :: p => finalHeld h p
  end.

(** What is left to do in a configuration: a bound on the steps it can
    still take. *)
Definition weight (i : Instr) : nat :=
  match i with
  | IGo body => length (events body) + 2
  | _ => 1
  end.

Definition measure (c : Config) : nat :=
  if crashed c then 0
  else S (sum_list (map weight (main c)) +
          sum_list (map (λ body, S (length (events body))) (threads c))).

(** The iteration is over: nothing is left to run. *)
Definition finished (c : Config) : Prop := main c = [] ∧ threads c = [].

End DispatcherSpec.

(** ** Vocabulary for the aggregator's properties *)

Module AggregatorSpec.
Import Backoff Aggregator.

(** The answer is a block and comes without an error. *)
Definition good (a : Answer) : bool :=
  match answered a, failed a with
  | Some _, false => true
  | _, _ => false
  end.

Definition isSleep (e : Event) : bool :=
  match e with EvSleep _ => true | _ => false end.

(** A wait, if the call is one, lasts between zero seconds and the
    ceiling. *)
Definition bounded (e : Event) : Prop :=
  ∀ d, e = EvSleep d → 0 <= d <= exponentialBackoffCeilingSecs.

(** The number a [*big.Int] slot holds, whatever the cell. *)
Definition num (p : option BigPtr) : option (option Z) :=
  match p with
  | Some (Some n) => Some (Some (val n))
  | Some None => Some None
  | None => None
  end.

(** The per-tier fields of a header at tier [j], by value. *)
Definition slot (h : Header) (j : nat) :=
  (ParentHash h !! j, UncleHash h !! j, num (Number h !! j), Extra h !! j,
   num (BaseFee h !! j), GasLimit h !! j, GasUsed h !! j, TxHash h !! j,
   ReceiptHash h !! j, Root h !! j, num (Difficulty h !! j),
   num (NetworkDifficulty h !! j), Coinbase h !! j, Bloom_ h !! j).

(** At every tier that has a pending block, the combined header carries
    the fields of that block's header. *)
Definition consistent (m : Manager) : Prop :=
  ∀ j block, pendingBlocks m !! j = Some (Some block) →
    slot (combinedHeader m) j = slot (rHeader block) j.


(** The loop of [loopGlobalBlock] over the blocks it receives, each
    with the tier of the channel it arrived on, in the order in which
    the [select] takes them. *)
Fixpoint loopGlobalBlocks (m : Manager) (updatedCh : nat)
    (received : list (nat * ReceiptBlock)) : option (Manager * nat) :=
  match received with
  | [] => Some (m, updatedCh)
  | (i, block) :: received =>
      '(m, _, updatedCh) ← loopGlobalBlock m updatedCh i block;
      loopGlobalBlocks m updatedCh received
  end.

(** The block last received for tier [j], or [d] when there is none. *)
Fixpoint lastOf (j : nat) (received : list (nat * ReceiptBlock))
    (d : option ReceiptBlock) : option ReceiptBlock :=
  match received with
  | [] => d
  | (i, block) :: received =>
      lastOf j received (if decide (i = j) then Some block else d)
  end.

(** The latest of a time and the times of the blocks received. *)
Fixpoint latestTime (t : Z) (received : list (nat * ReceiptBlock)) : Z :=
  match received with
  | [] => t
  | (_, block) :: received =>
      latestTime (Z.max t (Time (rHeader block))) received
  end.

End AggregatorSpec.

(** ** Start-up: dialling the nodes *)

Module Supervisor.
Import Backoff Aggregator.

(** [util.Config], with the fields [getNodeClients] reads. *)
Record Config := mkConfig {
  PrimeURL : string;
  RegionURLs : list string;
  ZoneURLs : list (list string)
}.

(** The nil [*ethclient.Client]: the zero value a slot holds until a
    handle is stored in it. *)
Definition nilClient : Client := 0%N.

(** The call sites of [ethclient.Dial] in one run of [getNodeClients]:
    each is reached at most once. *)
Inductive Slot := SPrime | SRegion (i : nat) | SZone (i j : nat).

(** What [ethclient.Dial] answers at a call site for a URL: the handle,
    or [None] for an error. *)
Definition Dialer := Slot → string → option Client.

(** [rows[i][j] = x]: the row is read first, then written in place. *)
Definition store2 {A} (rows : list (list A)) (i j : nat) (x : A)
  : option (list (list A)) :=
  row ← rows !! i;
  row ← store row j x;
  Some (<[i:=row]> rows).

(** The loop over [config.RegionURLs]. *)
Fixpoint dialRegions (dial : Dialer) (urls : list string) (i : nat)
    (allClients : orderedBlockClients) : option orderedBlockClients :=
  match urls with
  | [] => Some allClients
  | regionURL :: urls =>
      allClients ←
        (if decide (regionURL = "") then Some allClients else
         match dial (SRegion i) regionURL with
         | None =>
             available ← store (regionsAvailable allClients) i false;
             Some (mkClients (primeClient allClients)
                     (primeAvailable allClients) (regionClients allClients)
                     available (zoneClients allClients)
                     (zonesAvailable allClients))
         | Some regionClient =>
             available ← store (regionsAvailable allClients) i true;
             handles ← store (regionClients allClients) i regionClient;
             Some (mkClients (primeClient allClients)
                     (primeAvailable allClients) handles available
                     (zoneClients allClients) (zonesAvailable allClients))
         end);
      dialRegions dial urls (S i) allClients
  end.

(** The inner loop over one row of [config.ZoneURLs]. *)
Fixpoint dialZoneRow (dial : Dialer) (urls : list string) (i j : nat)
    (allClients : orderedBlockClients) : option orderedBlockClients :=
  match urls with
  | [] => Some allClients
  | zoneURL :: urls =>
      allClients ←
        (if decide (zoneURL = "") then Some allClients else
         match dial (SZone i j) zoneURL with
         | None =>
             available ← store2 (zonesAvailable allClients) i j false;
             Some (mkClients (primeClient allClients)
                     (primeAvailable allClients) (regionClients allClients)
                     (regionsAvailable allClients) (zoneClients allClients)
                     available)
         | Some zoneClient =>
             available ← store2 (zonesAvailable allClients) i j true;
             handles ← store2 (zoneClients allClients) i j zoneClient;
             Some (mkClients (primeClient allClients)
                     (primeAvailable allClients) (regionClients allClients)
                     (regionsAvailable allClients) handles available)
         end);
      dialZoneRow dial urls i (S j) allClients
  end.

(** The outer loop over [config.ZoneURLs]. *)
Fixpoint dialZones (dial : Dialer) (rows : list (list string)) (i : nat)
    (allClients : orderedBlockClients) : option orderedBlockClients :=
  match rows with
  | [] => Some allClients
  | zonesURLs :: rows =>
      allClients ← dialZoneRow dial zonesURLs i 0 allClients;
      dialZones dial rows (S i) allClients
  end.

(** [getNodeClients]; [None] is an index out of range. *)
Definition getNodeClients (dial : Dialer) (config : Config)
  : option orderedBlockClients :=
  let allClients :=
    mkClients nilClient false (replicate 3 nilClient) (replicate 3 false)
      (replicate 3 (replicate 3 nilClient))
      (replicate 3 (replicate 3 false)) in
  let allClients :=
    if decide (PrimeURL config = "") then allClients else
    match dial SPrime (PrimeURL config) with
    | None => allClients
    | Some primeClient =>
        mkClients primeClient true (regionClients allClients)
          (regionsAvailable allClients) (zoneClients allClients)
          (zonesAvailable allClients)
    end in
  allClients ← dialRegions dial (RegionURLs config) 0 allClients;
  dialZones dial (ZoneURLs config) 0 allClients.

(** The test the connection loop of [main] makes on a registry. *)
Definition connected (allClients : orderedBlockClients) : bool :=
  let connectStatus := true in
  let connectStatus :=
    if negb (primeAvailable allClients) then false else connectStatus in
  let connectStatus :=
    foldl (λ connectStatus (status : bool),
             if negb status then false else connectStatus)
      connectStatus (regionsAvailable allClients) in
  foldl (λ connectStatus zonesArray,
           foldl (λ connectStatus (status : bool),
                    if negb status then false else connectStatus)
             connectStatus zonesArray)
    connectStatus (zonesAvailable allClients).

(** One run of [getNodeClients] as the environment shapes it: what the
    dials answer and how long the run lasts (nanoseconds). *)
Record Round := mkRound { dialer : Dialer; lasted : Z }.

(** The connection loop of [main], entered with the registry of the
    dial that precedes it; each iteration ends with a new run of
    [getNodeClients], which consumes one round. *)
Fixpoint connectLoop (conv : Conversion) (config : Config)
    (allClients : orderedBlockClients) (attempts lastUpdatedAt now : Z)
    (rounds : list Round) (acc : list Event)
  : Outcome (list Event * orderedBlockClients) :=
  match rounds with
  | [] => Waiting
  | round :: rounds =>
      let attempts :=
        if twelveHours <=? now - lastUpdatedAt then 0 else attempts in
      let connectStatus := connected allClients in
      let lastUpdatedAt := now in
      let attempts := attempts + 1 in
      let delay := delaySecs conv attempts in
      let now := now + Z.max 0 (sleepDuration delay) in
      let acc := acc ++ [EvSleep delay] in
      match getNodeClients (dialer round) config with
      | None => Panicked
      | Some allClients =>
          let now := now + lasted round in
          if connectStatus then Returned (acc, allClients)
          else connectLoop conv config allClients attempts lastUpdatedAt now
                 rounds acc
      end
  end.

(** [main] up to the end of its connection loop: the waits it makes and
    the registry it goes on with. *)
Definition connect (conv : Conversion) (config : Config) (now : Z)
    (rounds : list Round) : Outcome (list Event * orderedBlockClients) :=
  match rounds with
  | [] => Waiting
  | round :: rounds =>
      match getNodeClients (dialer round) config with
      | None => Panicked
      | Some allClients =>
          connectLoop conv config allClients 0 now (now + lasted round)
            rounds []
      end
  end.

(** What happened at a call site: not dialled ([None]), dialled in vain
    ([Some None]) or dialled with success. *)
Definition attempt (dial : Dialer) (slot : Slot) (url : option string)
  : option (option Client) :=
  url ← url; if decide (url = "") then None else Some (dial slot url).

Definition flagAfter (a : option (option Client)) (old : bool) : bool :=
  match a with
  | Some (Some _) => true
  | Some None => false
  | None => old
  end.

Definition handleAfter (a : option (option Client)) (old : Client) : Client :=
  match a with
  | Some (Some client) => client
  | _ => old
  end.

(** What the slot [i] of the region loop has seen when the loop is at
    [i0] with [urls] to go. *)
Definition regionAt (dial : Dialer) (urls : list string) (i0 i : nat)
  : option (option Client) :=
  if decide (i0 ≤ i)%nat then attempt dial (SRegion i) (urls !! (i - i0)%nat)
  else None.

(** The element [j] of the row [i] of a slice of slices. *)
Definition get2 {A} (rows : list (list A)) (i j : nat) : option A :=
  row ← rows !! i; row !! j.

(** Three rows of three. *)
Definition grid {A} (rows : list (list A)) : Prop :=
  length rows = 3%nat ∧ Forall (λ row, length row = 3%nat) rows.

(** What the slot [(i', j)] has seen when the inner zone loop is at
    [(i, j0)] with [urls] to go, and when the outer zone loop is at
    [i0] with [rows] to go. *)
Definition zoneRowAt (dial : Dialer) (urls : list string) (i j0 i' j : nat)
  : option (option Client) :=
  if decide (i' = i ∧ j0 ≤ j)%nat
  then attempt dial (SZone i j) (urls !! (j - j0)%nat)
  else None.

Definition zoneAt (dial : Dialer) (rows : list (list string)) (i0 i j : nat)
  : option (option Client) :=
  if decide (i0 ≤ i)%nat
  then attempt dial (SZone i j) (row ← rows !! (i - i0)%nat; row !! j)
  else None.

(** Every URL that is set names a node of the three-by-three layout. *)
Definition fits (config : Config) : Prop :=
  (∀ i url, RegionURLs config !! i = Some url → url ≠ "" → (i < 3)%nat) ∧
  (∀ i j row url, ZoneURLs config !! i = Some row → row !! j = Some url →
                  url ≠ "" → (i < 3)%nat ∧ (j < 3)%nat).

(** A configuration naming all thirteen nodes, a dialler that reaches
    every one of them and one that fails to reach ZONE(2,3). *)
Definition everyURL : Config :=
  mkConfig "ws://prime" ["ws://r1"; "ws://r2"; "ws://r3"]
    [["ws://z11"; "ws://z12"; "ws://z13"];
     ["ws://z21"; "ws://z22"; "ws://z23"];
     ["ws://z31"; "ws://z32"; "ws://z33"]].

Definition allUp : Dialer := λ slot _,
  Some (match slot with
        | SPrime => 100
        | SRegion i => 110 + 10 * N.of_nat i
        | SZone i j => 111 + 10 * N.of_nat i + N.of_nat j
        end)%N.

Definition zoneLost : Dialer := λ slot url,
  match slot with
  | SZone 1 2 => None
  | _ => allUp slot url
  end.

End Supervisor.

(** ** The subscriptions and the relocation of the mining slice *)

Module Subscriptions.
Import Responder Dispatcher Locator.

(** A goroutine started with [go], by the function it runs and its
    arguments. *)
Inductive Goroutine :=
| SubscribeNewHeadClient (client : Client) (difficultyContext : Z)
| SubscribeMissingExternalBlockClient (client : Client) (chain : list Z)
| SubscribePendingHeader (client : Client) (sliceIndex : Z)
| FetchPendingBlocks (client : Client) (sliceIndex : Z).

(** The loop of [subscribeNewHead] over the region clients, at index
    [i]: the region's subscription, then those of the zones listed in
    row [i]. *)
Fixpoint newHeadRegions (cs : orderedBlockClients) (i : nat)
    (regions : list Client) : option (list Goroutine) :=
  match regions with
  | [] => Some []
  | blockClient :: regions =>
      row ← zoneClients cs !! i;
      rest ← newHeadRegions cs (S i) regions;
      Some (SubscribeNewHeadClient blockClient 1 ::
            map (λ zoneBlockClient, SubscribeNewHeadClient zoneBlockClient 2)
              row ++ rest)
  end.

(** [subscribeNewHead]: the goroutines it starts, in order; [None] is
    an index out of range. *)
Definition subscribeNewHead (m : Manager) : option (list Goroutine) :=
  let cs := clients m in
  rest ← newHeadRegions cs 0 (regionClients cs);
  Some (SubscribeNewHeadClient (primeClient cs) 0 :: rest).

(** [uint8(i + 1)]. *)
Definition uint8_succ (i : nat) : Z := (Z.of_nat i + 1) mod 256.

(** [subscribeMissingExternalBlock]: the goroutines it starts, in
    order. *)
Definition subscribeMissingExternalBlock (m : Manager) : list Goroutine :=
  let cs := clients m in
  SubscribeMissingExternalBlockClient (primeClient cs) [0; 0] ::
  imap (λ i regionClient,
          SubscribeMissingExternalBlockClient regionClient [uint8_succ i; 0])
    (regionClients cs) ++
  concat
    (imap (λ i zoneClients,
             imap (λ j zoneClient,
                     SubscribeMissingExternalBlockClient zoneClient
                       [uint8_succ i; uint8_succ j]) zoneClients)
       (zoneClients cs)).

(** The three [if]s shared by [subscribeAllPendingBlocks] and
    [fetchAllPendingBlocks]: for each tier of the mining slice, when
    the node is flagged available it is pinged, and when it answers the
    goroutine is started. *)
Definition bundle (start : Client → Z → Goroutine) (m : Manager)
    (net : Network) : Eff (list Goroutine) :=
  let cs := clients m in
  prime ←
    (if primeAvailable cs then
       ok ← checkConnection net (primeClient cs);
       mret (if (ok : bool) then [start (primeClient cs) 0] else [])
     else mret []);
  region ←
    (l0 ← index (location m) 0;
     available ← index (regionsAvailable cs) (byte_pred l0);
     if (available : bool) then
       l0 ← index (location m) 0;
       client ← index (regionClients cs) (byte_pred l0);
       ok ← checkConnection net client;
       if (ok : bool) then
         l0 ← index (location m) 0;
         client ← index (regionClients cs) (byte_pred l0);
         mret [start client 1]
       else mret []
     else mret []);
  zone ←
    (l0 ← index (location m) 0;
     row ← index (zonesAvailable cs) (byte_pred l0);
     l1 ← index (location m) 1;
     available ← index row (byte_pred l1);
     if (available : bool) then
       l0 ← index (location m) 0;
       row ← index (zoneClients cs) (byte_pred l0);
       l1 ← index (location m) 1;
       client ← index row (byte_pred l1);
       ok ← checkConnection net client;
       if (ok : bool) then
         l0 ← index (location m) 0;
         row ← index (zoneClients cs) (byte_pred l0);
         l1 ← index (location m) 1;
         client ← index row (byte_pred l1);
         mret [start client 2]
       else mret []
     else mret []);
  mret (prime ++ region ++ zone).

Definition subscribeAllPendingBlocks : Manager → Network → Eff (list Goroutine) :=
  bundle SubscribePendingHeader.

Definition fetchAllPendingBlocks : Manager → Network → Eff (list Goroutine) :=
  bundle FetchPendingBlocks.

(** One tick of [checkBestLocation], from the point where the two
    rendezvous on [doneCh] are taken (the goroutines that receive them
    do nothing on receiving): the coordinator afterwards and the
    goroutines started. [bytes.Equal] compares the two locations byte
    by byte. *)
Definition checkBestLocation (m : Manager) (net : Network)
  : Eff (Manager * list Goroutine) :=
  newLocation ← findBestLocation (clients m) net;
  if decide (newLocation = location m) then mret (m, []) else
  let m :=
    mkManager (clients m) (combinedHeader m) (pendingBlocks m) newLocation in
  subscriptions ← subscribeAllPendingBlocks m net;
  fetches ← fetchAllPendingBlocks m net;
  mret (m, subscriptions ++ fetches).

(** The goroutine a bundle starts for tier [ctx] at location [(r, z)]:
    the one for the node of that tier, when it is flagged available and
    answers. *)
Definition startedAt (start : Client → Z → Goroutine)
    (cs : orderedBlockClients) (net : Network) (r z ctx : Z)
  : list Goroutine :=
  match nodeAt cs ctx r z with
  | Some client =>
      if DispatcherSpec.availableAt cs ctx r z &&
         DispatcherSpec.answers net client
      then [start client ctx] else []
  | None => []
  end.

Definition started (start : Client → Z → Goroutine) (cs : orderedBlockClients)
    (net : Network) (r z : Z) : list Goroutine :=
  concat (map (startedAt start cs net r z) [0; 1; 2]).

(** The node does not answer [HeaderByNumber]. *)
Definition down (net : Network) (client : Client) : Prop :=
  headerByNumber net client = None.

(** A network in which no node answers, and one in which the regions
    answer as in [ordinary] and the zones do not. *)
Definition silent : Network :=
  mkNetwork (λ _ _, None) (λ _ _, (None, true)) (λ _ _ _, None) (λ _, None).

Definition zonesSilent : Network :=
  mkNetwork (λ _ _, None) (λ _ _, (None, true)) (λ _ _ _, None)
    (λ c, if (c mod 10 =? 0)%N then headerByNumber Sample.ordinary c else None).

End Subscriptions.

(** ** New heads: passing blocks on to the other chains *)

Module Propagator.
Import Responder Dispatcher.

(** [receiptBlock.Receipts()] is an argument of every
    [SendExternalBlock] call of [SendClientsExtBlock]: with a nil
    [receiptBlock] the first of those calls panics instead of being
    issued. *)
Definition withReceipts (receiptBlock : option ReceiptBlock)
    (send : ReceiptBlock → Eff ()) : Eff () :=
  match receiptBlock with
  | Some receiptBlock => send receiptBlock
  | None =>
      let sent := send (mkReceiptBlock initialHeader [] [] []) in
      if events sent is [] then sent else panic
  end.

(** [types.NewBlockWithHeader(eb.Header()).WithBody(eb.Transactions(),
    eb.Uncles())], sealed with its own header. *)
Definition rebuilt (eb : ExternalBlock) : Block :=
  let block := NewBlockWithBody (eHeader eb) (eTransactions eb) (eUncles eb) in
  WithSeal block (bHeader block).

Section Handler.

(** [header.Hash()], left to the hashing of [core/types]. *)
Variable hashOf : Header → Hash.

(** The body of the loop of [subscribeNewHeadClient] for one head
    received on the subscription of [client], at tier
    [difficultyContext]: [newHead] is the hash of the head and [err]
    tells whether [BlockByHash] returns an error. A [continue] and a
    [break] both end the iteration. *)
Definition subscribeNewHeadClient (m : Manager) (net : Network)
    (client : Client) (difficultyContext : Z) (newHead : Hash) (err : bool)
  : Eff () :=
  let cs := clients m in
  emit (EvBlockByHash client newHead);;
  if err then mret () else
  emit (EvGetBlockReceipts client newHead);;
  let '(receiptBlock, receiptErr) := getBlockReceipts net client newHead in
  if receiptErr then mret () else
  match blockByHash net client newHead with
  | None => panic
  | Some block =>
      if Location (bHeader block) is [] then mret () else
      if difficultyContext =? 0 then
        emit (EvGetExternalBlock (primeClient cs) (hashOf (bHeader block)) 1);;
        match getExternalBlock net (primeClient cs) (hashOf (bHeader block)) 1
        with
        | None => mret ()
        | Some regionExternalBlock =>
            let sealed := rebuilt regionExternalBlock in
            l0 ← index (Location (bHeader sealed)) 0;
            regionClient ← index (regionClients cs) (l0 - 1);
            emit (EvSendMinedBlock regionClient sealed);;
            emit (EvGetExternalBlock (primeClient cs)
                    (hashOf (bHeader block)) 2);;
            match getExternalBlock net (primeClient cs)
                    (hashOf (bHeader block)) 2
            with
            | None => mret ()
            | Some zoneExternalBlock =>
                let sealed := rebuilt zoneExternalBlock in
                l0 ← index (Location (bHeader sealed)) 0;
                row ← index (zoneClients cs) (l0 - 1);
                l1 ← index (Location (bHeader sealed)) 1;
                zoneClient ← index row (l1 - 1);
                emit (EvSendMinedBlock zoneClient sealed);;
                withReceipts receiptBlock
                  (SendClientsExtBlock m difficultyContext [1; 2] block)
            end
        end
      else if difficultyContext =? 1 then
        l0 ← index (Location (bHeader block)) 0;
        regionClient ← index (regionClients cs) (l0 - 1);
        emit (EvGetExternalBlock regionClient (hashOf (bHeader block)) 2);;
        match getExternalBlock net regionClient (hashOf (bHeader block)) 2
        with
        | None => mret ()
        | Some zoneExternalBlock =>
            let sealed := rebuilt zoneExternalBlock in
            l0 ← index (Location (bHeader sealed)) 0;
            row ← index (zoneClients cs) (l0 - 1);
            l1 ← index (Location (bHeader sealed)) 1;
            zoneClient ← index row (l1 - 1);
            emit (EvSendMinedBlock zoneClient sealed);;
            withReceipts receiptBlock
              (SendClientsExtBlock m difficultyContext [0; 2] block)
        end
      else if difficultyContext =? 2 then
        withReceipts receiptBlock
          (SendClientsExtBlock m difficultyContext [0; 1] block)
      else mret ()
  end.

(** The lower-tier external blocks a head of tier [difficultyContext]
    needs before it is passed on: for PRIME the region's and the zone's,
    asked of PRIME; for a region the zone's, asked of that region. *)
Definition lowerFound (m : Manager) (net : Network) (difficultyContext : Z)
    (block : Block) : Prop :=
  let hash := hashOf (bHeader block) in
  (difficultyContext = 0 →
     is_Some (getExternalBlock net (primeClient (clients m)) hash 1) ∧
     is_Some (getExternalBlock net (primeClient (clients m)) hash 2)) ∧
  (difficultyContext = 1 →
     ∃ l0 regionClient,
       Location (bHeader block) !! 0%nat = Some l0 ∧
       regionClients (clients m) !! Z.to_nat (l0 - 1) = Some regionClient ∧
       is_Some (getExternalBlock net regionClient hash 2)).

End Handler.

(** A hashing that sends every header to 7, the external blocks of a
    head located at (2,1) and (3,2), and a network in which every node
    has the block [heldBlock], its receipts and those external
    blocks. *)
Definition sampleHash : Header → Hash := λ _, 7%N.

Definition externalAt (loc : list Z) : ExternalBlock :=
  mkExternalBlock
    (Sample.headerWith [Sample.big 11 5; Sample.big 12 7; Sample.big 13 9]
       90 loc emptyNonce) [4]%N [5]%N [6]%N.

Definition relaying : Network :=
  mkNetwork (λ _ _, Some Sample.heldBlock)
    (λ _ _, (Some Sample.nextHeight, false))
    (λ _ _ ctx, Some (externalAt (if ctx =? 1 then [2; 1] else [3; 2])))
    (λ _, Some Sample.fullHeader).

End Propagator.

(** ** Start-up: the mode and the mining location *)

Module Startup.
Import Locator.

(** The fields of [util.Config] that the choice of the mode reads. *)
Record Settings := mkSettings {
  Location_ : list Z; Mine : bool; Auto : bool; Optimize : bool }.

(** How the choice ends: in [log.Fatal], or with a location, the
    [Mine] flag and [changeLocationCycle]. *)
Inductive Mode :=
| Fatal
| Chosen (location : list Z) (mine changeLocationCycle : bool).

Section Mode.

(** The [int] that [strconv.Atoi] returns, the error being dropped. *)
Variable atoi : string → Z.

(** The part of [main] that sets the mining location, from the command
    line [args] ([os.Args]) and the configuration. *)
Definition selectMode (args : list string) (config : Settings)
    (allClients : orderedBlockClients) (net : Network) : Eff Mode :=
  if decide (3 < length args)%nat then
    let location := take 2 (drop 1 args) in
    match drop 3 args with
    | [] => panic
    | third :: _ =>
        let mine := atoi third in
        match location with
        | [] => mret Fatal
        | [_] => mret Fatal
        | [region; zone] =>
            let regionLoc := atoi region in
            let zoneLoc := atoi zone in
            mret (Chosen [regionLoc mod 256; zoneLoc mod 256] (mine =? 1) false)
        | _ => mret Fatal
        end
    end
  else if Auto config && Mine config then
    location ← findBestLocation allClients net;
    mret (Chosen location true (Optimize config))
  else if negb (length (Location_ config) =? 2)%nat then mret Fatal
  else mret (Chosen (Location_ config) (Mine config) false).

End Mode.

(** [checkNonceEmpty]; a nil header panics. *)
Fixpoint nonceLoop (chain : list (option Header)) : option bool :=
  match chain with
  | [] => Some true
  | None :: _ => None
  | Some header :: chain =>
      if (Nonce header =? emptyNonce)%N then Some false else nonceLoop chain
  end.

Definition checkNonceEmpty (commonHead : option Header)
    (oldChain newChain : list (option Header)) : option bool :=
  commonHead ← commonHead;
  if (Nonce commonHead =? emptyNonce)%N then Some false else
  ok ← nonceLoop oldChain;
  if negb ok then Some false else
  ok ← nonceLoop newChain;
  if negb ok then Some false else Some true.

(** The header carries a nonce. *)
Definition sealedHeader (header : Header) : bool :=
  negb (Nonce header =? emptyNonce)%N.

End Startup.

(** ** Pending headers: the sync check and the subscription *)

Module PendingHeader.

(** One answer of [SyncProgress]: whether the progress returned is
    non-nil, and whether the error is. *)
Record Sync := mkSync { syncing : bool; syncFailed : bool }.

(** What the [select] of the subscription loop receives. *)
Inductive Notice := HeaderArrived | DoneReceived (stop : bool).

(** Where [subscribePendingHeader] stands once the environment has
    nothing more to say: still polling [SyncProgress], returned without
    subscribing, ended in [log.Fatal], or in its subscription loop. *)
Inductive Ending := Polling | Returns | Exits | Serving.

Record Run := mkRun {
  polls : nat;
  fetched : list (Client * Z);
  ending : Ending
}.

(** [for checkSync != nil && err == nil { checkSync, err = ... }]. *)
Fixpoint syncLoop (checkSync err : bool) (polls : nat) (script : list Sync)
  : option (bool * bool * nat) :=
  if checkSync && negb err then
    match script with
    | [] => None
    | a :: script => syncLoop (syncing a) (syncFailed a) (S polls) script
    end
  else Some (checkSync, err, polls).

(** The subscription loop: a header notification calls
    [fetchPendingBlocks]; on a [doneCh] message the [break] leaves the
    [select], and the loop goes round again. *)
Fixpoint serve (client : Client) (sliceIndex : Z) (notices : list Notice)
  : list (Client * Z) :=
  match notices with
  | [] => []
  | HeaderArrived :: notices =>
      (client, sliceIndex) :: serve client sliceIndex notices
  | DoneReceived _ :: notices => serve client sliceIndex notices
  end.

(** [subscribePendingHeader]: the answers of [SyncProgress] come from
    [script], [subscribeFailed] tells whether [SubscribePendingBlock]
    returns an error, and [notices] is what the loop then receives. *)
Definition subscribePendingHeader (client : Client) (sliceIndex : Z)
    (script : list Sync) (subscribeFailed : bool) (notices : list Notice)
  : Run :=
  match script with
  | [] => mkRun 0 [] Polling
  | first :: script =>
      match syncLoop (syncing first) (syncFailed first) 1 script with
      | None => mkRun (S (length script)) [] Polling
      | Some (checkSync, err, polls) =>
          if negb checkSync && negb err then
            if subscribeFailed then mkRun polls [] Exits
            else mkRun polls (serve client sliceIndex notices) Serving
          else mkRun polls [] Returns
      end
  end.

Definition isHeader (n : Notice) : bool :=
  match n with HeaderArrived => true | _ => false end.

(** The node is still syncing and reports no error. *)
Definition busy (a : Sync) : bool := syncing a && negb (syncFailed a).

End PendingHeader.

(** ** The dispatcher from one iteration to the next, and what an
       iteration costs and sends *)

Module DispatcherLoop.
Import Responder Dispatcher DispatcherSpec.

(** An iteration of [resultLoop] entered with the mutex in state [h]:
    [initial] is the iteration entered with the mutex free. *)
Definition entered (h : bool) (m : Manager) (net : Network)
    (bundle : HeaderBundle) : Config :=
  mkConfig (resultLoop m net bundle) [] 0 h false [] m.

(** The configurations of the [for] loop of [resultLoop]. The first
    iteration finds the mutex free. An iteration that has run to its
    end is followed by the next one, for whatever bundle arrives on
    [resultCh] and whatever the shared state and the network then are;
    the mutex is a field of the coordinator and so is found as the
    iteration before left it. *)
Inductive iterated : Config → Prop :=
| iterated_first m net bundle : iterated (entered false m net bundle)
| iterated_step c c' : iterated c → step c c' → iterated c'
| iterated_next c m net bundle :
    iterated c → finished c → iterated (entered (held c) m net bundle).

(** The configuration is the start of an iteration that follows one
    which ran to its end, having been entered with the mutex free,
    after a failed reachability check. *)
Definition afterOffline (c : Config) : Prop :=
  ∃ m0 net0 bundle0 c0 m net bundle,
    reachable m0 net0 bundle0 c0 ∧ finished c0 ∧
    forallb (answers net0) (everyClient (clients m0)) = false ∧
    c = entered (held c0) m net bundle.

(** A panic is on its way: the coordinator has one ahead, or a
    goroutine, started or yet to be started, ends in one. *)
Definition doomed (c : Config) : Prop :=
  IPanic ∈ main c ∨
  ∃ body, (IGo body ∈ main c ∨ body ∈ threads c) ∧ result body = None.

(** The region and zone nodes of the registry. *)
Definition nodes (cs : orderedBlockClients) : nat :=
  length (regionClients cs) + length (concat (zoneClients cs)).

(** The [externalContexts] the external-block goroutine of a tier is
    started with. *)
Definition contextsOf (mined : nat) : list Z :=
  match mined with
  | 0%nat => [1; 2]
  | 1%nat => [0; 2]
  | _ => [0; 1]
  end.

(** The tiers dispatched for a solution of context [k]: the tier itself
    and those below it. *)
Definition tiersFrom (k : nat) : list nat := seq k (3 - k).

(** The external-block sends of an iteration that dispatches a solution
    of context [k] mined at [(r, z)]. *)
Definition externalSends (cs : orderedBlockClients) (r z : Z) (k : nat)
  : nat :=
  sum_list ((λ t, length (fanOut cs r z (contextsOf t))) <$> tiersFrom k).

End DispatcherLoop.

(** * Properties *)

(** ** The aggregator's update of one tier *)

Module AggregatorFacts.
Import Backoff Aggregator Sample.

Lemma copy_slot_spec {A} (dst src : list A) (i : nat) :
  length dst = 3%nat → length src = 3%nat → (i < 3)%nat →
  ∃ l, copy_slot dst src i = Some l ∧ l !! i = src !! i ∧
       length l = 3%nat ∧ ∀ j, j ≠ i → l !! j = dst !! j.
Proof.
  intros Hd Hs Hi. unfold copy_slot.
  destruct (lookup_lt_is_Some_2 src i) as [x Hx]; [lia|].
  rewrite Hx. simpl. rewrite decide_True by lia.
  eexists. split; [reflexivity|]. repeat split.
  - rewrite list_lookup_insert_eq by lia. done.
  - by rewrite length_insert.
  - intros j Hj. by rewrite list_lookup_insert_ne.
Qed.

(** What one update does, field by field. *)
Lemma updateCombinedHeader_fields (m : Manager) (header : Header) (i : nat) :
  (i < 3)%nat → tiered (combinedHeader m) → tiered header →
  ∃ c, updateCombinedHeader m header i =
         Some (mkManager (clients m) c (pendingBlocks m) (location m)) ∧
    tiered c ∧
    ParentHash c !! i = ParentHash header !! i ∧
    UncleHash c !! i = UncleHash header !! i ∧
    Number c !! i = Number header !! i ∧
    Extra c !! i = Extra header !! i ∧
    BaseFee c !! i = BaseFee header !! i ∧
    GasLimit c !! i = GasLimit header !! i ∧
    GasUsed c !! i = GasUsed header !! i ∧
    TxHash c !! i = TxHash header !! i ∧
    ReceiptHash c !! i = ReceiptHash header !! i ∧
    Root c !! i = Root header !! i ∧
    Difficulty c !! i = Difficulty header !! i ∧
    NetworkDifficulty c !! i = NetworkDifficulty header !! i ∧
    Coinbase c !! i = Coinbase header !! i ∧
    Bloom_ c !! i = Bloom_ header !! i ∧
    Time c = Z.max (Time (combinedHeader m)) (Time header) ∧
    Location c = location m ∧
    Nonce c = Nonce (combinedHeader m) ∧
    ∀ j, j ≠ i → Number c !! j = Number (combinedHeader m) !! j.
Proof.
  intros Hi Hc Hh.
  destruct Hc as (c1 & c2 & c3 & c4 & c5 & c6 & c7 & c8 & c9 & c10 & c11 & c12 & c13 & c14).
  destruct Hh as (h1 & h2 & h3 & h4 & h5 & h6 & h7 & h8 & h9 & h10 & h11 & h12 & h13 & h14).
  destruct (copy_slot_spec _ _ i c1 h1 Hi) as (l1 & E1 & L1 & N1 & _).
  destruct (copy_slot_spec _ _ i c2 h2 Hi) as (l2 & E2 & L2 & N2 & _).
  destruct (copy_slot_spec _ _ i c3 h3 Hi) as (l3 & E3 & L3 & N3 & O3).
  destruct (copy_slot_spec _ _ i c4 h4 Hi) as (l4 & E4 & L4 & N4 & _).
  destruct (copy_slot_spec _ _ i c5 h5 Hi) as (l5 & E5 & L5 & N5 & _).
  destruct (copy_slot_spec _ _ i c6 h6 Hi) as (l6 & E6 & L6 & N6 & _).
  destruct (copy_slot_spec _ _ i c7 h7 Hi) as (l7 & E7 & L7 & N7 & _).
  destruct (copy_slot_spec _ _ i c8 h8 Hi) as (l8 & E8 & L8 & N8 & _).
  destruct (copy_slot_spec _ _ i c9 h9 Hi) as (l9 & E9 & L9 & N9 & _).
  destruct (copy_slot_spec _ _ i c10 h10 Hi) as (l10 & E10 & L10 & N10 & _).
  destruct (copy_slot_spec _ _ i c11 h11 Hi) as (l11 & E11 & L11 & N11 & _).
  destruct (copy_slot_spec _ _ i c12 h12 Hi) as (l12 & E12 & L12 & N12 & _).
  destruct (copy_slot_spec _ _ i c13 h13 Hi) as (l13 & E13 & L13 & N13 & _).
  destruct (copy_slot_spec _ _ i c14 h14 Hi) as (l14 & E14 & L14 & N14 & _).
  unfold updateCombinedHeader.
  rewrite E1, E2, E3, E4, E5, E6, E7, E8, E9, E10, E11, E12, E13, E14.
  simpl. eexists. split; [reflexivity|]. simpl.
  split; [by repeat split|].
  repeat (split; [assumption|]).
  split; [|by repeat split].
  destruct (Z.leb_spec (Time header) (Time (combinedHeader m))); lia.
Qed.

(** C1. For every tier [i] of 0, 1, 2 and every incoming header, the
    update of tier [i] succeeds and leaves in slot [i] of the combined
    header the incoming header's block number and each of its other
    per-tier fields; the combined time becomes the larger of the old
    combined time and the incoming time, hence is below neither; and the
    combined location is the coordinator's current location. *)
Theorem updateCombinedHeader_slot (m : Manager) (header : Header) (i : nat) :
  (i < 3)%nat → tiered (combinedHeader m) → tiered header →
  ∃ m', updateCombinedHeader m header i = Some m' ∧
    let c := combinedHeader m' in
    Number c !! i = Number header !! i ∧
    ParentHash c !! i = ParentHash header !! i ∧
    UncleHash c !! i = UncleHash header !! i ∧
    Extra c !! i = Extra header !! i ∧
    BaseFee c !! i = BaseFee header !! i ∧
    GasLimit c !! i = GasLimit header !! i ∧
    GasUsed c !! i = GasUsed header !! i ∧
    TxHash c !! i = TxHash header !! i ∧
    ReceiptHash c !! i = ReceiptHash header !! i ∧
    Root c !! i = Root header !! i ∧
    Difficulty c !! i = Difficulty header !! i ∧
    NetworkDifficulty c !! i = NetworkDifficulty header !! i ∧
    Coinbase c !! i = Coinbase header !! i ∧
    Bloom_ c !! i = Bloom_ header !! i ∧
    Time c = Z.max (Time (combinedHeader m)) (Time header) ∧
    Time (combinedHeader m) <= Time c ∧ Time header <= Time c ∧
    Location c = location m'  ∧ location m' = location m.
Proof.
  intros Hi Hc Hh.
  destruct (updateCombinedHeader_fields m header i Hi Hc Hh)
    as (c & E & _ & F1 & F2 & F3 & F4 & F5 & F6 & F7 & F8 & F9 & F10 &
        F11 & F12 & F13 & F14 & T & L & _).
  eexists. split; [exact E|]. simpl.
  repeat (split; [assumption|]).
  rewrite T. repeat split; try lia. exact L.
Qed.

(** The header [main] starts from has its three slots per field and the
    empty nonce, and a delivery keeps the slots. *)
Lemma initialHeader_tiered : tiered initialHeader ∧ Nonce initialHeader = emptyNonce.
Proof. by repeat split. Qed.

Lemma loopGlobalBlock_tiered (m m' : Manager) (ch ch' i : nat)
    (block : ReceiptBlock) (header : Header) :
  (i < 3)%nat → tiered (combinedHeader m) → tiered (rHeader block) →
  loopGlobalBlock m ch i block = Some (m', header, ch') →
  tiered (combinedHeader m').
Proof.
  intros Hi Hc Hb. unfold loopGlobalBlock.
  destruct (updateCombinedHeader_fields m (rHeader block) i Hi Hc Hb)
    as (c & -> & Ht & _).
  simpl. intros H. apply bind_Some in H as (pending & _ & H).
  by simplify_eq/=.
Qed.

Lemma tiered_sample : tiered combined ∧ tiered (rHeader nextHeight).
Proof. by repeat split. Qed.

Lemma updateCombinedHeader_slot_witness :
  ∃ m', updateCombinedHeader manager (rHeader nextHeight) 0 = Some m' ∧
    Number (combinedHeader m') !! 0%nat = Some (big 31 6) ∧
    Time (combinedHeader m') = 99 ∧
    Location (combinedHeader m') = [1; 1].
Proof.
  destruct (updateCombinedHeader_slot manager (rHeader nextHeight) 0)
    as (m' & E & Hn & H); [lia | apply tiered_sample | apply tiered_sample |].
  exists m'. split; [exact E|].
  vm_compute in E. injection E as <-. by vm_compute.
Defined.

(** *** The nonce across a delivery *)

Lemma updateCombinedHeader_nonce (m m' : Manager) (header : Header) (i : nat) :
  updateCombinedHeader m header i = Some m' →
  Nonce (combinedHeader m') = Nonce (combinedHeader m).
Proof.
  unfold updateCombinedHeader. intros H.
  repeat match type of H with
         | (_ ≫= _) = Some _ =>
             apply bind_Some in H; destruct H as (? & _ & H)
         end.
  by simplify_eq/=.
Qed.

(** A delivery writes the empty nonce into the header it took from the
    delivered block and leaves the combined header's nonce as it was. *)
Lemma loopGlobalBlock_nonce (m m' : Manager) (ch ch' i : nat)
    (block : ReceiptBlock) (header : Header) :
  loopGlobalBlock m ch i block = Some (m', header, ch') →
  Nonce (combinedHeader m') = Nonce (combinedHeader m) ∧
  Nonce header = emptyNonce.
Proof.
  unfold loopGlobalBlock. intros H.
  apply bind_Some in H as (m1 & H1 & H).
  apply bind_Some in H as (pending & _ & H).
  apply updateCombinedHeader_nonce in H1.
  by simplify_eq/=.
Qed.

(** Deliveries alone never make the combined nonce anything but empty:
    nothing in the aggregator writes it. *)
Lemma loopGlobalBlock_nonce_stays_empty (m m' : Manager) (ch ch' i : nat)
    (block : ReceiptBlock) (header : Header) :
  Nonce (combinedHeader m) = emptyNonce →
  loopGlobalBlock m ch i block = Some (m', header, ch') →
  Nonce (combinedHeader m') = emptyNonce.
Proof. intros E H. apply loopGlobalBlock_nonce in H as [-> _]. exact E. Qed.





(** *** The stale-header test *)

(** The test compares cells: it holds exactly when the fetched block's
    number and the combined header's number are one and the same
    pointer. *)
Lemma staleHeader_pointer (m : Manager) (i : nat) (a : Answer)
    (receiptBlock : ReceiptBlock) (p q : BigPtr) :
  answered a = Some receiptBlock → failed a = false →
  Number (rHeader receiptBlock) !! i = Some p →
  Number (combinedHeader m) !! i = Some q →
  staleHeader m i a = Some (ptr_eqb p q).
Proof.
  intros Ha Hf Hp Hq. unfold staleHeader. rewrite Ha, Hp, Hq, Hf. simpl.
  by rewrite andb_true_r.
Qed.

(** A block whose number lives in a different cell is never taken for
    stale, whatever the number is: it is delivered after a single
    fetch. *)
Lemma fetchPendingBlocks_other_cell (conv : Conversion) (m : Manager)
    (client : Client) (i : nat) (now : Z) (a : Answer)
    (script : list Answer) (receiptBlock : ReceiptBlock) (x y : BigInt) :
  answered a = Some receiptBlock → failed a = false →
  Number (rHeader receiptBlock) !! i = Some (Some x) →
  Number (combinedHeader m) !! i = Some (Some y) →
  addr x ≠ addr y →
  fetchPendingBlocks conv m client i now (a :: script) =
    Returned ([EvLock; EvGetPendingBlock client; EvUnlock], receiptBlock).
Proof.
  intros Ha Hf Hp Hq Hne. unfold fetchPendingBlocks.
  rewrite (staleHeader_pointer m i a receiptBlock _ _ Ha Hf Hp Hq). simpl.
  destruct (N.eqb_spec (addr x) (addr y)); [done|].
  by rewrite Ha, Hf.
Qed.

(** When the two numbers are the same pointer, the block is refetched
    once, and a second answer that is a block without error is
    delivered whether or not it is stale again. *)
Lemma fetchPendingBlocks_same_cell (conv : Conversion) (m : Manager)
    (client : Client) (i : nat) (now : Z) (a b : Answer)
    (script : list Answer) (first second : ReceiptBlock) (p : BigPtr) :
  answered a = Some first → failed a = false →
  Number (rHeader first) !! i = Some p →
  Number (combinedHeader m) !! i = Some p →
  answered b = Some second → failed b = false →
  fetchPendingBlocks conv m client i now (a :: b :: script) =
    Returned ([EvLock; EvGetPendingBlock client; EvGetPendingBlock client;
               EvUnlock], second).
Proof.
  intros Ha Hf Hp Hq Hb Hg. unfold fetchPendingBlocks.
  rewrite (staleHeader_pointer m i a first _ _ Ha Hf Hp Hq).
  assert (ptr_eqb p p = true) as ->.
  { destruct p; simpl; [apply N.eqb_refl | done]. }
  by rewrite Hb, Hg.
Qed.

(** C4, evaluated where it fails: the combined header's PRIME slot is
    at block 5 and the node answers with a pending block whose PRIME
    number is 5 as well, in a cell of its own as every decoded answer
    has it. The block is delivered after one single [GetPendingBlock]:
    there is no refetch. *)
Theorem fetchPendingBlocks_equal_number_not_refetched :
  val <$> mjoin (Number (rHeader sameHeight) !! 0%nat) = Some 5 ∧
  val <$> mjoin (Number (combinedHeader manager) !! 0%nat) = Some 5 ∧
  ∃ t, fetchPendingBlocks amd64 manager 100%N 0 0
         [mkAnswer 5 (Some sameHeight) false;
          mkAnswer 5 (Some nextHeight) false] = Returned (t, sameHeight) ∧
       fetches t = 1%nat.
Proof. do 2 (split; [reflexivity|]). eexists. by vm_compute. Qed.

(** An answer that is absent or comes with an error enters the retry
    loop, which sleeps between attempts and ends at the first good
    answer. *)
Lemma fetchPendingBlocks_retries :
  ∃ t, fetchPendingBlocks amd64 manager 100%N 0 0
         [mkAnswer 5 None true; mkAnswer 5 None false;
          mkAnswer 5 (Some nextHeight) true;
          mkAnswer 5 (Some nextHeight) false] = Returned (t, nextHeight) ∧
       t = [EvLock; EvGetPendingBlock 100%N;
            EvGetPendingBlock 100%N; EvSleep 0;
            EvGetPendingBlock 100%N; EvSleep 1;
            EvGetPendingBlock 100%N; EvUnlock].
Proof. eexists. by vm_compute. Qed.

(** Once twelve hours have gone by since the last failure the counter
    restarts, so that the failure that follows waits the first delay,
    zero seconds. *)
Lemma retryLoop_reset (conv : Conversion) (client : Client)
    (attempts lastUpdatedAt now : Z) (a b : Answer)
    (receiptBlock : ReceiptBlock) (acc : list Event) :
  twelveHours <= now - lastUpdatedAt →
  answered a = None →
  answered b = Some receiptBlock → failed b = false →
  retryLoop conv client attempts lastUpdatedAt now [a; b] acc =
    Returned (acc ++ [EvGetPendingBlock client] ++ [EvSleep 0] ++
              [EvGetPendingBlock client], receiptBlock).
Proof.
  intros Hgap Ha Hb Hf. simpl.
  destruct (Z.leb_spec twelveHours (now - lastUpdatedAt)); [|lia].
  rewrite Ha. simpl.
  change (delaySecs conv 1) with 0.
  change (sleepDuration 0) with 0.
  destruct (Z.leb_spec twelveHours (now + took a + 0 `max` 0 - (now + took a)));
    rewrite Hb, Hf; by rewrite <- !app_assoc.
Qed.

End AggregatorFacts.

(** ** The retry delay *)

Module BackoffFacts.
Import Backoff.

Lemma delaySecs_table (conv : Conversion) :
  forallb (λ n, delaySecs conv n =? spec_delay n)
    (map Z.of_nat (seq 1 63)) = true.
Proof. vm_compute. reflexivity. Qed.

(** For attempt counts 1 to 63 the code computes the specified delay,
    on every platform: the float it converts fits in [int64]. *)
Lemma delaySecs_in_range (conv : Conversion) (n : Z) :
  1 <= n <= 63 → delaySecs conv n = spec_delay n.
Proof.
  intros Hn. pose proof (delaySecs_table conv) as H.
  rewrite List.forallb_forall in H.
  apply Z.eqb_eq, H, List.in_map_iff.
  exists (Z.to_nat n). split; [lia|]. apply List.in_seq. lia.
Qed.

Lemma delaySecs_values (conv : Conversion) :
  delaySecs conv 1 = 0 ∧ delaySecs conv 14 = 8191 ∧
  delaySecs conv 15 = 14400 ∧ delaySecs conv 16 = 14400 ∧
  delaySecs conv 63 = 14400.
Proof. by vm_compute. Qed.

(** The specified delay is the ceiling from the fifteenth attempt on. *)
Lemma spec_delay_saturates (n : Z) : 15 <= n → spec_delay n = 14400.
Proof.
  intros Hn. unfold spec_delay, exponentialBackoffCeilingSecs.
  apply Z.min_r.
  assert (2 ^ 15 <= 2 ^ n) by (apply Z.pow_le_mono_r; lia).
  apply Z.div_le_lower_bound; lia.
Qed.

(** Where the conversion saturates, the delay stays at the ceiling
    past the range of [int64] too. *)
Lemma delaySecs_arm64_beyond :
  forallb (λ n, delaySecs arm64 n =? 14400) [64; 65; 100; 1023; 1024; 5000]
    = true.
Proof. by vm_compute. Qed.

(** C7, evaluated where it fails: at the 64th consecutive failure the
    float to convert is 2^63, one past the largest [int64]; where the
    conversion answers the smallest [int64], as on amd64, the delay is
    that negative number, the clamp to 14400 does not apply to it and
    the sleep lasts no time, while the specified delay is 14400
    seconds. *)
Theorem delaySecs_overflows_at_64 :
  math_Floor (f64_mul (f64_sub (math_Pow2 (f64_of_int 64)) f64_one) f64_half)
    = S754_finite false (2 ^ 52) 11 ∧
  delaySecs amd64 64 = - 2 ^ 63 ∧
  spec_delay 64 = 14400 ∧
  sleepDuration (delaySecs amd64 64) = 0.
Proof. by vm_compute. Qed.

End BackoffFacts.

(** ** The mining driver *)

Module DriverFacts.
Import Aggregator Driver Sample AggregatorFacts.

Lemma headerNullCheck_spec (m : Manager) :
  tiered (combinedHeader m) →
  ∃ err, headerNullCheck m = Some err ∧
    (err = false ↔ ∀ k, (k < 3)%nat → filled (combinedHeader m) k).
Proof.
  intros (_ & _ & Hn & _). unfold headerNullCheck, filled.
  destruct (Number (combinedHeader m)) as [|n0 [|n1 [|n2 [|]]]]; try done.
  simpl. destruct n0 as [x0|]; simpl.
  2:{ eexists; split; [done|]. split; [done|].
      intros H. destruct (H 0%nat) as [? ?]; [lia|done]. }
  destruct n1 as [x1|]; simpl.
  2:{ eexists; split; [done|]. split; [done|].
      intros H. destruct (H 1%nat) as [? ?]; [lia|done]. }
  destruct n2 as [x2|]; simpl.
  2:{ eexists; split; [done|]. split; [done|].
      intros H. destruct (H 2%nat) as [? ?]; [lia|done]. }
  eexists; split; [done|]. split; [|done].
  intros _ k Hk. destruct k as [|[|[|]]]; [eauto..|lia].
Qed.

Lemma count_app (p : Event → bool) (s t : list Event) :
  count p (s ++ t) = (count p s + count p t)%nat.
Proof. induction s as [|e s IH]; simpl; [done|]. rewrite IH. lia. Qed.

(** C9. The driver, taking a combined header off the channel, calls
    [SealHeader] (once, on that header) if and only if the three block
    numbers are all present; otherwise it issues no such call and goes
    back to waiting, and with nothing on the channel it waits; and when
    exactly one slot is missing, the delivery that fills it puts the
    header on the channel and the driver's next iteration calls
    [SealHeader] on the completed header. *)
Theorem miningLoop_seals_iff_complete (m : Manager) (updatedCh : nat)
    (stopCh : bool) :
  tiered (combinedHeader m) →
  (∃ t, miningLoop m (S updatedCh) stopCh = Returned (t, updatedCh, true) ∧
     (count isSealHeader t = 1%nat ∧ EvSealHeader (combinedHeader m) ∈ t
        ↔ ∀ k, (k < 3)%nat → filled (combinedHeader m) k) ∧
     (count isSealHeader t = 0%nat
        ↔ ¬ ∀ k, (k < 3)%nat → filled (combinedHeader m) k)) ∧
  miningLoop m 0 stopCh = Waiting ∧
  ∀ (i : nat) (block : ReceiptBlock),
    (i < 3)%nat → tiered (rHeader block) →
    length (pendingBlocks m) = 3%nat →
    (∀ k, (k < 3)%nat → k ≠ i → filled (combinedHeader m) k) →
    filled (rHeader block) i →
    ∃ m' header ch t,
      loopGlobalBlock m updatedCh i block = Some (m', header, S ch) ∧
      miningLoop m' (S ch) stopCh =
        Returned (t ++ [EvSealHeader (combinedHeader m')], ch, true) ∧
      ∀ k, (k < 3)%nat → filled (combinedHeader m') k.
Proof.
  intros Ht. split; [|split; [done|]].
  - destruct (headerNullCheck_spec m Ht) as (err & E & Herr).
    unfold miningLoop. rewrite E.
    assert (count isSealHeader
              ((if stopCh then [EvInterrupt] else []) ++ [EvLock; EvUnlock])
            = 0%nat) as Hz by (by destruct stopCh).
    destruct err; eexists; (split; [reflexivity|]).
    + rewrite Hz. split.
      * split; [intros [? _]; lia|]. intros H. apply Herr in H. done.
      * split; [|done]. intros _ H. apply Herr in H. done.
    + rewrite count_app, Hz. simpl.
      assert (∀ k, (k < 3)%nat → filled (combinedHeader m) k) as Hall
        by by apply Herr.
      split.
      * split; [done|]. intros _. split; [done|].
        apply elem_of_app. right. apply list_elem_of_singleton. done.
      * split; [lia|]. done.
  - intros i block Hi Hb Hp Hothers Hfill.
    destruct (updateCombinedHeader_fields m (rHeader block) i Hi Ht Hb)
      as (c & E & Hc & _ & _ & Hn & _ & _ & _ & _ & _ & _ & _ & _ & _ & _ &
          _ & _ & _ & _ & Hrest).
    assert (∀ k, (k < 3)%nat → filled c k) as Hall.
    { intros k Hk. destruct (decide (k = i)) as [Heq|Hne].
      - destruct Hfill as [n Hfill]. exists n. subst k.
        exact (eq_trans Hn Hfill).
      - destruct (Hothers k Hk Hne) as [n Hk']. exists n.
        exact (eq_trans (Hrest k Hne) Hk'). }
    unfold loopGlobalBlock. rewrite E. simpl.
    unfold store.
    rewrite (decide_True (P := (i < length (pendingBlocks m))%nat)) by lia.
    simpl.
    set (m' := mkManager _ c _ _).
    assert (∃ ch, (if decide (updatedCh < resultQueueSize)%nat
                   then S updatedCh else updatedCh) = S ch) as [ch Hch].
    { case_decide; [eauto|]. unfold resultQueueSize in *.
      exists (pred updatedCh). lia. }
    rewrite Hch.
    destruct (headerNullCheck_spec m' Hc) as (err & E' & Herr).
    assert (err = false) as -> by by apply Herr.
    do 4 eexists. split; [reflexivity|]. split; [|exact Hall].
    unfold miningLoop. rewrite E'. reflexivity.
Qed.

Lemma miningLoop_seals_iff_complete_witness :
  ∃ m' header ch t,
    loopGlobalBlock
      (mkManager registry (headerWith [None; big 12 7; big 13 9] 90 [1; 1] 0%N)
         [None; None; None] [1; 1]) 0 0 nextHeight = Some (m', header, S ch) ∧
    miningLoop m' (S ch) false =
      Returned (t ++ [EvSealHeader (combinedHeader m')], ch, true) ∧
    ∀ k, (k < 3)%nat → filled (combinedHeader m') k.
Proof.
  refine (proj2 (proj2 (miningLoop_seals_iff_complete
    (mkManager registry (headerWith [None; big 12 7; big 13 9] 90 [1; 1] 0%N)
       [None; None; None] [1; 1]) 0 false _)) 0%nat nextHeight _ _ _ _ _).
  - by repeat split.
  - lia.
  - by repeat split.
  - reflexivity.
  - intros k Hk Hne. destruct k as [|[|[|]]]; [done| | |lia];
      eexists; reflexivity.
  - eexists; reflexivity.
Defined.

End DriverFacts.

(** ** Sequencing of effects *)

Module EffFacts.

Lemma events_bind {A B} (x : Eff A) (f : A → Eff B) :
  events (x ≫= f) =
    events x ++ match result x with Some a => events (f a) | None => [] end.
Proof.
  unfold mbind, Eff_bind. destruct (result x); simpl; [done|].
  by rewrite app_nil_r.
Qed.

Lemma result_bind {A B} (x : Eff A) (f : A → Eff B) :
  result (x ≫= f) = result x ≫= λ a, result (f a).
Proof. unfold mbind at 1, Eff_bind. by destruct (result x). Qed.

Lemma bind_ret {A B} (a : A) (f : A → Eff B) : mret a ≫= f = f a.
Proof. unfold mbind, Eff_bind, mret, Eff_ret. simpl. by destruct (f a). Qed.

Lemma bind_panic {A B} (f : A → Eff B) : panic ≫= f = panic.
Proof. done. Qed.

Lemma index_lookup {A} (l : list A) (i : Z) (x : A) :
  0 <= i → l !! Z.to_nat i = Some x → index l i = mret x.
Proof.
  intros Hi Hx. unfold index.
  destruct (Z.leb_spec 0 i); [|lia]. by rewrite Hx.
Qed.

Lemma index_nat {A} (l : list A) (k : nat) :
  index l (Z.of_nat k) = match l !! k with Some x => mret x | None => panic end.
Proof.
  unfold index. destruct (Z.leb_spec 0 (Z.of_nat k)); [|lia].
  by rewrite Nat2Z.id.
Qed.

Lemma byte_pred_slot (b : Z) : 1 <= b <= 3 → byte_pred b = b - 1.
Proof. intros Hb. unfold byte_pred. apply Z.mod_small. lia. Qed.

Lemma index_slot {A} (l : list A) (b : Z) :
  length l = 3%nat → 1 <= b <= 3 →
  ∃ x, index l (byte_pred b) = mret x ∧ l !! Z.to_nat (b - 1) = Some x.
Proof.
  intros Hl Hb. rewrite byte_pred_slot by done.
  destruct (lookup_lt_is_Some_2 l (Z.to_nat (b - 1))) as [x Hx]; [lia|].
  exists x. split; [|done]. apply index_lookup; [lia|done].
Qed.

End EffFacts.

(** ** The result dispatcher *)

Module DispatcherFacts.
Import Dispatcher Sample EffFacts.

(** *** The two senders and a missing pending block *)

(** C10. For every tier [t]: when the pending block of tier [t] is nil,
    [SendMinedBlock] panics before issuing any call, whereas
    [SendClientsMinedExtBlock] returns normally having sent nothing;
    [SendMinedBlock] returns normally only if that pending block is not
    nil; and when it is not nil (in a coordinator whose registry and
    location are in order) [SendMinedBlock] returns normally after
    exactly one [SendMinedBlock] call, carrying the pending block's
    body under the sealed header. *)
Theorem SendMinedBlock_requires_pending (m : Manager) (t : nat)
    (header : Header) (externalContexts : list Z) :
  (t < 3)%nat → sliced m →
  (pendingBlocks m !! t = Some None →
     SendMinedBlock m (Z.of_nat t) header = mkEff [] None ∧
     SendClientsMinedExtBlock m (Z.of_nat t) externalContexts header =
       mkEff [] (Some ())) ∧
  (result (SendMinedBlock m (Z.of_nat t) header) = Some () →
     ∃ receiptBlock, pendingBlocks m !! t = Some (Some receiptBlock)) ∧
  (∀ receiptBlock, pendingBlocks m !! t = Some (Some receiptBlock) →
     ∃ client,
       SendMinedBlock m (Z.of_nat t) header =
         mkEff [EvSendMinedBlock client
                  (WithSeal
                     (NewBlockWithBody (rHeader receiptBlock)
                        (rTransactions receiptBlock) (rUncles receiptBlock))
                     header)] (Some ())).
Proof.
  intros Ht (Hr & Hz & Hrows & Hp & r & z & Hloc & Hrb & Hzb).
  unfold SendMinedBlock, SendClientsMinedExtBlock.
  rewrite !index_nat.
  destruct (lookup_lt_is_Some_2 (pendingBlocks m) t) as [pb Hpb]; [lia|].
  rewrite Hpb, !bind_ret. split; [|split].
  - intros [= ->]. done.
  - destruct pb as [rb|]; [eauto|]. done.
  - intros rb [= ->].
    rewrite Hloc.
    change (index [r; z] 0) with (mret (M := Eff) r).
    change (index [r; z] 1) with (mret (M := Eff) z).
    destruct (index_slot (regionClients (clients m)) r Hr Hrb) as (rc & Erc & _).
    destruct (index_slot (zoneClients (clients m)) r Hz Hrb) as (row & Erow & Hrow).
    assert (length row = 3%nat) as Hlen.
    { rewrite Forall_forall in Hrows. apply Hrows.
      apply list_elem_of_lookup. eauto. }
    destruct (index_slot row z Hlen Hzb) as (zc & Ezc & _).
    destruct t as [|[|[|]]]; [| | |lia];
      unfold when; cbn -[mbind mret index];
      rewrite ?bind_ret, ?Erc, ?Erow, ?bind_ret, ?Ezc, ?bind_ret;
      eexists; reflexivity.
Qed.

Lemma sliced_sample : sliced fullManager.
Proof.
  repeat split; try reflexivity.
  - by repeat constructor.
  - exists 1, 1. repeat split; (reflexivity || lia).
Qed.

Lemma SendMinedBlock_requires_pending_witness :
  ∃ client,
    SendMinedBlock fullManager 2 fullHeader =
      mkEff [EvSendMinedBlock client
               (WithSeal
                  (NewBlockWithBody (rHeader nextHeight)
                     (rTransactions nextHeight) (rUncles nextHeight))
                  fullHeader)] (Some ()).
Proof.
  refine (proj2 (proj2 (SendMinedBlock_requires_pending fullManager 2
            fullHeader [0; 1] _ sliced_sample)) nextHeight _).
  - lia.
  - reflexivity.
Defined.

(** *** Which calls each piece of the dispatcher issues *)

Section Issues.
Context (P : Event → Prop).

Lemma issues_bind {A B} (x : Eff A) (f : A → Eff B) :
  Forall P (events x) → (∀ a, Forall P (events (f a))) →
  Forall P (events (x ≫= f)).
Proof.
  intros Hx Hf. rewrite events_bind. apply Forall_app. split; [done|].
  destruct (result x); [apply Hf | constructor].
Qed.

Lemma issues_ret {A} (a : A) : Forall P (events (mret (M := Eff) a)).
Proof. constructor. Qed.

Lemma issues_panic {A} : Forall P (events (panic (A := A))).
Proof. constructor. Qed.

Lemma issues_index {A} (l : list A) (i : Z) : Forall P (events (index l i)).
Proof. unfold index. repeat case_match; constructor. Qed.

Lemma issues_emit (e : Event) : P e → Forall P (events (emit e)).
Proof. intros He. by repeat constructor. Qed.

Lemma issues_when (c : bool) (body : Eff ()) :
  Forall P (events body) → Forall P (events (when c body)).
Proof. destruct c; [done | constructor]. Qed.

Lemma issues_forRange {A} (f : Z → A → Eff ()) (i : Z) (l : list A) :
  (∀ i x, Forall P (events (f i x))) →
  Forall P (events (forRange f i l)).
Proof.
  intros Hf. revert i. induction l as [|x l IH]; intros i; simpl.
  - constructor.
  - apply issues_bind; [apply Hf | intros _; apply IH].
Qed.
End Issues.

Ltac issues :=
  repeat first
    [ apply issues_ret | apply issues_panic | apply issues_index
    | apply issues_emit; reflexivity
    | apply issues_when
    | apply issues_forRange; intros
    | apply issues_bind; [|intros]
    | progress case_match ].

Lemma allOnline_issues (net : Network) (cs : list Client) :
  Forall (λ e, phase e = 1%nat) (events (allOnline net cs)).
Proof.
  induction cs as [|c cs IH]; cbn [allOnline]; [constructor|].
  unfold checkConnection. issues. exact IH.
Qed.

Lemma allChainsOnline_issues (m : Manager) (net : Network) :
  Forall (λ e, phase e = 1%nat) (events (allChainsOnline m net)).
Proof.
  unfold allChainsOnline, checkConnection.
  issues; apply allOnline_issues.
Qed.

Lemma SendClientsMinedExtBlock_issues (m : Manager) (mined : Z)
    (ctxs : list Z) (header : Header) :
  Forall (λ e, phase e = 2%nat)
    (events (SendClientsMinedExtBlock m mined ctxs header)).
Proof. unfold SendClientsMinedExtBlock, SendClientsExtBlock. issues. Qed.

Lemma SendMinedBlock_issues (m : Manager) (mined : Z) (header : Header) :
  Forall (λ e, phase e = 3%nat) (events (SendMinedBlock m mined header)).
Proof. unfold SendMinedBlock. issues. Qed.

(** *** Every interleaving of an admissible program is ordered *)

Lemma phased_snoc (lo : nat) (t : list Event) (e : Event) :
  phased lo t = true → (lo ≤ phase e)%nat →
  Forall (λ x, (phase x ≤ phase e)%nat) t →
  phased lo (t ++ [e]) = true.
Proof.
  revert lo. induction t as [|x t IH]; intros lo Ht Hlo Hall; simpl in *.
  - rewrite andb_true_r. by apply Nat.leb_le.
  - apply andb_prop in Ht as [Hx Ht]. inversion_clear Hall.
    rewrite Hx. simpl. by apply IH.
Qed.

Lemma uniform_phase (L : nat) (body : Eff ()) :
  uniform L body = true → Forall (λ e, phase e = L) (events body).
Proof.
  unfold uniform. rewrite List.forallb_forall, Forall_forall.
  intros H e He. apply Nat.eqb_eq, H. by apply list_elem_of_In.
Qed.

Ltac conjuncts :=
  repeat match goal with
         | H : _ && _ = true |- _ => apply andb_prop in H as [? ?]
         | H : negb _ = true |- _ => apply negb_true_iff in H
         | H : (_ <=? _)%nat = true |- _ => apply Nat.leb_le in H
         | H : (_ =? _)%nat = true |- _ => apply Nat.eqb_eq in H
         | H : isQuiet ?mode = true |- _ =>
             destruct mode; [clear H | discriminate H]
         end.

Ltac weaken H :=
  eapply Forall_impl; [exact H|]; simpl; intros; lia.

Ltac extend Htr :=
  first
    [ apply phased_snoc; [done | simpl in *; lia | weaken Htr]
    | apply Forall_app; split;
      [ first [exact Htr | weaken Htr]
      | repeat constructor; simpl in *; lia ] ].

Ltac parts := repeat split; simpl; try done; try lia.

Lemma ordered_step (c c' : Config) : ordered c → step c c' → ordered c'.
Proof.
  intros (eg & mode & lo & Hadm & Hwg & Hquiet & Hts & Hlo & Hheld & Hph & Htr)
         Hstep.
  destruct Hstep; simpl in *; conjuncts; subst.
  - (* Lock *)
    exists false, Quiet, 0%nat.
    parts; extend Htr.
  - (* Unlock *)
    exists false, Quiet, 4%nat.
    parts; try extend Htr.
    intros Hne. destruct Hne. by apply Hquiet.
  - (* a call of the main goroutine *)
    exists false, Quiet, (phase e).
    parts; extend Htr.
  - (* Add *)
    exists true, mode, lo. parts.
  - (* go *)
    destruct (events body) as [|e es] eqn:Hev.
    + exists false, (match mode with Quiet => Busy None | _ => mode end), lo.
      parts.
      * rewrite length_app. simpl. lia.
      * by destruct mode.
      * apply Forall_app. split; [|constructor; [by left | constructor]].
        destruct mode; [by rewrite Hquiet|]. done.
      * intros L HL. destruct mode; [done|]. by apply Hlo.
      * by destruct mode as [|[]].
    + conjuncts.
      exists false, (Busy (Some (phase e))), lo.
      parts.
      * rewrite length_app. simpl. lia.
      * apply Forall_app. split.
        -- destruct mode as [|[L|]].
           ++ by rewrite Hquiet.
           ++ conjuncts. by subst.
           ++ eapply Forall_impl; [exact Hts|]. simpl.
              intros b [?|(? & ? & ?)]; [by left | done].
        -- constructor; [|constructor]. right. eauto.
      * intros L [= <-]. done.
      * destruct mode as [|[L|]]; simpl in *.
        -- weaken Htr.
        -- conjuncts. by subst.
        -- weaken Htr.
  - (* Wait *)
    assert (ts = []) as -> by (apply length_zero_iff_nil; lia).
    exists false, Quiet, (bound lo mode). parts.
  - (* panic of the main goroutine *)
    exists false, mode, lo. parts.
  - (* a call of a spawned goroutine *)
    apply Forall_app in Hts as [Hts1 Hts2].
    inversion_clear Hts2 as [|? ? Hb Hts3].
    destruct Hb as [?|(L & -> & Hb)]; [done|].
    apply andb_prop in Hb as [He Hb]. apply Nat.eqb_eq in He.
    exists eg, (Busy (Some L)), lo.
    parts.
    + by rewrite !length_app.
    + apply Forall_app. split; [done|]. constructor; [|done]. right. eauto.
    + intros _. apply Hheld. by destruct ts1.
    + extend Htr.
    + extend Htr.
  - (* return of a spawned goroutine *)
    apply Forall_app in Hts as [Hts1 Hts2]. inversion_clear Hts2.
    exists eg, mode, lo. parts.
    + rewrite !length_app in *. simpl in *. lia.
    + intros ->. specialize (Hquiet eq_refl). by destruct ts1.
    + by apply Forall_app.
    + intros _. apply Hheld. by destruct ts1.
  - (* panic of a spawned goroutine *)
    exists eg, mode, lo. parts.
Qed.

Lemma admissible_pending (p : list Instr) :
  ∀ eg mode lo h, admissible eg mode lo h p = true →
    Forall (λ e, (bound lo mode ≤ phase e)%nat) (concat (map pendingOf p)).
Proof.
  induction p as [|i p IH]; intros eg mode lo h Hadm; [constructor|].
  destruct i; simpl in Hadm; conjuncts; simpl.
  - constructor; [simpl; lia|].
    eapply Forall_impl; [by eapply IH|]. simpl. intros; lia.
  - constructor; [simpl; lia|].
    eapply Forall_impl; [by eapply IH|]. simpl. intros; lia.
  - constructor; [done|].
    eapply Forall_impl; [by eapply IH|]. simpl. intros; lia.
  - by eapply IH.
  - destruct (events body) as [|e es] eqn:Hev; simpl.
    + eapply Forall_impl; [by eapply IH|]. simpl. by destruct mode as [|[]].
    + conjuncts.
      assert (bound lo mode ≤ phase e)%nat as Hb.
      { destruct mode as [|[L|]]; simpl in *; conjuncts; lia. }
      match goal with H : uniform _ _ = true |- _ =>
        apply uniform_phase in H; rewrite Hev in H; inversion_clear H end.
      constructor; [done|]. apply Forall_app. split.
      * eapply Forall_impl; [eassumption|]. simpl. intros; lia.
      * eapply Forall_impl; [by eapply IH|]. simpl. intros; lia.
  - eapply Forall_impl; [by eapply IH|]. simpl. intros; lia.
  - by eapply IH.
Qed.

Lemma elem_of_concat_map {A} (f : A → list Event) (l : list A) (e : Event) :
  e ∈ concat (map f l) → ∃ x, x ∈ l ∧ e ∈ f x.
Proof.
  induction l as [|x l IH]; simpl; [by intros ?%elem_of_nil|].
  intros [He|He]%elem_of_app.
  - exists x. split; [left|done].
  - destruct (IH He) as (y & Hy & Hey). exists y. split; [by right|done].
Qed.

Lemma ordered_pending (c : Config) (e e' : Event) :
  ordered c → e ∈ trace c → e' ∈ pendingEvents c → (phase e ≤ phase e')%nat.
Proof.
  intros (eg & mode & lo & Hadm & _ & _ & Hts & Hlo & _ & _ & Htr) He He'.
  rewrite Forall_forall in Htr. specialize (Htr e He).
  enough (bound lo mode ≤ phase e')%nat by lia.
  apply elem_of_app in He' as [He'|He'].
  - apply elem_of_concat_map in He' as (body & Hbody & He').
    rewrite Forall_forall in Hts.
    destruct (Hts body Hbody) as [Hnil|(L & -> & HL)].
    + rewrite Hnil in He'. by apply elem_of_nil in He'.
    + apply uniform_phase in HL. rewrite Forall_forall in HL.
      simpl. by rewrite (HL e' He').
  - apply admissible_pending in Hadm. rewrite Forall_forall in Hadm.
    by apply Hadm.
Qed.

Lemma ordered_send_locked (c c' : Config) (e : Event) :
  ordered c → step c c' → trace c' = trace c ++ [e] → isSend e = true →
  held c = true.
Proof.
  intros (eg & mode & lo & Hadm & _ & _ & _ & _ & Hheld & _) Hstep Htr He.
  destruct Hstep; simpl in *;
    try (apply app_inv_head in Htr; injection Htr as <-);
    try done;
    try (apply (f_equal length) in Htr; rewrite length_app in Htr;
         simpl in Htr; lia).
  - conjuncts. rewrite He in *. simpl in *. done.
  - apply Hheld. by destruct ts1.
Qed.

(** *** The dispatcher's program is admissible *)

Lemma admissible_checks (evs : list Event) (tail : list Instr) (h : bool) :
  Forall (λ e, phase e = 1%nat) evs →
  (∀ lo, (lo ≤ 1)%nat → admissible false Quiet lo h tail = true) →
  ∀ lo, (lo ≤ 1)%nat →
    admissible false Quiet lo h (map IEmit evs ++ tail) = true.
Proof.
  intros Hevs Htail. induction Hevs as [|e evs He _ IH]; intros lo Hlo.
  - by apply Htail.
  - simpl. rewrite He.
    assert (isSend e = false) as -> by (by destruct e).
    simpl. rewrite IH by done.
    by destruct (Nat.leb_spec lo 1); [|lia].
Qed.

Lemma admissible_spawns (L : nat) (bodies : list (Eff ()))
    (rest : list Instr) (lo : nat) :
  Forall (λ body, Forall (λ e, phase e = L) (events body)) bodies →
  (lo ≤ L)%nat →
  (∀ mode, takes L mode → admissible false mode lo true rest = true) →
  ∀ mode, takes L mode →
    admissible false mode lo true (concat (map spawn bodies) ++ rest) = true.
Proof.
  intros Hbodies Hlo Hrest.
  induction Hbodies as [|body bodies Hb _ IH]; intros mode Hmode.
  - by apply Hrest.
  - simpl. destruct (events body) as [|e es] eqn:Hev.
    + apply IH. by destruct mode.
    + assert (uniform (phase e) body = true) as ->.
      { unfold uniform. rewrite Hev.
        inversion_clear Hb as [|? ? He Hes]. simpl. rewrite Nat.eqb_refl.
        simpl. apply List.forallb_forall. intros x Hx%list_elem_of_In.
        rewrite Forall_forall in Hes. apply Nat.eqb_eq.
        rewrite He. by apply Hes. }
      assert (phase e = L) as He by (by inversion_clear Hb).
      rewrite He. rewrite IH by done.
      destruct (Nat.leb_spec lo L); [|lia].
      destruct mode as [|[L'|]]; simpl in *; [done| |done].
      subst. by rewrite Nat.eqb_refl.
Qed.

Lemma admissible_dispatch (exts mineds : list (Eff ())) (lo : nat) :
  Forall (λ body, Forall (λ e, phase e = 2%nat) (events body)) exts →
  Forall (λ body, Forall (λ e, phase e = 3%nat) (events body)) mineds →
  (lo ≤ 1)%nat →
  admissible false Quiet lo true
    (concat (map spawn exts) ++ IWait ::
     concat (map spawn mineds) ++ [IWait; IUnlock]) = true.
Proof.
  intros Hexts Hmineds Hlo.
  apply (admissible_spawns 2); [done | lia | | done].
  intros mode Hmode. simpl.
  assert (bound lo mode ≤ 2)%nat
    by (destruct mode as [|[L|]]; simpl in *; lia).
  apply (admissible_spawns 3); [done | lia | | done].
  intros mode' Hmode'. simpl.
  assert (bound (bound lo mode) mode' ≤ 3)%nat
    by (destruct mode' as [|[L|]]; simpl in *; lia).
  by destruct (Nat.leb_spec (bound (bound lo mode) mode') 4); [|lia].
Qed.

Lemma resultLoop_admissible (m : Manager) (net : Network)
    (bundle : HeaderBundle) :
  admissible false Quiet 0 false (resultLoop m net bundle) = true.
Proof.
  unfold resultLoop. cbn [admissible negb isQuiet andb Nat.eqb].
  apply admissible_checks; [apply allChainsOnline_issues | | lia].
  intros lo Hlo.
  destruct (result (allChainsOnline m net)) as [[]|]; [|done..].
  pose proof (SendClientsMinedExtBlock_issues m) as Hext.
  pose proof (SendMinedBlock_issues m) as Hmined.
  assert (admissible false Quiet lo true [IUnlock] = true) as Hunlock.
  { simpl. by destruct (Nat.leb_spec lo 4); [|lia]. }
  unfold guarded.
  destruct (Z.eqb_spec (Context bundle) (Z.of_nat 0)) as [E0|_];
    [rewrite E0; simpl (_ =? _)|].
  { destruct (Number (Header_ bundle) !! 0%nat) as [[]|]; [|done..].
    apply (admissible_dispatch [_; _; _] [_; _; _]);
      [by repeat constructor.. | done]. }
  destruct (Z.eqb_spec (Context bundle) (Z.of_nat 1)) as [E1|_];
    [rewrite E1; simpl (_ =? _)|].
  { destruct (Number (Header_ bundle) !! 1%nat) as [[]|]; [|done..].
    apply (admissible_dispatch [_; _] [_; _]);
      [by repeat constructor.. | done]. }
  destruct (Z.eqb_spec (Context bundle) (Z.of_nat 2)) as [E2|_]; [|done].
  destruct (Number (Header_ bundle) !! 2%nat) as [[]|]; [|done..].
  apply (admissible_dispatch [_] [_]); [by repeat constructor.. | done].
Qed.

Lemma reachable_ordered (m : Manager) (net : Network) (bundle : HeaderBundle)
    (c : Config) :
  reachable m net bundle c → ordered c.
Proof.
  revert c. apply rtc_ind_r.
  - exists false, Quiet, 0%nat.
    split; [apply resultLoop_admissible|]. by repeat split.
  - intros c c' _ Hstep IH. by eapply ordered_step.
Qed.

Lemma step_mgr (c c' : Config) : step c c' → mgr c' = mgr c.
Proof. by destruct 1. Qed.

Lemma reachable_mgr (m : Manager) (net : Network) (bundle : HeaderBundle)
    (c : Config) :
  reachable m net bundle c → mgr c = m.
Proof.
  revert c. apply rtc_ind_r; [done|].
  intros c c' _ Hstep IH. by rewrite (step_mgr c c').
Qed.

(** *** Running the model *)

Lemma runMain_step (c c' : Config) : runMain c = Some c' → step c c'.
Proof.
  destruct c as [p ts n h cr t m]. unfold runMain. simpl.
  destruct cr; [done|]. destruct p as [|[] p]; try done;
    try (intros [= <-]; constructor).
  - destruct h; [done|]. intros [= <-]. constructor.
  - destruct h; [|done]. intros [= <-]. constructor.
  - destruct n; [|done]. intros [= <-]. constructor.
Qed.

Lemma runThread_step (k : nat) (c c' : Config) :
  runThread k c = Some c' → step c c'.
Proof.
  destruct c as [p ts n h cr t m]. unfold runThread. simpl.
  destruct cr; [done|].
  destruct (ts !! k) as [[evs res]|] eqn:Hk; [|done].
  pose proof (take_drop_middle ts k _ Hk) as Hts.
  destruct evs as [|e es].
  - destruct res as [[]|].
    + destruct n; [done|]. intros [= <-].
      rewrite <- Hts at 1. constructor.
    + intros [= <-]. rewrite <- Hts. constructor.
  - intros [= <-]. rewrite <- Hts at 1. constructor.
Qed.

Lemma run_steps (schedule : list (option nat)) (c c' : Config) :
  run schedule c = Some c' → rtc step c c'.
Proof.
  revert c. induction schedule as [|[k|] schedule IH]; intros c; simpl.
  - by intros [= <-].
  - destruct (runThread k c) as [c1|] eqn:H1; [|done]. simpl. intros H.
    eapply rtc_l; [by eapply runThread_step | by apply IH].
  - destruct (runMain c) as [c1|] eqn:H1; [|done]. simpl. intros H.
    eapply rtc_l; [by eapply runMain_step | by apply IH].
Qed.

(** *** Phase A before Phase B *)

(** C2. In every configuration an iteration of the result dispatcher
    can reach, under every interleaving of its goroutines: the calls
    issued so far are in phase order (the lock, the connection checks,
    then external-block sends, then sealed-block sends, then the
    unlock); every call still to be issued belongs to a phase no earlier
    than any call already issued, so that once a sealed-block send has
    begun no external-block send is outstanding; the wait-group counter
    is zero only when every spawned goroutine has returned, so that each
    [Wait] joins the phase before it; and every send is issued while the
    coordinator mutex is held. *)
Theorem resultLoop_phase_barrier (m : Manager) (net : Network)
    (bundle : HeaderBundle) (c : Config) :
  reachable m net bundle c →
  phased 0 (trace c) = true ∧
  (∀ e e', e ∈ trace c → e' ∈ pendingEvents c → (phase e ≤ phase e')%nat) ∧
  (∀ e e', e ∈ trace c → isSendMinedBlock e = true →
           isSendExternalBlock e' = true → e' ∉ pendingEvents c) ∧
  (wg c = 0%nat → threads c = []) ∧
  (∀ c' e, step c c' → trace c' = trace c ++ [e] → isSend e = true →
           held c = true).
Proof.
  intros Hc. apply reachable_ordered in Hc as Hord.
  split; [|split; [|split; [|split]]].
  - by destruct Hord as (? & ? & ? & _ & _ & _ & _ & _ & _ & ? & _).
  - intros e e'. by apply ordered_pending.
  - intros e e' He Hmined Hext He'.
    pose proof (ordered_pending c e e' Hord He He') as Hle.
    destruct e; try discriminate Hmined.
    destruct e'; try discriminate Hext. simpl in Hle. lia.
  - destruct Hord as (eg & ? & ? & _ & Hwg & _).
    intros Hz. apply length_zero_iff_nil. lia.
  - intros c' e. by apply ordered_send_locked.
Qed.

Lemma resultLoop_phase_barrier_witness :
  ∃ c,
    run (replicate 16 None ++ replicate 13 (Some 0%nat) ++
         replicate 3 None ++ replicate 2 (Some 0%nat) ++ replicate 2 None)
      (initial fullManager quiet zoneBundle) = Some c ∧
    main c = [] ∧ threads c = [] ∧ held c = false ∧
    map phase (trace c) =
      [0; 1; 1; 1; 1; 1; 1; 1; 1; 1; 1; 1; 1; 1;
       2; 2; 2; 2; 2; 2; 2; 2; 2; 2; 2; 2; 3; 4]%nat ∧
    phased 0 (trace c) = true.
Proof.
  destruct (run (replicate 16 None ++ replicate 13 (Some 0%nat) ++
                 replicate 3 None ++ replicate 2 (Some 0%nat) ++
                 replicate 2 None)
              (initial fullManager quiet zoneBundle)) as [c|] eqn:Hrun;
    [|by vm_compute in Hrun].
  exists c. split; [reflexivity|].
  pose proof (resultLoop_phase_barrier fullManager quiet zoneBundle c
                (run_steps _ _ _ Hrun)) as (Hphased & _).
  split; [|split; [|split; [|split; [|exact Hphased]]]];
    vm_compute in Hrun; injection Hrun as <-; reflexivity.
Defined.

(** A PRIME-class solution with its goroutines interleaved call by call:
    thirty-six external-block sends, then the three sealed-block sends to
    ZONE, REGION and PRIME in whatever order they are scheduled. *)
Lemma resultLoop_prime_interleaved :
  ∃ c,
    run (replicate 20 None ++
         concat (replicate 12 [Some 2; Some 0; Some 1]%nat) ++
         replicate 3 (Some 0%nat) ++ replicate 7 None ++
         [Some 1; Some 0; Some 2; Some 0; Some 0; Some 0]%nat ++
         replicate 2 None)
      (initial fullManager quiet primeBundle) = Some c ∧
    main c = [] ∧ threads c = [] ∧ wg c = 0%nat ∧ held c = false ∧
    map phase (trace c) =
      ([0] ++ replicate 13 1 ++ replicate 36 2 ++ replicate 3 3 ++ [4])%nat ∧
    List.filter isSendMinedBlock (trace c) =
      (λ to, EvSendMinedBlock to
               (WithSeal (mkBlock (rHeader nextHeight) [4]%N [5]%N) fullHeader))
        <$> [110; 111; 100]%N.
Proof. eexists. split; [by vm_compute|]. by vm_compute. Qed.

(** *** A chain that is not reachable *)

Lemma count_none (p : Event → bool) (t : list Event) :
  Forall (λ e, p e = false) t → count p t = 0%nat.
Proof. induction 1 as [|e t He _ IH]; simpl; [done|]. by rewrite He, IH. Qed.

Lemma offline_skipping (m : Manager) (net : Network) (bundle : HeaderBundle)
    (c : Config) :
  result (allChainsOnline m net) = Some false → reachable m net bundle c →
  threads c = [] ∧
  Forall (λ i, Forall (λ e, isSend e = false) (pendingOf i)) (main c) ∧
  Forall (λ i, match i with ILock | IEmit _ => True | _ => False end) (main c) ∧
  Forall (λ e, isSend e = false) (trace c).
Proof.
  intros Hoff. revert c. apply rtc_ind_r.
  - simpl. unfold resultLoop. rewrite Hoff, app_nil_r.
    pose proof (allChainsOnline_issues m net) as Hev.
    induction Hev as [|e evs He _ IH]; simpl.
    + repeat split; by repeat constructor.
    + destruct IH as (_ & IH1 & IH2 & _).
      inversion_clear IH1. inversion_clear IH2.
      repeat split; repeat constructor; try done. by destruct e.
  - intros c c' _ Hstep (Hts & Hsend & Hshape & Htr).
    destruct Hstep; simpl in *;
      try (by destruct ts1); try (by inversion_clear Hshape);
      inversion_clear Hshape; inversion_clear Hsend;
      repeat split; try done; apply Forall_app; split; try done.
Qed.

(** C6. Whenever the reachability check fails for a sealed solution
    (some chain does not answer), then in every configuration the
    iteration can reach no [SendExternalBlock] and no [SendMinedBlock]
    has been issued, none is outstanding, no goroutine has been
    spawned, and the combined header and the pending blocks are what
    they were. *)
Theorem resultLoop_offline_skips (m : Manager) (net : Network)
    (bundle : HeaderBundle) (c : Config) :
  result (allChainsOnline m net) = Some false → reachable m net bundle c →
  count isSendExternalBlock (trace c) = 0%nat ∧
  count isSendMinedBlock (trace c) = 0%nat ∧
  count isSend (pendingEvents c) = 0%nat ∧
  threads c = [] ∧
  combinedHeader (mgr c) = combinedHeader m ∧
  pendingBlocks (mgr c) = pendingBlocks m.
Proof.
  intros Hoff Hc.
  destruct (offline_skipping m net bundle c Hoff Hc) as (Hts & Hsend & _ & Htr).
  rewrite (reachable_mgr m net bundle c Hc).
  repeat split; try done.
  - apply count_none. eapply Forall_impl; [exact Htr|]. simpl.
    intros e He. unfold isSend in He. by apply orb_false_elim in He as [? ?].
  - apply count_none. eapply Forall_impl; [exact Htr|]. simpl.
    intros e He. unfold isSend in He. by apply orb_false_elim in He as [? ?].
  - apply count_none. unfold pendingEvents. rewrite Hts. simpl.
    induction Hsend as [|i p Hi _ IH]; simpl; [done|].
    apply Forall_app. by split.
Qed.

Lemma resultLoop_offline_skips_witness :
  ∃ c,
    run (replicate 7 None) (initial fullManager zoneDown primeBundle) = Some c ∧
    main c = [] ∧ held c = true ∧
    trace c = [EvLock; EvHeaderByNumber 100%N; EvHeaderByNumber 110%N;
               EvHeaderByNumber 120%N; EvHeaderByNumber 130%N;
               EvHeaderByNumber 111%N; EvHeaderByNumber 112%N] ∧
    count isSendExternalBlock (trace c) = 0%nat ∧
    count isSendMinedBlock (trace c) = 0%nat ∧
    mgr c = fullManager.
Proof.
  destruct (run (replicate 7 None) (initial fullManager zoneDown primeBundle))
    as [c|] eqn:Hrun; [|by vm_compute in Hrun].
  exists c. split; [reflexivity|].
  assert (result (allChainsOnline fullManager zoneDown) = Some false) as Hoff
    by reflexivity.
  pose proof (resultLoop_offline_skips fullManager zoneDown primeBundle c
                Hoff (run_steps _ _ _ Hrun)) as (Hext & Hmined & _).
  split; [|split; [|split; [|split; [exact Hext|split; [exact Hmined|]]]]];
    vm_compute in Hrun; injection Hrun as <-; reflexivity.
Defined.

End DispatcherFacts.

(** ** The missing-external-block responder *)

Module ResponderFacts.
Import Responder Sample EffFacts.

Lemma index_int {A} (l : list A) (b : Z) :
  length l = 3%nat → 1 <= b <= 3 →
  ∃ x, index l (b - 1) = mret x ∧ l !! Z.to_nat (b - 1) = Some x.
Proof.
  intros Hl Hb.
  destruct (lookup_lt_is_Some_2 l (Z.to_nat (b - 1))) as [x Hx]; [lia|].
  exists x. split; [|done]. apply index_lookup; [lia|done].
Qed.

Lemma zone_slot (cs : orderedBlockClients) (r z : Z) :
  shaped cs → 1 <= r <= 3 → 1 <= z <= 3 →
  ∃ row c, zoneClients cs !! Z.to_nat (r - 1) = Some row ∧
           row !! Z.to_nat (z - 1) = Some c ∧
           index (zoneClients cs) (r - 1) = mret row ∧
           index row (z - 1) = mret c.
Proof.
  intros (_ & Hz & Hrows) Hr Hzb.
  destruct (index_int (zoneClients cs) r Hz Hr) as (row & Erow & Hrow).
  assert (length row = 3%nat) as Hlen.
  { rewrite Forall_forall in Hrows. apply Hrows.
    apply list_elem_of_lookup. eauto. }
  destruct (index_int row z Hlen Hzb) as (c & Ec & Hc).
  by exists row, c.
Qed.

Lemma owner_nodeAt (m : Manager) (req : MissingExternalBlock) (r z : Z) :
  shaped (clients m) → mLocation req = [r; z] →
  1 <= r <= 3 → 1 <= z <= 3 → 0 <= mContext req <= 2 →
  ∃ client, owner m req = mret client ∧
            nodeAt (clients m) (mContext req) r z = Some client.
Proof.
  intros Hs Hloc Hr Hz Hctx. unfold owner, nodeAt. rewrite Hloc.
  change (index [r; z] 0) with (mret (M := Eff) r).
  change (index [r; z] 1) with (mret (M := Eff) z).
  destruct (index_int (regionClients (clients m)) r (proj1 Hs) Hr)
    as (rc & Erc & Hrc).
  destruct (zone_slot (clients m) r z Hs Hr Hz) as (row & zc & Hrow & Hzc & Erow & Ezc).
  assert (mContext req = 0 ∨ mContext req = 1 ∨ mContext req = 2)
    as [-> | [-> | ->]] by lia; cbn -[mbind mret index];
    rewrite ?bind_ret, ?Erc, ?Erow, ?bind_ret, ?Ezc, ?bind_ret.
  - eexists. split; reflexivity.
  - eexists. split; [reflexivity | done].
  - eexists. split; [reflexivity|]. rewrite Hrow. done.
Qed.

Lemma extClient_nodeAt (m : Manager) (a b : Z) :
  shaped (clients m) → 0 <= a <= 3 → 0 <= b <= 3 → (a = 0 → b = 0) →
  ∃ client, extClient m [a; b] = mret client ∧
            nodeAt (clients m) (tierOf a b) a b = Some client.
Proof.
  intros Hs Ha Hb Hab. unfold extClient, nodeAt, tierOf.
  change (index [a; b] 0) with (mret (M := Eff) a).
  change (index [a; b] 1) with (mret (M := Eff) b).
  rewrite !bind_ret.
  destruct (Z.eqb_spec a 0) as [->|Ha0].
  - rewrite (Hab eq_refl). simpl. eexists. split; reflexivity.
  - destruct (Z.eqb_spec b 0) as [->|Hb0]; simpl.
    + destruct (index_int (regionClients (clients m)) a (proj1 Hs))
        as (rc & Erc & Hrc); [lia|].
      rewrite byte_pred_slot by lia. eauto.
    + destruct (zone_slot (clients m) a b Hs) as (row & zc & Hrow & Hzc & Erow & Ezc);
        [lia..|].
      rewrite !byte_pred_slot by lia. rewrite Erow, bind_ret, Hrow. eauto.
Qed.

(** C5 as stated fails: ZONE(2,3) has the block asked for, so the first
    lookup succeeds, but its receipts cannot be fetched; the responder
    then drops the request, and REGION 2, which asked, gets no
    [SendExternalBlock] at all. *)
Lemma missingExternalBlock_receipts_error :
  nodeAt registry 2 2 3 = Some 123%N ∧
  blockByHash receiptsDown 123%N 5%N = Some heldBlock ∧
  subscribeMissingExternalBlockClient fullManager receiptsDown [2; 0]
    (mkMissing 5%N [2; 3] 2) =
    mkEff [EvBlockByHash 123%N 5%N; EvGetBlockReceipts 123%N 5%N]
      (Some Dropped) ∧
  count isSendExternalBlock
    (events (subscribeMissingExternalBlockClient fullManager receiptsDown [2; 0]
               (mkMissing 5%N [2; 3] 2))) = 0%nat.
Proof. by vm_compute. Qed.

(** C5, amended. For every request (hash, context, location) for one of
    the three tiers at a zone location, received from a subscribed
    node, the responder first calls [BlockByHash] on the node owning
    (context, location). On a hit it fetches the block's receipts from
    that node: if the fetch returns an error the request is dropped with
    no reply, otherwise the reply is exactly one [SendExternalBlock] to
    the requesting node. On a miss it calls
    [GetExternalBlockByHashAndContext] on PRIME and, on a hit, replies
    with exactly one [SendExternalBlock] to the requesting node; on a
    miss it makes the same call on the REGION at location[0] and, on a
    hit, replies likewise; if all three miss it drops the request. No
    call is repeated. *)
Theorem missingExternalBlock_resolution (m : Manager) (net : Network)
    (req : MissingExternalBlock) (r z a b : Z) :
  shaped (clients m) → mLocation req = [r; z] →
  1 <= r <= 3 → 1 <= z <= 3 → 0 <= mContext req <= 2 →
  0 <= a <= 3 → 0 <= b <= 3 → (a = 0 → b = 0) →
  ∃ client region requester,
    nodeAt (clients m) (mContext req) r z = Some client ∧
    nodeAt (clients m) 1 r z = Some region ∧
    nodeAt (clients m) (tierOf a b) a b = Some requester ∧
    let h := mHash req in
    let ctx := mContext req in
    let prime := primeClient (clients m) in
    let rebuilt eb :=
      NewBlockWithBody (eHeader eb) (eTransactions eb) (eUncles eb) in
    (∀ block receiptBlock,
       blockByHash net client h = Some block →
       getBlockReceipts net client h = (Some receiptBlock, false) →
       subscribeMissingExternalBlockClient m net [a; b] req =
         mkEff [EvBlockByHash client h; EvGetBlockReceipts client h;
                EvSendExternalBlock requester block
                  (rReceipts receiptBlock) ctx] (Some Replied)) ∧
    (∀ block receiptBlock,
       blockByHash net client h = Some block →
       getBlockReceipts net client h = (receiptBlock, true) →
       subscribeMissingExternalBlockClient m net [a; b] req =
         mkEff [EvBlockByHash client h; EvGetBlockReceipts client h]
           (Some Dropped)) ∧
    (∀ eb,
       blockByHash net client h = None →
       getExternalBlock net prime h ctx = Some eb →
       subscribeMissingExternalBlockClient m net [a; b] req =
         mkEff [EvBlockByHash client h; EvGetExternalBlock prime h ctx;
                EvSendExternalBlock requester (rebuilt eb) (eReceipts eb) ctx]
           (Some Replied)) ∧
    (∀ eb,
       blockByHash net client h = None →
       getExternalBlock net prime h ctx = None →
       getExternalBlock net region h ctx = Some eb →
       subscribeMissingExternalBlockClient m net [a; b] req =
         mkEff [EvBlockByHash client h; EvGetExternalBlock prime h ctx;
                EvGetExternalBlock region h ctx;
                EvSendExternalBlock requester (rebuilt eb) (eReceipts eb) ctx]
           (Some Replied)) ∧
    (blockByHash net client h = None →
     getExternalBlock net prime h ctx = None →
     getExternalBlock net region h ctx = None →
     subscribeMissingExternalBlockClient m net [a; b] req =
       mkEff [EvBlockByHash client h; EvGetExternalBlock prime h ctx;
              EvGetExternalBlock region h ctx] (Some Dropped)).
Proof.
  intros Hs Hloc Hr Hz Hctx Ha Hb Hab.
  destruct (owner_nodeAt m req r z Hs Hloc Hr Hz Hctx) as (client & Eown & Hown).
  destruct (index_int (regionClients (clients m)) r (proj1 Hs) Hr)
    as (region & Ereg & Hreg).
  destruct (extClient_nodeAt m a b Hs Ha Hb Hab) as (requester & Eext & Hext).
  exists client, region, requester.
  split; [done|]. split; [done|]. split; [done|].
  unfold subscribeMissingExternalBlockClient, reply, probe.
  rewrite Eown, Eext, Hloc, bind_ret.
  change (index [r; z] 0) with (mret (M := Eff) r).
  cbv beta zeta. repeat split.
  - intros block rb -> ->. reflexivity.
  - intros block rb -> ->. reflexivity.
  - intros eb -> Hp. rewrite Hp. reflexivity.
  - intros eb -> Hp Hq. rewrite Hp. cbn -[index mbind].
    rewrite !bind_ret, Ereg, bind_ret, Hq. reflexivity.
  - intros -> Hp Hq. rewrite Hp. cbn -[index mbind].
    rewrite !bind_ret, Ereg, bind_ret, Hq. reflexivity.
Qed.

Lemma shaped_sample : shaped registry.
Proof. repeat split. by repeat constructor. Qed.

Lemma missingExternalBlock_resolution_witness :
  subscribeMissingExternalBlockClient fullManager regionHas [2; 0]
    (mkMissing 5%N [2; 3] 2) =
    mkEff [EvBlockByHash 123%N 5%N; EvGetExternalBlock 100%N 5%N 2;
           EvGetExternalBlock 120%N 5%N 2;
           EvSendExternalBlock 120%N (mkBlock fullHeader [4]%N [5]%N)
             [6]%N 2] (Some Replied).
Proof.
  destruct (missingExternalBlock_resolution fullManager regionHas
              (mkMissing 5%N [2; 3] 2) 2 3 2 0 shaped_sample eq_refl)
    as (client & region & requester & Hc & Hr & Hq & _ & _ & _ & H & _);
    [simpl; lia.. | |].
  - intros; lia.
  - vm_compute in Hc, Hr, Hq.
    injection Hc as <-. injection Hr as <-. injection Hq as <-.
    by apply (H (mkExternalBlock fullHeader [4]%N [5]%N [6]%N)).
Defined.

End ResponderFacts.

(** ** The auto-locator *)

Module LocatorFacts.
Import Locator Sample EffFacts.

(** What one of the two loops computes over nodes that all answer:
    either nothing was below the difficulty it started from, or the
    first node of least difficulty. *)
Lemma lowestDifficulty_scan (net : Network) (tier : nat)
    (cs : list Client) (ds : list Z) :
  Forall2 (λ c d, difficultyOf net tier c = Some d) cs ds →
  ∀ i best lowest, ∃ best' lowest',
    result (lowestDifficulty net tier cs i best lowest)
      = Some (best', lowest') ∧
    ((best' = best ∧ lowest' = lowest ∧ Forall (λ d, lowest <= d) ds) ∨
     ∃ k : nat,
       best' = i + 1 + Z.of_nat k ∧ ds !! k = Some lowest' ∧
       lowest' < lowest ∧ Forall (λ d, lowest' <= d) ds ∧
       ∀ j d, (j < k)%nat → ds !! j = Some d → lowest' < d).
Proof.
  induction 1 as [|c d cs ds Hd _ IH]; intros i best lowest.
  - exists best, lowest. split; [done|]. left. by repeat split.
  - cbn [lowestDifficulty]. rewrite result_bind. simpl.
    unfold difficultyOf in Hd.
    destruct (headerByNumber net c) as [h|]; [|done]. simpl in Hd.
    destruct (Difficulty h !! tier) as [[x|]|]; [|done..].
    simpl in Hd. injection Hd as <-.
    destruct (Z.ltb_spec (val x) lowest) as [Hlt|Hge].
    + destruct (IH (i + 1) (i + 1) (val x))
        as (best' & lowest' & E & [(-> & -> & Hall)|(k & -> & Hk & Hlow & Hall & Hfirst)]).
      * exists (i + 1), (val x). split; [done|]. right. exists 0%nat.
        repeat split; try done; try lia; try (by constructor).
      * exists (i + 1 + 1 + Z.of_nat k), lowest'. split; [done|]. right.
        exists (S k). repeat split; try done; try lia;
          try (constructor; [lia | done]).
        intros [|j] d' Hj Hd'; simpl in Hd'.
        -- injection Hd' as <-. done.
        -- apply (Hfirst j); [lia | done].
    + destruct (IH (i + 1) best lowest)
        as (best' & lowest' & E & [(-> & -> & Hall)|(k & -> & Hk & Hlow & Hall & Hfirst)]).
      * exists best, lowest. split; [done|]. left.
        repeat split; try done. by constructor.
      * exists (i + 1 + 1 + Z.of_nat k), lowest'. split; [done|]. right.
        exists (S k). repeat split; try done; try lia;
          try (constructor; [lia | done]).
        intros [|j] d' Hj Hd'; simpl in Hd'.
        -- injection Hd' as <-. lia.
        -- apply (Hfirst j); [lia | done].
Qed.

(** The same loop started from [math.MaxInt] with a difficulty below
    it in sight: the first node of least difficulty, counted from
    one. *)
Lemma lowestDifficulty_first (net : Network) (tier : nat)
    (cs : list Client) (ds : list Z) :
  Forall2 (λ c d, difficultyOf net tier c = Some d) cs ds →
  (∃ d, d ∈ ds ∧ d < MaxInt) →
  ∃ (k : nat) (lowest : Z),
    result (lowestDifficulty net tier cs 0 0 MaxInt)
      = Some (Z.of_nat (S k), lowest) ∧
    ds !! k = Some lowest ∧ (∀ d, d ∈ ds → lowest <= d) ∧
    ∀ j d, (j < k)%nat → ds !! j = Some d → lowest < d.
Proof.
  intros Hds (d & Hd & Hsmall).
  destruct (lowestDifficulty_scan net tier cs ds Hds 0 0 MaxInt)
    as (best' & lowest' & E & [(_ & _ & Hall)|(k & -> & Hk & _ & Hall & Hfirst)]).
  - rewrite Forall_forall in Hall. specialize (Hall d Hd). lia.
  - exists k, lowest'. rewrite E. repeat split; try done.
    + do 2 f_equal. lia.
    + by apply Forall_forall.
Qed.

(** C8, evaluated where it fails: the three region heads carry the
    difficulties 2^63 + 5, 2^63 and 2^63 + 5, REGION 2 being the lowest.
    The search starts from [big.NewInt(math.MaxInt)] and takes a region
    only if its difficulty is below the best seen so far: none is, no
    region is selected, the region index stays 0 and the function panics
    on [zoneClients[-1]] instead of returning the location of the lowest
    difficulty. *)
Theorem findBestLocation_beyond_MaxInt :
  difficultyOf heavy 1 <$> regionClients registry =
    [Some (2 ^ 63 + 5); Some (2 ^ 63); Some (2 ^ 63 + 5)] ∧
  result (lowestDifficulty heavy 1 (regionClients registry) 0 0 MaxInt)
    = Some (0, MaxInt) ∧
  result (findBestLocation registry heavy) = None.
Proof. by vm_compute. Qed.

(** Where the starting value does not get in the way the search finds
    the minimum: when every node answers and some region, and in each
    region some zone, has a difficulty below [math.MaxInt],
    [findBestLocation] returns the location (r, z) where r is the
    1-based index of the first region whose [Difficulty[1]] is minimal
    under signed big-integer comparison, and z the 1-based index of the
    first zone of that region whose [Difficulty[2]] is minimal. *)
Lemma findBestLocation_lowest (cs : orderedBlockClients) (net : Network)
    (regionDifficulties : list Z) :
  Forall2 (λ c d, difficultyOf net 1 c = Some d)
    (regionClients cs) regionDifficulties →
  (∃ d, d ∈ regionDifficulties ∧ d < MaxInt) →
  (length (regionClients cs) ≤ length (zoneClients cs))%nat →
  (length (regionClients cs) < 256)%nat →
  Forall (λ row, (length row < 256)%nat ∧
            ∃ ds, Forall2 (λ c d, difficultyOf net 2 c = Some d) row ds ∧
                  ∃ d, d ∈ ds ∧ d < MaxInt) (zoneClients cs) →
  ∃ (r z : nat) (lowestRegion lowestZone : Z) (row : list Client)
    (zoneDifficulties : list Z),
    result (findBestLocation cs net) = Some [Z.of_nat (S r); Z.of_nat (S z)] ∧
    regionDifficulties !! r = Some lowestRegion ∧
    (∀ d, d ∈ regionDifficulties → lowestRegion <= d) ∧
    (∀ j d, (j < r)%nat → regionDifficulties !! j = Some d → lowestRegion < d) ∧
    zoneClients cs !! r = Some row ∧
    Forall2 (λ c d, difficultyOf net 2 c = Some d) row zoneDifficulties ∧
    zoneDifficulties !! z = Some lowestZone ∧
    (∀ d, d ∈ zoneDifficulties → lowestZone <= d) ∧
    (∀ j d, (j < z)%nat → zoneDifficulties !! j = Some d → lowestZone < d).
Proof.
  intros Hregions Hsome Hlen Hbytes Hzones.
  destruct (lowestDifficulty_first net 1 _ _ Hregions Hsome)
    as (r & lowestRegion & Er & Hr & Hrmin & Hrfirst).
  assert (r < length (regionClients cs))%nat as Hrlt.
  { rewrite (Forall2_length _ _ _ Hregions). by eapply lookup_lt_Some. }
  destruct (lookup_lt_is_Some_2 (zoneClients cs) r) as [row Hrow]; [lia|].
  rewrite Forall_forall in Hzones.
  destruct (Hzones row) as (Hrowlen & zds & Hzds & Hzsome).
  { apply list_elem_of_lookup. eauto. }
  destruct (lowestDifficulty_first net 2 _ _ Hzds Hzsome)
    as (z & lowestZone & Ez & Hz & Hzmin & Hzfirst).
  assert (z < length row)%nat as Hzlt.
  { rewrite (Forall2_length _ _ _ Hzds). by eapply lookup_lt_Some. }
  exists r, z, lowestRegion, lowestZone, row, zds.
  repeat split; try done.
  unfold findBestLocation. rewrite result_bind, Er. simpl.
  rewrite result_bind.
  rewrite (index_lookup (zoneClients cs) _ row); [|lia|].
  2:{ replace (Z.to_nat (Z.of_nat (S r) - 1)) with r by lia. done. }
  simpl. rewrite result_bind, Ez. simpl.
  rewrite !Z.mod_small by lia. done.
Qed.

Lemma findBestLocation_lowest_witness :
  ∃ (r z : nat) (lowestRegion lowestZone : Z) (row : list Client)
    (zoneDifficulties : list Z),
    result (findBestLocation registry ordinary)
      = Some [Z.of_nat (S r); Z.of_nat (S z)] ∧
    [50; 50; 40] !! r = Some lowestRegion ∧
    (∀ d, d ∈ [50; 50; 40] → lowestRegion <= d) ∧
    (∀ j d, (j < r)%nat → [50; 50; 40] !! j = Some d → lowestRegion < d) ∧
    zoneClients registry !! r = Some row ∧
    Forall2 (λ c d, difficultyOf ordinary 2 c = Some d) row zoneDifficulties ∧
    zoneDifficulties !! z = Some lowestZone ∧
    (∀ d, d ∈ zoneDifficulties → lowestZone <= d) ∧
    (∀ j d, (j < z)%nat → zoneDifficulties !! j = Some d → lowestZone < d).
Proof.
  apply (findBestLocation_lowest registry ordinary [50; 50; 40]).
  - by repeat constructor.
  - exists 40. split; [|by vm_compute]. by repeat constructor.
  - simpl. lia.
  - simpl. lia.
  - repeat constructor; simpl; try lia.
    + exists [7; 7; 7]. split; [by repeat constructor|].
      exists 7. split; [by repeat constructor | by vm_compute].
    + exists [7; 7; 7]. split; [by repeat constructor|].
      exists 7. split; [by repeat constructor | by vm_compute].
    + exists [7; 6; 7]. split; [by repeat constructor|].
      exists 6. split; [by repeat constructor | by vm_compute].
Defined.

Lemma findBestLocation_sample :
  result (findBestLocation registry ordinary) = Some [3; 2].
Proof. by vm_compute. Qed.

End LocatorFacts.

(** ** More on the result dispatcher *)

Module DispatcherMore.
Import Responder Dispatcher DispatcherSpec Sample EffFacts DispatcherFacts.

Lemma Eff_eq {A} (x y : Eff A) :
  events x = events y → result x = result y → x = y.
Proof. destruct x, y. simpl. by intros -> ->. Qed.

(** *** The reachability check *)

Lemma pinged_app (net : Network) (l1 l2 : list Client) :
  pinged net (l1 ++ l2) =
    if forallb (answers net) l1 then l1 ++ pinged net l2 else pinged net l1.
Proof.
  induction l1 as [|c l1 IH]; simpl; [done|].
  destruct (answers net c); simpl; [|done]. rewrite IH.
  by destruct (forallb (answers net) l1).
Qed.

Lemma pinged_all (net : Network) (l : list Client) :
  forallb (answers net) l = true → pinged net l = l.
Proof.
  induction l as [|c l IH]; simpl; [done|].
  intros [-> Hl]%andb_prop. by rewrite IH.
Qed.

Lemma allOnline_pinged (net : Network) (cs : list Client) :
  allOnline net cs =
    mkEff (EvHeaderByNumber <$> pinged net cs)
      (Some (forallb (answers net) cs)).
Proof.
  induction cs as [|c cs IH]; [done|].
  cbn [allOnline pinged forallb]. unfold checkConnection. rewrite IH.
  destruct (answers net c) eqn:Hc; unfold answers in Hc;
    destruct (headerByNumber net c); try done.
Qed.

Lemma allChainsOnline_spec (m : Manager) (net : Network) :
  allChainsOnline m net =
    mkEff (EvHeaderByNumber <$> pinged net (everyClient (clients m)))
      (Some (forallb (answers net) (everyClient (clients m)))).
Proof.
  unfold allChainsOnline, everyClient, checkConnection.
  rewrite !allOnline_pinged.
  cbn [pinged forallb]. rewrite pinged_app, forallb_app.
  destruct (answers net (primeClient (clients m))) eqn:Hc; unfold answers in Hc;
    destruct (headerByNumber net (primeClient (clients m))); try done.
  destruct (forallb (answers net) (regionClients (clients m))) eqn:Hr.
  - apply Eff_eq; [|done]. cbn. rewrite fmap_app.
    by rewrite (pinged_all net _ Hr).
  - apply Eff_eq; [|done]. cbn. by rewrite app_nil_r.
Qed.

(** [allChainsOnline] never panics; it answers true exactly when every
    client of the registry answers [HeaderByNumber], and it has pinged
    the clients in registry order up to and including the first that
    does not. *)
Theorem allChainsOnline_pinged (m : Manager) (net : Network) :
  allChainsOnline m net =
    mkEff (EvHeaderByNumber <$> pinged net (everyClient (clients m)))
      (Some (forallb (answers net) (everyClient (clients m)))).
Proof. apply allChainsOnline_spec. Qed.

(** *** Who is sent an external block *)

Lemma others_cons {A} (k : Z) (x : A) (l : list A) :
  others k (x :: l) =
    if k =? 0 then l else if 0 <? k then x :: others (k - 1) l else x :: l.
Proof.
  unfold others.
  destruct (Z.eqb_spec k 0) as [->|Hk]; [done|].
  destruct (Z.ltb_spec 0 k).
  - destruct (Z.leb_spec 0 k); [|lia]. destruct (Z.leb_spec 0 (k - 1)); [|lia].
    replace (Z.to_nat k) with (S (Z.to_nat (k - 1))) by lia. done.
  - by destruct (Z.leb_spec 0 k); [lia|].
Qed.

Lemma others_nil {A} (k : Z) : others k (@nil A) = [].
Proof. unfold others. destruct (0 <=? k); [|done]. by rewrite take_nil, drop_nil. Qed.

Lemma others_negative {A} (k : Z) (l : list A) : k < 0 → others k l = l.
Proof. intros Hk. unfold others. by destruct (Z.leb_spec 0 k); [lia|]. Qed.

Section FanOut.
Context (E : Client → Event) (r z : Z).

Lemma regions_loop (l : list Client) (i0 : Z) :
  forRange (λ i blockClient,
      l0 ← index [r; z] 0;
      let miningRegion := l0 - 1 =? i in
      when (negb miningRegion) (emit (E blockClient))) i0 l =
    mkEff (E <$> others (r - 1 - i0) l) (Some ()).
Proof.
  revert i0. induction l as [|c l IH]; intros i0.
  - by rewrite others_nil.
  - cbn [forRange]. change (index [r; z] 0) with (mret (M := Eff) r).
    rewrite bind_ret, IH, others_cons. cbv zeta.
    replace (r - 1 - (i0 + 1)) with (r - 1 - i0 - 1) by lia.
    destruct (Z.eqb_spec (r - 1) i0) as [Heq|Hne].
    + destruct (Z.eqb_spec (r - 1 - i0) 0); [|lia].
      rewrite others_negative by lia. done.
    + destruct (Z.eqb_spec (r - 1 - i0) 0); [lia|].
      destruct (Z.ltb_spec 0 (r - 1 - i0)); [done|].
      rewrite others_negative by lia. done.
Qed.

Lemma zone_row_loop (i : Z) (row : list Client) (j0 : Z) :
  forRange (λ j blockClient,
      l0 ← index [r; z] 0;
      miningZone ←
        (if l0 - 1 =? i then l1 ← index [r; z] 1; mret (l1 - 1 =? j)
         else mret false);
      when (negb miningZone) (emit (E blockClient))) j0 row =
    mkEff (E <$> (if r - 1 =? i then others (z - 1 - j0) row else row))
      (Some ()).
Proof.
  revert j0. induction row as [|c row IH]; intros j0.
  - rewrite others_nil. by destruct (r - 1 =? i).
  - cbn [forRange]. change (index [r; z] 0) with (mret (M := Eff) r).
    change (index [r; z] 1) with (mret (M := Eff) z).
    rewrite bind_ret, IH.
    destruct (Z.eqb_spec (r - 1) i) as [Heq|Hne]; [|by rewrite bind_ret].
    rewrite !bind_ret, others_cons.
    replace (z - 1 - (j0 + 1)) with (z - 1 - j0 - 1) by lia.
    destruct (Z.eqb_spec (z - 1) j0) as [Hz|Hz].
    + destruct (Z.eqb_spec (z - 1 - j0) 0); [|lia].
      rewrite others_negative by lia. done.
    + destruct (Z.eqb_spec (z - 1 - j0) 0); [lia|].
      destruct (Z.ltb_spec 0 (z - 1 - j0)); [done|].
      rewrite others_negative by lia. done.
Qed.

Lemma zones_loop (rows : list (list Client)) (i0 : Z) :
  forRange (λ i row,
      forRange (λ j blockClient,
          l0 ← index [r; z] 0;
          miningZone ←
            (if l0 - 1 =? i then l1 ← index [r; z] 1; mret (l1 - 1 =? j)
             else mret false);
          when (negb miningZone) (emit (E blockClient))) 0 row) i0 rows =
    mkEff (E <$> (if 0 <=? r - 1 - i0
                  then match rows !! Z.to_nat (r - 1 - i0) with
                       | Some row =>
                           concat (take (Z.to_nat (r - 1 - i0)) rows) ++
                           others (z - 1) row ++
                           concat (drop (S (Z.to_nat (r - 1 - i0))) rows)
                       | None => concat rows
                       end
                  else concat rows)) (Some ()).
Proof.
  revert i0. induction rows as [|row rows IH]; intros i0.
  - by destruct (0 <=? r - 1 - i0).
  - cbn [forRange]. rewrite zone_row_loop, IH. apply Eff_eq; [|done].
    cbn. rewrite <- fmap_app. f_equal. rewrite Z.sub_0_r.
    replace (r - 1 - (i0 + 1)) with (r - 1 - i0 - 1) by lia.
    destruct (Z.eqb_spec (r - 1) i0) as [Heq|Hne].
    + replace (r - 1 - i0) with 0 by lia. simpl.
      by rewrite drop_0.
    + destruct (Z.leb_spec 0 (r - 1 - i0 - 1)).
      * destruct (Z.leb_spec 0 (r - 1 - i0)); [|lia].
        replace (Z.to_nat (r - 1 - i0)) with (S (Z.to_nat (r - 1 - i0 - 1)))
          by lia.
        simpl. destruct (rows !! Z.to_nat (r - 1 - i0 - 1)); [|done].
        by rewrite <- !app_assoc.
      * by destruct (Z.leb_spec 0 (r - 1 - i0)); [lia|].
Qed.
End FanOut.

Lemma flag_slot (l : list bool) (b : Z) :
  length l = 3%nat → 1 <= b <= 3 →
  index l (byte_pred b) = mret (default false (l !! Z.to_nat (b - 1))).
Proof.
  intros Hl Hb. destruct (index_slot l b Hl Hb) as (x & -> & ->). done.
Qed.

Lemma mining_loop (m : Manager) (E : Client → Event) (r z : Z)
    (ctxs : list Z) (i0 : Z) :
  shaped (clients m) → flagged (clients m) → 1 <= r <= 3 → 1 <= z <= 3 →
  let cs := clients m in
  forRange (λ _ ctx,
      when ((ctx =? 0) && primeAvailable cs) (emit (E (primeClient cs)));;
      when (ctx =? 1)
        (l0 ← index [r; z] 0;
         available ← index (regionsAvailable cs) (byte_pred l0);
         when available
           (client ← index (regionClients cs) (byte_pred l0);
            emit (E client)));;
      when (ctx =? 2)
        (l0 ← index [r; z] 0;
         row ← index (zonesAvailable cs) (byte_pred l0);
         l1 ← index [r; z] 1;
         available ← index row (byte_pred l1);
         when available
           (l0 ← index [r; z] 0;
            row ← index (zoneClients cs) (byte_pred l0);
            l1 ← index [r; z] 1;
            client ← index row (byte_pred l1);
            emit (E client)))) i0 ctxs =
    mkEff (E <$> concat (map (miningTarget cs r z) ctxs)) (Some ()).
Proof.
  intros (Hrc & Hzc & Hzrows) (Hra & Hza & Hzarows) Hr Hz cs. subst cs.
  set (cs := clients m) in *.
  destruct (index_slot (regionClients cs) r Hrc Hr) as (rc & Erc & Hrc').
  destruct (index_slot (zoneClients cs) r Hzc Hr) as (row & Erow & Hrow).
  assert (length row = 3%nat) as Hlen.
  { rewrite Forall_forall in Hzrows. apply Hzrows.
    apply list_elem_of_lookup. eauto. }
  destruct (index_slot row z Hlen Hz) as (zc & Ezc & Hzc').
  destruct (index_slot (zonesAvailable cs) r Hza Hr) as (arow & Earow & Harow).
  assert (length arow = 3%nat) as Halen.
  { rewrite Forall_forall in Hzarows. apply Hzarows.
    apply list_elem_of_lookup. eauto. }
  revert i0. induction ctxs as [|ctx ctxs IH]; intros i0; [done|].
  cbn [forRange map concat]. rewrite IH, fmap_app.
  change (index [r; z] 0) with (mret (M := Eff) r).
  change (index [r; z] 1) with (mret (M := Eff) z).
  rewrite !bind_ret, (flag_slot _ r Hra Hr), Earow, !bind_ret.
  rewrite (flag_slot _ z Halen Hz), Erc, Erow, !bind_ret, Ezc.
  unfold miningTarget, availableAt, nodeAt.
  rewrite Harow, Hrc', Hrow. simpl.
  destruct (Z.eqb_spec ctx 0) as [->|H0]; simpl.
  { by destruct (primeAvailable cs). }
  destruct (Z.eqb_spec ctx 1) as [->|H1]; simpl.
  { by destruct (default false (regionsAvailable cs !! Z.to_nat (r - 1))). }
  destruct (Z.eqb_spec ctx 2) as [->|H2]; simpl.
  { rewrite Hzc'. by destruct (default false (arow !! Z.to_nat (z - 1))). }
  destruct (Z.leb_spec 0 ctx), (Z.leb_spec ctx 2); simpl; try done. lia.
Qed.

Lemma SendClientsExtBlock_spec (m : Manager) (mined : Z)
    (externalContexts : list Z) (block : Block) (receiptBlock : ReceiptBlock)
    (r z : Z) :
  shaped (clients m) → flagged (clients m) →
  Location (bHeader block) = [r; z] → 1 <= r <= 3 → 1 <= z <= 3 →
  SendClientsExtBlock m mined externalContexts block receiptBlock =
    mkEff ((λ c, EvSendExternalBlock c block (rReceipts receiptBlock) mined)
             <$> fanOut (clients m) r z externalContexts) (Some ()).
Proof.
  intros Hs Hf Hloc Hr Hz. unfold SendClientsExtBlock. rewrite Hloc.
  set (E := λ c, EvSendExternalBlock c block (rReceipts receiptBlock) mined).
  pose proof (mining_loop m E r z externalContexts 0 Hs Hf Hr Hz) as H1.
  pose proof (regions_loop E r z (regionClients (clients m)) 0) as H2.
  pose proof (zones_loop E r z (zoneClients (clients m)) 0) as H3.
  cbv beta zeta in *. unfold E in H1, H2, H3. rewrite H1, H2, H3. fold E.
  apply Eff_eq; [|done]. cbn. unfold fanOut, zonesExcept.
  rewrite !fmap_app, !Z.sub_0_r.
  by destruct (Z.leb_spec 0 (r - 1)); [|lia].
Qed.

(** In a registry of the deployed layout, an external block mined at the
    zone location (r, z) is sent, without panic and in this order, to the
    node of the mining slice that each entry of [externalContexts]
    selects (if flagged available), then to every region but the mining
    one and to every zone but the mining one, whatever
    [externalContexts] is; every send carries the same block, the pending
    block's receipts and the tier it was mined at. *)
Theorem SendClientsExtBlock_fanOut (m : Manager) (mined : Z)
    (externalContexts : list Z) (block : Block) (receiptBlock : ReceiptBlock)
    (r z : Z) :
  shaped (clients m) → flagged (clients m) →
  Location (bHeader block) = [r; z] → 1 <= r <= 3 → 1 <= z <= 3 →
  SendClientsExtBlock m mined externalContexts block receiptBlock =
    mkEff ((λ c, EvSendExternalBlock c block (rReceipts receiptBlock) mined)
             <$> fanOut (clients m) r z externalContexts) (Some ()).
Proof. apply SendClientsExtBlock_spec. Qed.

Lemma flagged_sample : flagged registry.
Proof. repeat split. by repeat constructor. Qed.

Lemma SendClientsExtBlock_fanOut_witness :
  SendClientsExtBlock fullManager 2 [0; 1] (mkBlock fullHeader [4]%N [5]%N)
    nextHeight =
    mkEff ((λ c, EvSendExternalBlock c (mkBlock fullHeader [4]%N [5]%N)
                   (rReceipts nextHeight) 2)
             <$> [100; 110; 120; 130; 112; 113; 121; 122; 123; 131; 132; 133]%N)
      (Some ()).
Proof.
  apply (SendClientsExtBlock_fanOut fullManager 2 [0; 1] _ nextHeight 1 1).
  - apply ResponderFacts.shaped_sample.
  - apply flagged_sample.
  - reflexivity.
  - lia.
  - lia.
Defined.

(** *** No echo *)

Lemma elem_of_others {A} (k : Z) (l : list A) (x : A) :
  x ∈ others k l → x ∈ l.
Proof.
  unfold others. destruct (0 <=? k); [|done].
  intros [H|H]%elem_of_app.
  - rewrite <- (take_drop (Z.to_nat k) l). apply elem_of_app. by left.
  - rewrite <- (take_drop (S (Z.to_nat k)) l). apply elem_of_app. by right.
Qed.

Lemma others_skips {A} (k : nat) (l : list A) (x : A) :
  NoDup l → l !! k = Some x → x ∉ others (Z.of_nat k) l.
Proof.
  intros Hnd Hk. unfold others.
  destruct (Z.leb_spec 0 (Z.of_nat k)); [|lia]. rewrite Nat2Z.id.
  rewrite <- (take_drop_middle l k x Hk) in Hnd.
  apply NoDup_app in Hnd as (_ & Hdisj & Hnd).
  apply NoDup_cons in Hnd as [Hx _].
  intros [Hin|Hin]%elem_of_app; [|done].
  apply (Hdisj x Hin). left.
Qed.

Lemma elem_of_concat {A} (x : A) (ls : list (list A)) :
  x ∈ concat ls ↔ ∃ l, x ∈ l ∧ l ∈ ls.
Proof.
  induction ls as [|l ls IH]; simpl.
  - split; [by intros ?%elem_of_nil|]. by intros (l & _ & ?%elem_of_nil).
  - rewrite elem_of_app, IH. split.
    + intros [?|(l' & ? & ?)]; [exists l|exists l']; split; auto;
        [left|by right].
    + intros (l' & Hx & [->|?]%elem_of_cons); [by left|right; eauto].
Qed.

Lemma elem_of_zonesExcept (r z : Z) (rows : list (list Client)) (x : Client) :
  x ∈ zonesExcept r z rows → x ∈ concat rows.
Proof.
  unfold zonesExcept.
  destruct (rows !! Z.to_nat (r - 1)) as [row|] eqn:Hrow; [|done].
  rewrite <- (take_drop_middle rows _ row Hrow) at 3.
  rewrite concat_app. simpl. rewrite !elem_of_app.
  intros [?|[?%elem_of_others|?]]; auto.
Qed.

Lemma zonesExcept_skips (r z : Z) (rows : list (list Client))
    (row : list Client) (x : Client) :
  1 <= r → 1 <= z → NoDup (concat rows) →
  rows !! Z.to_nat (r - 1) = Some row → row !! Z.to_nat (z - 1) = Some x →
  x ∉ zonesExcept r z rows.
Proof.
  intros Hr Hz Hnd Hrow Hx. unfold zonesExcept. rewrite Hrow.
  rewrite <- (take_drop_middle rows _ row Hrow) in Hnd.
  rewrite concat_app in Hnd. simpl in Hnd.
  apply NoDup_app in Hnd as (_ & Hdisj & Hnd).
  apply NoDup_app in Hnd as (Hndrow & Hdisj' & _).
  assert (x ∈ row) as Hin by (apply list_elem_of_lookup; eauto).
  rewrite !elem_of_app. intros [H|[H|H]].
  - apply (Hdisj x H). apply elem_of_app. by left.
  - revert H. replace (z - 1) with (Z.of_nat (Z.to_nat (z - 1))) by lia.
    by apply others_skips.
  - by apply (Hdisj' x Hin).
Qed.

(** With the clients of the registry all distinct, the node that mined
    the block is never sent it back: for a tier absent from
    [externalContexts], the node of that tier at the block's location
    gets no [SendExternalBlock]; and every other region and zone gets
    one whatever [externalContexts] says. *)
Theorem SendClientsExtBlock_no_echo (m : Manager) (mined : Z)
    (externalContexts : list Z) (block : Block) (receiptBlock : ReceiptBlock)
    (r z ctx : Z) (origin : Client) :
  shaped (clients m) → flagged (clients m) →
  NoDup (everyClient (clients m)) →
  Location (bHeader block) = [r; z] → 1 <= r <= 3 → 1 <= z <= 3 →
  0 <= ctx <= 2 → ctx ∉ externalContexts →
  nodeAt (clients m) ctx r z = Some origin →
  let sent :=
    events (SendClientsExtBlock m mined externalContexts block receiptBlock) in
  (∀ b receipts c, EvSendExternalBlock origin b receipts c ∉ sent) ∧
  (∀ client,
     client ∈ regionClients (clients m) ++ concat (zoneClients (clients m)) →
     nodeAt (clients m) 1 r z ≠ Some client →
     nodeAt (clients m) 2 r z ≠ Some client →
     EvSendExternalBlock client block (rReceipts receiptBlock) mined ∈ sent).
Proof.
  intros Hs Hf Hnd Hloc Hr Hz Hctx Hnotin Horigin sent. subst sent.
  rewrite (SendClientsExtBlock_spec m mined externalContexts block
             receiptBlock r z Hs Hf Hloc Hr Hz). simpl.
  destruct Hs as (Hrc & Hzc & Hzrows).
  destruct (lookup_lt_is_Some_2 (regionClients (clients m)) (Z.to_nat (r - 1)))
    as [rc Hrc']; [lia|].
  destruct (lookup_lt_is_Some_2 (zoneClients (clients m)) (Z.to_nat (r - 1)))
    as [row Hrow]; [lia|].
  assert (length row = 3%nat) as Hlen.
  { rewrite Forall_forall in Hzrows. apply Hzrows.
    apply list_elem_of_lookup. eauto. }
  destruct (lookup_lt_is_Some_2 row (Z.to_nat (z - 1))) as [zc Hzc']; [lia|].
  unfold everyClient in Hnd.
  apply NoDup_cons in Hnd as [Hprime Hnd].
  apply NoDup_app in Hnd as (Hndr & Hdisj & Hndz).
  assert (rc ∈ regionClients (clients m)) as Hrcin
    by (apply list_elem_of_lookup; eauto).
  assert (zc ∈ concat (zoneClients (clients m))) as Hzcin.
  { apply elem_of_concat. exists row. split; apply list_elem_of_lookup; eauto. }
  assert (∀ c x, 0 <= c <= 2 → nodeAt (clients m) c r z = Some x →
                 (c = 0 ∧ x = primeClient (clients m)) ∨ (c = 1 ∧ x = rc) ∨
                 (c = 2 ∧ x = zc)) as Hnode.
  { intros c x Hc. unfold nodeAt. rewrite Hrc', Hrow. simpl. rewrite Hzc'.
    assert (c = 0 ∨ c = 1 ∨ c = 2) as [-> | [-> | ->]] by lia; simpl;
      intros [= <-]; auto. }
  split.
  - intros b receipts c Hin.
    apply list_elem_of_fmap in Hin as (x & [= <- _ _ _] & Hin).
    unfold fanOut in Hin. rewrite !elem_of_app in Hin.
    destruct (Hnode ctx origin Hctx Horigin)
      as [(-> & ->)|[(-> & ->)|(-> & ->)]];
      destruct Hin as [Hin|[Hin|Hin]].
    + apply elem_of_concat in Hin as (t & Hin & Ht).
      apply list_elem_of_fmap in Ht as (c' & -> & Hc').
      unfold miningTarget in Hin.
      destruct (Z.leb_spec 0 c'), (Z.leb_spec c' 2); simpl in Hin;
        try (by apply elem_of_nil in Hin).
      destruct (availableAt (clients m) c' r z);
        [|by apply elem_of_nil in Hin].
      destruct (nodeAt (clients m) c' r z) as [y|] eqn:Hy;
        [|by apply elem_of_nil in Hin].
      apply list_elem_of_singleton in Hin as <-.
      destruct (Hnode c' _ ltac:(lia) Hy) as [(-> & _)|[(-> & E)|(-> & E)]];
        [done| |]; apply Hprime, elem_of_app; rewrite E; auto.
    + apply elem_of_others in Hin. apply Hprime, elem_of_app. auto.
    + apply elem_of_zonesExcept in Hin. apply Hprime, elem_of_app. auto.
    + apply elem_of_concat in Hin as (t & Hin & Ht).
      apply list_elem_of_fmap in Ht as (c' & -> & Hc').
      unfold miningTarget in Hin.
      destruct (Z.leb_spec 0 c'), (Z.leb_spec c' 2); simpl in Hin;
        try (by apply elem_of_nil in Hin).
      destruct (availableAt (clients m) c' r z);
        [|by apply elem_of_nil in Hin].
      destruct (nodeAt (clients m) c' r z) as [y|] eqn:Hy;
        [|by apply elem_of_nil in Hin].
      apply list_elem_of_singleton in Hin as <-.
      destruct (Hnode c' _ ltac:(lia) Hy) as [(-> & E)|[(-> & _)|(-> & E)]];
        [|done|].
      * apply Hprime, elem_of_app. rewrite <- E. auto.
      * apply (Hdisj rc Hrcin). by rewrite E.
    + revert Hin. replace (r - 1) with (Z.of_nat (Z.to_nat (r - 1))) by lia.
      by apply others_skips.
    + apply elem_of_zonesExcept in Hin. by apply (Hdisj rc Hrcin).
    + apply elem_of_concat in Hin as (t & Hin & Ht).
      apply list_elem_of_fmap in Ht as (c' & -> & Hc').
      unfold miningTarget in Hin.
      destruct (Z.leb_spec 0 c'), (Z.leb_spec c' 2); simpl in Hin;
        try (by apply elem_of_nil in Hin).
      destruct (availableAt (clients m) c' r z);
        [|by apply elem_of_nil in Hin].
      destruct (nodeAt (clients m) c' r z) as [y|] eqn:Hy;
        [|by apply elem_of_nil in Hin].
      apply list_elem_of_singleton in Hin as <-.
      destruct (Hnode c' _ ltac:(lia) Hy) as [(-> & E)|[(-> & E)|(-> & _)]];
        [| |done].
      * apply Hprime, elem_of_app. rewrite <- E. auto.
      * apply (Hdisj rc Hrcin). by rewrite <- E.
    + apply elem_of_others in Hin. by apply (Hdisj zc Hin).
    + revert Hin. apply (zonesExcept_skips r z _ row); [lia|lia|done..].
  - intros client Hclient Hnr Hnz.
    apply list_elem_of_fmap. exists client. split; [done|].
    unfold fanOut. rewrite !elem_of_app. right.
    assert (nodeAt (clients m) 1 r z = Some rc) as Enr
      by (unfold nodeAt; simpl; done).
    assert (nodeAt (clients m) 2 r z = Some zc) as Enz
      by (unfold nodeAt; simpl; rewrite Hrow; done).
    apply elem_of_app in Hclient as [Hclient|Hclient].
    + left. unfold others. destruct (Z.leb_spec 0 (r - 1)); [|lia].
      rewrite <- (take_drop_middle _ _ rc Hrc') in Hclient.
      rewrite elem_of_app, elem_of_cons in Hclient. rewrite elem_of_app.
      destruct Hclient as [?|[->|?]]; auto. by rewrite Enr in Hnr.
    + right. unfold zonesExcept. rewrite Hrow.
      rewrite <- (take_drop_middle _ _ row Hrow) in Hclient.
      rewrite concat_app in Hclient. simpl in Hclient.
      rewrite !elem_of_app in Hclient. rewrite !elem_of_app.
      destruct Hclient as [?|[Hc|?]]; auto. right. left.
      unfold others. destruct (Z.leb_spec 0 (z - 1)); [|lia].
      rewrite <- (take_drop_middle _ _ zc Hzc') in Hc.
      rewrite elem_of_app, elem_of_cons in Hc. rewrite elem_of_app.
      destruct Hc as [?|[->|?]]; auto. by rewrite Enz in Hnz.
Qed.



Lemma distinct_sample : NoDup (everyClient registry).
Proof. apply (bool_decide_unpack _). by vm_compute. Qed.

Lemma SendClientsExtBlock_no_echo_witness :
  let sent := events (SendClientsExtBlock fullManager 2 [0; 1] heldBlock
                        nextHeight) in
  (∀ b receipts c, EvSendExternalBlock 111%N b receipts c ∉ sent) ∧
  (∀ client,
     client ∈ regionClients registry ++ concat (zoneClients registry) →
     nodeAt registry 1 1 1 ≠ Some client →
     nodeAt registry 2 1 1 ≠ Some client →
     EvSendExternalBlock client heldBlock (rReceipts nextHeight) 2 ∈ sent).
Proof.
  apply (SendClientsExtBlock_no_echo fullManager 2 [0; 1] heldBlock nextHeight
           1 1 2 111%N).
  - apply ResponderFacts.shaped_sample.
  - apply flagged_sample.
  - apply distinct_sample.
  - reflexivity.
  - lia.
  - lia.
  - lia.
  - apply (bool_decide_unpack _). by vm_compute.
  - reflexivity.
Defined.

(** *** The mutex, progress and termination of an iteration *)

Lemma finalHeld_app (h : bool) (p q : list Instr) :
  finalHeld h (p ++ q) = finalHeld (finalHeld h p) q.
Proof. revert h. induction p as [|[] p IH]; intros h; simpl; auto. Qed.

Lemma finalHeld_emits (h : bool) (evs : list Event) :
  finalHeld h (map IEmit evs) = h.
Proof. induction evs; simpl; auto. Qed.

Lemma step_finalHeld (c c' : Config) :
  step c c' →
  finalHeld (held c') (main c') = finalHeld (held c) (main c) ∧
  (IPanic ∈ main c → IPanic ∈ main c').
Proof.
  destruct 1; simpl; (split; [done|]); try done;
    by intros [?|?]%elem_of_cons.
Qed.

Lemma reachable_finalHeld (m : Manager) (net : Network)
    (bundle : HeaderBundle) (c : Config) :
  reachable m net bundle c →
  finalHeld (held c) (main c) = finalHeld false (resultLoop m net bundle) ∧
  (IPanic ∈ resultLoop m net bundle → IPanic ∈ main c).
Proof.
  revert c. apply rtc_ind_r; [done|].
  intros c c' _ Hstep [IH1 IH2].
  destruct (step_finalHeld c c' Hstep) as [H1 H2].
  split; [congruence | auto].
Qed.

Lemma resultLoop_finalHeld (m : Manager) (net : Network)
    (bundle : HeaderBundle) :
  IPanic ∉ resultLoop m net bundle →
  finalHeld false (resultLoop m net bundle) =
    negb (forallb (answers net) (everyClient (clients m))).
Proof.
  unfold resultLoop. rewrite allChainsOnline_spec. cbn [events result].
  intros Hnp. cbn [finalHeld]. rewrite finalHeld_app, finalHeld_emits.
  destruct (forallb (answers net) (everyClient (clients m))); [|done].
  revert Hnp. unfold guarded.
  repeat case_match; try done;
    repeat match goal with H : (_ =? _) = true |- _ => apply Z.eqb_eq in H end;
    try lia;
    intros Hnp; exfalso; apply Hnp, list_elem_of_In; simpl;
    rewrite !in_app_iff; simpl; tauto.
Qed.

(** An iteration of [resultLoop] that runs to its end leaves the
    coordinator mutex unlocked exactly when every chain answered the
    reachability check: the [continue] taken when a chain is offline
    skips [m.lock.Unlock()], so the iteration ends with the mutex still
    held. *)
Theorem resultLoop_unlocks_iff_online (m : Manager) (net : Network)
    (bundle : HeaderBundle) (c : Config) :
  reachable m net bundle c → finished c →
  held c = negb (forallb (answers net) (everyClient (clients m))).
Proof.
  intros Hc [Hmain _].
  destruct (reachable_finalHeld m net bundle c Hc) as [Hfinal Hpanic].
  rewrite Hmain in Hfinal, Hpanic. simpl in Hfinal. rewrite Hfinal.
  apply resultLoop_finalHeld. by intros ?%Hpanic%elem_of_nil.
Qed.

Lemma resultLoop_unlocks_iff_online_witness :
  ∃ c,
    run (replicate 7 None) (initial fullManager zoneDown primeBundle) = Some c ∧
    finished c ∧
    held c = negb (forallb (answers zoneDown) (everyClient registry)) ∧
    held c = true.
Proof.
  destruct (run (replicate 7 None) (initial fullManager zoneDown primeBundle))
    as [c|] eqn:Hrun; [|by vm_compute in Hrun].
  exists c. split; [reflexivity|].
  assert (finished c) as Hfin
    by (vm_compute in Hrun; injection Hrun as <-; by split).
  split; [exact Hfin|].
  pose proof (resultLoop_unlocks_iff_online fullManager zoneDown primeBundle c
                (run_steps _ _ _ Hrun) Hfin) as Hheld.
  split; [exact Hheld|]. rewrite Hheld. reflexivity.
Defined.

Lemma thread_steps (r : list Instr) (ts : list (Eff ())) (n k : nat)
    (h : bool) (t : list Event) (m : Manager) :
  ts ≠ [] → n = (length ts + k)%nat →
  ∃ c', step (mkConfig r ts n h false t m) c'.
Proof.
  destruct ts as [|[[|e es] [[]|]] ts]; [done|..]; intros _ ->; simpl.
  - eexists. apply (step_done r [] ts).
  - eexists. apply (step_crash r [] ts).
  - eexists. apply (step_call r [] e es _ ts).
  - eexists. apply (step_call r [] e es _ ts).
Qed.

(** Within an iteration entered with the mutex free, some goroutine can
    always take a step: every [wg.Wait()] is eventually passed, each
    [wg.Add(1)] being matched by the [wg.Done()] of the goroutine it
    announces. *)
Lemma reachable_progress (m : Manager) (net : Network)
    (bundle : HeaderBundle) (c : Config) :
  reachable m net bundle c → crashed c = false → ¬ finished c →
  ∃ c', step c c'.
Proof.
  intros Hc Hcr Hnf. apply reachable_ordered in Hc.
  destruct Hc as (eg & mode & lo & Hadm & Hwg & Hq & _ & _ & Hheld & _).
  destruct c as [p ts n h cr t m']. simpl in *. subst cr.
  destruct p as [|i r].
  - apply (thread_steps [] ts n (if eg then 1 else 0)%nat); [|done].
    intros ->. by apply Hnf.
  - destruct i; simpl in Hadm.
    + destruct eg, mode, h; try done. eexists. apply step_lock.
    + destruct eg, mode, h; try done. eexists. apply step_unlock.
    + eexists. apply step_emit.
    + eexists. apply step_add.
    + eexists. apply step_go.
    + destruct eg; [done|]. destruct ts as [|body ts].
      * subst n. eexists. apply step_wait.
      * by apply (thread_steps _ (body :: ts) n 0%nat).
    + eexists. apply step_panic.
Qed.

Lemma sum_app (l k : list nat) :
  sum_list (l ++ k) = (sum_list l + sum_list k)%nat.
Proof. induction l; simpl; lia. Qed.

Lemma step_measure (c c' : Config) :
  step c c' → (measure c' < measure c)%nat.
Proof.
  destruct 1; unfold measure; simpl;
    rewrite ?map_app, ?sum_app; simpl; lia.
Qed.

Lemma nsteps_measure (n : nat) (c c' : Config) :
  nsteps step n c c' → (n + measure c' ≤ measure c)%nat.
Proof.
  induction 1 as [|n c c1 c' Hstep _ IH]; [lia|].
  apply step_measure in Hstep. lia.
Qed.

Lemma run_nsteps (schedule : list (option nat)) (c c' : Config) :
  run schedule c = Some c' → nsteps step (length schedule) c c'.
Proof.
  revert c. induction schedule as [|[k|] schedule IH]; intros c; simpl.
  - intros [= <-]. constructor.
  - destruct (runThread k c) as [c1|] eqn:H1; [|done]. simpl. intros H.
    eapply nsteps_l; [by eapply runThread_step | by apply IH].
  - destruct (runMain c) as [c1|] eqn:H1; [|done]. simpl. intros H.
    eapply nsteps_l; [by eapply runMain_step | by apply IH].
Qed.

End DispatcherMore.

(** ** The aggregator over a run of deliveries, and the fetcher *)

Module AggregatorMore.
Import Backoff Aggregator AggregatorSpec Sample AggregatorFacts BackoffFacts.

Lemma copy_slot_num (dst src : list BigPtr) (i : nat) :
  length dst = 3%nat → length src = 3%nat → (i < 3)%nat →
  ∃ l, copy_slot dst src i = Some l ∧ length l = 3%nat ∧
       ∀ j, num (l !! j) = if decide (j = i) then num (src !! j)
                           else num (dst !! j).
Proof.
  intros Hd Hs Hi.
  destruct (copy_slot_spec dst src i Hd Hs Hi) as (l & -> & Hl & Hlen & Ho).
  exists l. split; [done|]. split; [done|]. intros j.
  destruct (decide (j = i)) as [->|Hj]; [by rewrite Hl|by rewrite Ho].
Qed.

Lemma copy_slot_at {A} (dst src : list A) (i : nat) :
  length dst = 3%nat → length src = 3%nat → (i < 3)%nat →
  ∃ l, copy_slot dst src i = Some l ∧ length l = 3%nat ∧
       ∀ j, l !! j = if decide (j = i) then src !! j else dst !! j.
Proof.
  intros Hd Hs Hi.
  destruct (copy_slot_spec dst src i Hd Hs Hi) as (l & -> & Hl & Hlen & Ho).
  exists l. split; [done|]. split; [done|]. intros j.
  destruct (decide (j = i)) as [->|Hj]; [by rewrite Hl|by rewrite Ho].
Qed.

(** One update, slot by slot: tier [i] takes the incoming header's
    fields, the other tiers keep theirs. *)
Lemma updateCombinedHeader_slots (m : Manager) (header : Header) (i : nat) :
  (i < 3)%nat → tiered (combinedHeader m) → tiered header →
  ∃ c, updateCombinedHeader m header i =
         Some (mkManager (clients m) c (pendingBlocks m) (location m)) ∧
    tiered c ∧
    (∀ j, slot c j = if decide (j = i) then slot header j
                     else slot (combinedHeader m) j) ∧
    Time c = Z.max (Time (combinedHeader m)) (Time header) ∧
    Location c = location m ∧
    Nonce c = Nonce (combinedHeader m).
Proof.
  intros Hi Hc Hh.
  destruct Hc as (c1 & c2 & c3 & c4 & c5 & c6 & c7 & c8 & c9 & c10 & c11 & c12 & c13 & c14).
  destruct Hh as (h1 & h2 & h3 & h4 & h5 & h6 & h7 & h8 & h9 & h10 & h11 & h12 & h13 & h14).
  destruct (copy_slot_at _ _ i c1 h1 Hi) as (l1 & E1 & L1 & N1).
  destruct (copy_slot_at _ _ i c2 h2 Hi) as (l2 & E2 & L2 & N2).
  destruct (copy_slot_num _ _ i c3 h3 Hi) as (l3 & E3 & L3 & N3).
  destruct (copy_slot_at _ _ i c4 h4 Hi) as (l4 & E4 & L4 & N4).
  destruct (copy_slot_num _ _ i c5 h5 Hi) as (l5 & E5 & L5 & N5).
  destruct (copy_slot_at _ _ i c6 h6 Hi) as (l6 & E6 & L6 & N6).
  destruct (copy_slot_at _ _ i c7 h7 Hi) as (l7 & E7 & L7 & N7).
  destruct (copy_slot_at _ _ i c8 h8 Hi) as (l8 & E8 & L8 & N8).
  destruct (copy_slot_at _ _ i c9 h9 Hi) as (l9 & E9 & L9 & N9).
  destruct (copy_slot_at _ _ i c10 h10 Hi) as (l10 & E10 & L10 & N10).
  destruct (copy_slot_num _ _ i c11 h11 Hi) as (l11 & E11 & L11 & N11).
  destruct (copy_slot_num _ _ i c12 h12 Hi) as (l12 & E12 & L12 & N12).
  destruct (copy_slot_at _ _ i c13 h13 Hi) as (l13 & E13 & L13 & N13).
  destruct (copy_slot_at _ _ i c14 h14 Hi) as (l14 & E14 & L14 & N14).
  unfold updateCombinedHeader.
  rewrite E1, E2, E3, E4, E5, E6, E7, E8, E9, E10, E11, E12, E13, E14.
  simpl. eexists. split; [reflexivity|]. simpl.
  split; [by repeat split|]. split; [|split; [|done]].
  - intros j. unfold slot. simpl.
    rewrite N1, N2, N3, N4, N5, N6, N7, N8, N9, N10, N11, N12, N13, N14.
    by destruct (decide (j = i)).
  - destruct (Z.leb_spec (Time header) (Time (combinedHeader m))); lia.
Qed.

(** One delivery. *)
Lemma loopGlobalBlock_step (m : Manager) (ch i : nat) (block : ReceiptBlock) :
  (i < 3)%nat → tiered (combinedHeader m) → tiered (rHeader block) →
  length (pendingBlocks m) = 3%nat →
  ∃ c header,
    loopGlobalBlock m ch i block =
      Some (mkManager (clients m) c (<[i:=Some block]> (pendingBlocks m))
              (location m), header, (if decide (ch < 10)%nat then S ch else ch)) ∧
    tiered c ∧
    (∀ j, slot c j = if decide (j = i) then slot (rHeader block) j
                     else slot (combinedHeader m) j) ∧
    Time c = Z.max (Time (combinedHeader m)) (Time (rHeader block)) ∧
    Location c = location m ∧
    Nonce c = Nonce (combinedHeader m).
Proof.
  intros Hi Hc Hh Hp.
  destruct (updateCombinedHeader_slots m (rHeader block) i Hi Hc Hh)
    as (c & E & Ht & Hs & Htime & Hloc & Hn).
  exists c. eexists. unfold loopGlobalBlock. rewrite E. simpl.
  unfold store. simpl.
  destruct (decide (i < length (pendingBlocks m))%nat); [|lia]. simpl.
  split; [reflexivity|]. done.
Qed.

(** [loopGlobalBlock] keeps the combined header and the pending blocks
    in step. From a coordinator whose combined header has its three
    tiers and agrees with the pending blocks it holds, and for every
    sequence of blocks received on the three channels (each with a
    three-tier header): the loop never panics; afterwards the combined
    header still has its three tiers and agrees, tier by tier, with the
    header of the pending block held for that tier; the pending block of
    a tier is the last one received for it; the combined time is the
    latest of the old one and the times received; the nonce, the
    registry and the location are untouched; and the queue of updates
    to the miner has grown by one per delivery up to its capacity of
    ten, later updates being dropped. *)
Theorem loopGlobalBlocks_invariant (m : Manager) (updatedCh : nat)
    (received : list (nat * ReceiptBlock)) :
  tiered (combinedHeader m) → length (pendingBlocks m) = 3%nat →
  consistent m →
  Forall (λ d, (d.1 < 3)%nat ∧ tiered (rHeader d.2)) received →
  ∃ m' updatedCh',
    loopGlobalBlocks m updatedCh received = Some (m', updatedCh') ∧
    tiered (combinedHeader m') ∧ consistent m' ∧
    (∀ j d, pendingBlocks m !! j = Some d →
            pendingBlocks m' !! j = Some (lastOf j received d)) ∧
    Time (combinedHeader m') = latestTime (Time (combinedHeader m)) received ∧
    Nonce (combinedHeader m') = Nonce (combinedHeader m) ∧
    clients m' = clients m ∧ location m' = location m ∧
    updatedCh' = (if decide (updatedCh < 10)%nat
                  then (updatedCh + length received) `min` 10
                  else updatedCh)%nat.
Proof.
  intros Hc Hp Hcons Hrec. revert m updatedCh Hc Hp Hcons.
  induction Hrec as [|[i block] received [Hi Hh] _ IH];
    intros m ch Hc Hp Hcons.
  - exists m, ch. simpl. do 8 (split; [done|]).
    destruct (decide (ch < 10)%nat); simpl; lia.
  - simpl in Hi, Hh.
    destruct (loopGlobalBlock_step m ch i block Hi Hc Hh Hp)
      as (c & header & E & Ht & Hs & Htime & Hloc & Hn).
    set (m1 := mkManager (clients m) c (<[i:=Some block]> (pendingBlocks m))
                 (location m)) in *.
    assert (consistent m1) as Hcons1.
    { intros j b. simpl. rewrite Hs.
      destruct (decide (j = i)) as [->|Hj].
      - rewrite list_lookup_insert_eq by lia. by intros [= ->].
      - rewrite list_lookup_insert_ne by done. apply Hcons. }
    destruct (IH m1 (if decide (ch < 10)%nat then S ch else ch) Ht
                ltac:(by simpl; rewrite length_insert) Hcons1)
      as (m' & ch' & E' & Ht' & Hcons' & Hlast & Htime' & Hn' & Hcl & Hl & Hch).
    exists m', ch'. cbn [loopGlobalBlocks]. rewrite E. simpl.
    split; [exact E'|]. split; [done|]. split; [done|].
    split; [|split; [|split; [|split; [done|split; [done|]]]]].
    + intros j d Hj. apply Hlast. simpl.
      destruct (decide (i = j)) as [->|Hne].
      * rewrite list_lookup_insert_eq; [done|].
        apply lookup_lt_is_Some. eauto.
      * by rewrite list_lookup_insert_ne.
    + rewrite Htime'. simpl. by rewrite Htime.
    + by rewrite Hn'.
    + rewrite Hch. simpl. repeat destruct (decide _); lia.
Qed.

Lemma loopGlobalBlocks_invariant_witness :
  ∃ m' updatedCh',
    loopGlobalBlocks (mkManager registry initialHeader (replicate 3 None) [1; 1])
      9 [(0%nat, nextHeight); (2%nat, sameHeight); (0%nat, sameHeight)] =
      Some (m', updatedCh') ∧
    tiered (combinedHeader m') ∧ consistent m' ∧
    (∀ j d, replicate 3 None !! j = Some d →
            pendingBlocks m' !! j =
              Some (lastOf j [(0%nat, nextHeight); (2%nat, sameHeight);
                              (0%nat, sameHeight)] d)) ∧
    Time (combinedHeader m') = 99 ∧
    Nonce (combinedHeader m') = emptyNonce ∧
    clients m' = registry ∧ location m' = [1; 1] ∧
    updatedCh' = 10%nat.
Proof.
  apply (loopGlobalBlocks_invariant
           (mkManager registry initialHeader (replicate 3 None) [1; 1]) 9
           [(0%nat, nextHeight); (2%nat, sameHeight); (0%nat, sameHeight)]).
  - apply initialHeader_tiered.
  - reflexivity.
  - intros [|[|[|j]]] block; simpl; discriminate.
  - repeat constructor; simpl; lia.
Defined.

(** *** The fetcher *)

Lemma retryLoop_returned (conv : Conversion) (client : Client)
    (attempts lastUpdatedAt now : Z) (script : list Answer)
    (acc t : list Event) (receiptBlock : ReceiptBlock) :
  retryLoop conv client attempts lastUpdatedAt now script acc =
    Returned (t, receiptBlock) →
  ∃ k a body,
    script !! k = Some a ∧ answered a = Some receiptBlock ∧
    failed a = false ∧
    (∀ j b, (j < k)%nat → script !! j = Some b → good b = false) ∧
    t = acc ++ body ∧
    Forall (λ e, e = EvGetPendingBlock client ∨ isSleep e = true) body ∧
    fetches body = S k ∧ count isSleep body = k.
Proof.
  revert attempts lastUpdatedAt now acc.
  induction script as [|a script IH]; intros attempts last now acc; [done|].
  simpl. destruct (answered a) as [rb|] eqn:Ha, (failed a) eqn:Hf.
  2:{ intros [= <- <-]. exists 0%nat, a, [EvGetPendingBlock client].
      repeat split; try done; [lia | by repeat constructor; left]. }
  all: intros (k & a' & body & Hk & Ha' & Hf' & Hbad & -> & Hbody & Hn & Hs)%IH;
    exists (S k), a'; eexists ([EvGetPendingBlock client; EvSleep _] ++ body);
    (split; [done|]); (split; [done|]); (split; [done|]);
    (split; [|split; [by rewrite <- !app_assoc|split; [|split]]]);
    [ intros [|j] b Hj; simpl;
        [intros [= <-]; unfold good; by rewrite Ha, ?Hf
        |apply Hbad; lia]
    | constructor; [by left|constructor; [by right|done]]
    | unfold fetches in *; simpl; by rewrite Hn
    | simpl; by rewrite Hs ].
Qed.

Lemma retryLoop_finds (conv : Conversion) (client : Client)
    (attempts lastUpdatedAt now : Z) (script : list Answer)
    (acc : list Event) :
  Exists (λ a, good a = true) script →
  ∃ t receiptBlock,
    retryLoop conv client attempts lastUpdatedAt now script acc =
      Returned (t, receiptBlock).
Proof.
  intros Hex. revert attempts lastUpdatedAt now acc.
  induction script as [|a script IH]; intros attempts last now acc;
    [by apply Exists_nil in Hex|].
  simpl. apply Exists_cons in Hex.
  unfold good in Hex.
  destruct (answered a) as [rb|], (failed a); try (by eexists _, _);
    destruct Hex as [?|Hex]; try done; by apply IH.
Qed.

Lemma staleHeader_defined (m : Manager) (i : nat) (a : Answer) :
  (i < 3)%nat → tiered (combinedHeader m) →
  (∀ receiptBlock, answered a = Some receiptBlock →
                   tiered (rHeader receiptBlock)) →
  ∃ stale, staleHeader m i a = Some stale ∧
           (stale = true → good a = true).
Proof.
  intros Hi Hc Ha. unfold staleHeader, good.
  destruct (answered a) as [rb|]; [|by exists false].
  destruct (Ha rb eq_refl) as (_ & _ & Hn & _).
  destruct Hc as (_ & _ & Hn' & _).
  destruct (lookup_lt_is_Some_2 (Number (rHeader rb)) i) as [p ->]; [lia|].
  destruct (lookup_lt_is_Some_2 (Number (combinedHeader m)) i) as [q ->];
    [lia|].
  simpl. eexists. split; [done|]. destruct (failed a); [|done].
  by rewrite andb_false_r.
Qed.

(** What [fetchPendingBlocks] hands to the aggregator. Whenever it
    delivers a block, that block is the answer to its last
    [GetPendingBlock] call, an answer that was a block without error;
    every answer between the first and the delivered one was a failure;
    the calls it made are one [Lock], then [GetPendingBlock] calls and
    sleeps only, then one [Unlock], so that the coordinator mutex is
    held across every retry and every wait; and it slept once per
    failed attempt of the retry loop, the first fetch and the refetch
    of a stale header not counting. A block found stale is refetched
    once and the second answer is not tested for staleness again. *)
Theorem fetchPendingBlocks_delivers (conv : Conversion) (m : Manager)
    (client : Client) (i : nat) (now : Z) (script : list Answer)
    (t : list Event) (receiptBlock : ReceiptBlock) :
  fetchPendingBlocks conv m client i now script = Returned (t, receiptBlock) →
  ∃ k a body first stale,
    script !! k = Some a ∧ answered a = Some receiptBlock ∧
    failed a = false ∧
    (∀ j b, (1 ≤ j < k)%nat → script !! j = Some b → good b = false) ∧
    t = EvLock :: body ++ [EvUnlock] ∧
    Forall (λ e, e = EvGetPendingBlock client ∨ isSleep e = true) body ∧
    fetches body = S k ∧
    script !! 0%nat = Some first ∧ staleHeader m i first = Some stale ∧
    (k = 0%nat → stale = false) ∧
    count isSleep body = (k - (if stale then 2 else 1))%nat.
Proof.
  destruct script as [|first script]; [done|]. unfold fetchPendingBlocks.
  destruct (staleHeader m i first) as [[|]|] eqn:Hstale; [| |done].
  - destruct script as [|second script]; [done|].
    destruct (answered second) as [rb|] eqn:Ha, (failed second) eqn:Hf.
    2:{ intros [= <- <-]. exists 1%nat, second,
          [EvGetPendingBlock client; EvGetPendingBlock client], first, true.
        repeat split; try done; try lia.
        by repeat constructor; left. }
    all: destruct (retryLoop _ _ _ _ _ _ _) as [[t' rb']| |] eqn:Hloop;
      [|done|done]; intros [= <- <-];
      apply retryLoop_returned in Hloop
        as (k & a & body & Hk & Ha' & Hf' & Hbad & -> & Hbody & Hn & Hs);
      exists (S (S k)), a,
        ([EvGetPendingBlock client; EvGetPendingBlock client] ++ body),
        first, true;
      (split; [done|]); (split; [done|]); (split; [done|]);
      (split; [|split; [done|split; [|split; [|split; [done|split;
        [done|split; [done|]]]]]]]);
      [ intros [|[|j]] b Hj; simpl; [lia| |apply Hbad; lia];
          intros [= <-]; unfold good; by rewrite Ha, ?Hf
      | constructor; [by left|constructor; [by left|done]]
      | unfold fetches in *; simpl; by rewrite Hn
      | simpl; rewrite Hs; lia ].
  - destruct (answered first) as [rb|] eqn:Ha, (failed first) eqn:Hf.
    2:{ intros [= <- <-]. exists 0%nat, first, [EvGetPendingBlock client],
          first, false.
        repeat split; try done; try lia.
        by repeat constructor; left. }
    all: destruct (retryLoop _ _ _ _ _ _ _) as [[t' rb']| |] eqn:Hloop;
      [|done|done]; intros [= <- <-];
      apply retryLoop_returned in Hloop
        as (k & a & body & Hk & Ha' & Hf' & Hbad & -> & Hbody & Hn & Hs);
      exists (S k), a, ([EvGetPendingBlock client] ++ body), first, false;
      (split; [done|]); (split; [done|]); (split; [done|]);
      (split; [|split; [done|split; [|split; [|split; [done|split;
        [done|split; [done|]]]]]]]);
      [ intros [|j] b Hj; simpl; [lia|apply Hbad; lia]
      | constructor; [by left|done]
      | unfold fetches in *; simpl; by rewrite Hn
      | simpl; rewrite Hs; lia ].
Qed.

Lemma fetchPendingBlocks_delivers_witness :
  ∃ k a body first stale,
    [mkAnswer 5 None true; mkAnswer 5 None false;
     mkAnswer 5 (Some nextHeight) true;
     mkAnswer 5 (Some nextHeight) false] !! k = Some a ∧
    answered a = Some nextHeight ∧ failed a = false ∧
    (∀ j b, (1 ≤ j < k)%nat →
       [mkAnswer 5 None true; mkAnswer 5 None false;
        mkAnswer 5 (Some nextHeight) true;
        mkAnswer 5 (Some nextHeight) false] !! j = Some b → good b = false) ∧
    [EvLock; EvGetPendingBlock 100%N;
     EvGetPendingBlock 100%N; EvSleep 0;
     EvGetPendingBlock 100%N; EvSleep 1;
     EvGetPendingBlock 100%N; EvUnlock] = EvLock :: body ++ [EvUnlock] ∧
    Forall (λ e, e = EvGetPendingBlock 100%N ∨ isSleep e = true) body ∧
    fetches body = S k ∧
    [mkAnswer 5 None true; mkAnswer 5 None false;
     mkAnswer 5 (Some nextHeight) true;
     mkAnswer 5 (Some nextHeight) false] !! 0%nat = Some first ∧
    staleHeader manager 0 first = Some stale ∧
    (k = 0%nat → stale = false) ∧
    count isSleep body = (k - (if stale then 2 else 1))%nat.
Proof.
  apply (fetchPendingBlocks_delivers amd64 manager 100%N 0 0).
  by vm_compute.
Defined.

(** [fetchPendingBlocks] does deliver: with three-tier headers it never
    panics, and as soon as some answer after the first is a block
    without error it returns one, having released the mutex. *)
Theorem fetchPendingBlocks_returns (conv : Conversion) (m : Manager)
    (client : Client) (i : nat) (now : Z) (first : Answer)
    (script : list Answer) :
  (i < 3)%nat → tiered (combinedHeader m) →
  (∀ receiptBlock, answered first = Some receiptBlock →
                   tiered (rHeader receiptBlock)) →
  Exists (λ a, good a = true) script →
  ∃ t receiptBlock,
    fetchPendingBlocks conv m client i now (first :: script) =
      Returned (t ++ [EvUnlock], receiptBlock).
Proof.
  intros Hi Hc Hfirst Hex. unfold fetchPendingBlocks.
  destruct (staleHeader_defined m i first Hi Hc Hfirst)
    as (stale & -> & Hgood).
  destruct stale.
  - destruct script as [|second script]; [by apply Exists_nil in Hex|].
    apply Exists_cons in Hex. unfold good in Hex.
    destruct (answered second) as [rb|], (failed second);
      try (by eexists _, _);
      (destruct Hex as [?|Hex]; [done|]);
      edestruct (retryLoop_finds conv client) as (t & rb' & ->);
      try exact Hex; by eexists _, _.
  - unfold good in Hgood.
    destruct (answered first) as [rb|], (failed first);
      try (by eexists _, _);
      edestruct (retryLoop_finds conv client) as (t & rb' & ->);
      try exact Hex; by eexists _, _.
Qed.

Lemma fetchPendingBlocks_returns_witness :
  ∃ t receiptBlock,
    fetchPendingBlocks arm64 manager 100%N 0 0
      [mkAnswer 5 None true; mkAnswer 5 None false;
       mkAnswer 5 (Some nextHeight) false] =
      Returned (t ++ [EvUnlock], receiptBlock).
Proof.
  apply (fetchPendingBlocks_returns arm64 manager 100%N 0 0).
  - lia.
  - apply tiered_sample.
  - discriminate.
  - apply Exists_cons. right. apply Exists_cons. by left.
Defined.

Lemma delaySecs_bounded (conv : Conversion) (n : Z) :
  1 <= n <= 63 → 0 <= delaySecs conv n <= exponentialBackoffCeilingSecs.
Proof.
  intros Hn. rewrite (delaySecs_in_range conv n Hn).
  unfold spec_delay, exponentialBackoffCeilingSecs.
  assert (0 < 2 ^ n) by (apply Z.pow_pos_nonneg; lia).
  assert (0 <= (2 ^ n - 1) / 2) by (apply Z.div_pos; lia).
  lia.
Qed.

Lemma retryLoop_bounded (conv : Conversion) (client : Client)
    (attempts lastUpdatedAt now : Z) (script : list Answer)
    (acc t : list Event) (receiptBlock : ReceiptBlock) :
  0 <= attempts → attempts + Z.of_nat (length script) <= 63 →
  Forall bounded acc →
  retryLoop conv client attempts lastUpdatedAt now script acc =
    Returned (t, receiptBlock) →
  Forall bounded t.
Proof.
  revert attempts lastUpdatedAt now acc.
  induction script as [|a script IH]; intros attempts last now acc; [done|].
  intros Hatt Hlen Hacc. simpl in *.
  assert (Forall bounded (acc ++ [EvGetPendingBlock client])) as Hacc'.
  { apply Forall_app. split; [done|]. by repeat constructor. }
  set (attempts' := if twelveHours <=? now - last then 0 else attempts).
  assert (0 <= attempts' <= attempts) as Hatt'
    by (unfold attempts'; destruct (twelveHours <=? now - last); lia).
  destruct (answered a) as [rb|], (failed a);
    try (intros [= <- <-]; exact Hacc');
    (apply IH; [lia|lia|]); apply Forall_app; (split; [done|]);
    apply Forall_singleton; intros d [= <-]; apply delaySecs_bounded; lia.
Qed.

(** While fewer than 64 attempts fail in a row, every wait of
    [fetchPendingBlocks] is between zero seconds and the ceiling of four
    hours, on every platform. *)
Theorem fetchPendingBlocks_backoff_bounded (conv : Conversion) (m : Manager)
    (client : Client) (i : nat) (now : Z) (script : list Answer)
    (t : list Event) (receiptBlock : ReceiptBlock) :
  (length script ≤ 64)%nat →
  fetchPendingBlocks conv m client i now script = Returned (t, receiptBlock) →
  Forall bounded t.
Proof.
  intros Hlen Hret.
  destruct script as [|first script]; [done|].
  unfold fetchPendingBlocks in Hret. simpl in Hlen.
  assert (Forall bounded [EvLock; EvGetPendingBlock client]) as H2
    by (by repeat constructor).
  assert (Forall bounded ([EvLock; EvGetPendingBlock client] ++
                          [EvGetPendingBlock client])) as H3
    by (by repeat constructor).
  assert (Forall bounded [EvUnlock]) as Hu by (by repeat constructor).
  destruct (staleHeader m i first) as [[|]|]; [| |done].
  - destruct script as [|second script]; [done|]. simpl in Hlen.
    destruct (answered second) as [rb|], (failed second);
      try (injection Hret as <- <-; by repeat constructor);
      destruct (retryLoop _ _ _ _ _ _ _) as [[t' rb']| |] eqn:Hloop;
      try done; injection Hret as <- <-; apply Forall_app; (split; [|done]);
      (eapply retryLoop_bounded; [| | |exact Hloop]; [lia|lia|exact H3]).
  - destruct (answered first) as [rb|], (failed first);
      try (injection Hret as <- <-; by repeat constructor);
      destruct (retryLoop _ _ _ _ _ _ _) as [[t' rb']| |] eqn:Hloop;
      try done; injection Hret as <- <-; apply Forall_app; (split; [|done]);
      (eapply retryLoop_bounded; [| | |exact Hloop]; [lia|lia|exact H2]).
Qed.

Lemma fetchPendingBlocks_backoff_bounded_witness :
  Forall bounded [EvLock; EvGetPendingBlock 100%N;
                  EvGetPendingBlock 100%N; EvSleep 0;
                  EvGetPendingBlock 100%N; EvSleep 1;
                  EvGetPendingBlock 100%N; EvUnlock].
Proof.
  apply (fetchPendingBlocks_backoff_bounded amd64 manager 100%N 0 0
           [mkAnswer 5 None true; mkAnswer 5 None false;
            mkAnswer 5 (Some nextHeight) true;
            mkAnswer 5 (Some nextHeight) false] _ nextHeight).
  - simpl. lia.
  - by vm_compute.
Defined.

End AggregatorMore.

(** ** Dialling the nodes and the connection loop *)

Module SupervisorFacts.
Import Backoff Aggregator AggregatorSpec DispatcherSpec Supervisor.

Lemma fmap_same {A} (f : A → A) (o : option A) :
  (∀ x, f x = x) → f <$> o = o.
Proof. intros Hf. destruct o; simpl; by rewrite ?Hf. Qed.

Lemma shifted {A} (x : A) (l : list A) (i i0 : nat) :
  (i0 < i)%nat → (x :: l) !! (i - i0)%nat = l !! (i - S i0)%nat.
Proof. intros Hi. by replace (i - i0)%nat with (S (i - S i0)) by lia. Qed.

Lemma regionAt_cons_lt (dial : Dialer) (url : string) (urls : list string)
    (i0 i : nat) :
  i ≠ i0 → regionAt dial (url :: urls) i0 i = regionAt dial urls (S i0) i.
Proof.
  intros Hi. unfold regionAt.
  destruct (decide (i0 ≤ i)%nat), (decide (S i0 ≤ i)%nat); try lia; [|done].
  by rewrite shifted by lia.
Qed.

Lemma regionAt_cons_eq (dial : Dialer) (url : string) (urls : list string)
    (i0 : nat) :
  regionAt dial (url :: urls) i0 i0 = attempt dial (SRegion i0) (Some url) ∧
  regionAt dial urls (S i0) i0 = None.
Proof.
  unfold regionAt.
  destruct (decide (i0 ≤ i0)%nat), (decide (S i0 ≤ i0)%nat); try lia.
  by rewrite Nat.sub_diag.
Qed.

Lemma dialRegions_spec (dial : Dialer) (urls : list string) (i0 : nat)
    (cs : orderedBlockClients) :
  length (regionsAvailable cs) = 3%nat → length (regionClients cs) = 3%nat →
  (∀ k url, urls !! k = Some url → url ≠ "" → (i0 + k < 3)%nat) →
  ∃ available handles,
    dialRegions dial urls i0 cs =
      Some (mkClients (primeClient cs) (primeAvailable cs) handles available
              (zoneClients cs) (zonesAvailable cs)) ∧
    length available = 3%nat ∧ length handles = 3%nat ∧
    ∀ i,
      available !! i =
        flagAfter (regionAt dial urls i0 i) <$> regionsAvailable cs !! i ∧
      handles !! i =
        handleAfter (regionAt dial urls i0 i) <$> regionClients cs !! i.
Proof.
  revert i0 cs. induction urls as [|url urls IH]; intros i0 cs Ha Hh Hfit.
  - exists (regionsAvailable cs), (regionClients cs). destruct cs. simpl.
    repeat split; try done; unfold regionAt, attempt;
      destruct (decide _); rewrite ?lookup_nil; simpl;
      by rewrite fmap_same.
  - assert (∀ k u, urls !! k = Some u → u ≠ "" → (S i0 + k < 3)%nat) as Hfit'.
    { intros k u Hk Hu. specialize (Hfit (S k) u Hk Hu). lia. }
    destruct (regionAt_cons_eq dial url urls i0) as [Eat Eat'].
    cbn [dialRegions]. destruct (decide (url = "")) as [->|Hurl].
    + simpl. destruct (IH (S i0) cs Ha Hh Hfit') as (ra & rc & -> & ? & ? & Hi).
      exists ra, rc. repeat split; try done;
        (destruct (decide (i = i0)) as [->|Hne];
         [rewrite Eat; destruct (Hi i0) as [H1 H2];
          rewrite Eat' in H1, H2; by rewrite ?H1, ?H2
         |rewrite regionAt_cons_lt by done; apply Hi]).
    + assert (i0 < 3)%nat as Hi0 by (specialize (Hfit 0%nat url eq_refl Hurl); lia).
      unfold store.
      destruct (decide (i0 < length (regionsAvailable cs))%nat); [|lia].
      destruct (decide (i0 < length (regionClients cs))%nat); [|lia].
      destruct (lookup_lt_is_Some_2 (regionsAvailable cs) i0) as [b0 Hb0];
        [lia|].
      destruct (lookup_lt_is_Some_2 (regionClients cs) i0) as [c0 Hc0]; [lia|].
      destruct (dial (SRegion i0) url) as [c|] eqn:Hdial; simpl.
      * edestruct (IH (S i0)) as (ra & rc & -> & ? & ? & Hi);
          [| |exact Hfit'|]; simpl; rewrite ?length_insert; try done.
        exists ra, rc. simpl in Hi. repeat split; try done;
          (destruct (decide (i = i0)) as [->|Hne];
           [rewrite Eat; destruct (Hi i0) as [H1 H2];
            rewrite Eat' in H1, H2; rewrite ?H1, ?H2;
            rewrite list_lookup_insert_eq by lia; unfold attempt; simpl;
            rewrite decide_False by done; rewrite Hdial; simpl;
            by rewrite ?Hb0, ?Hc0
           |rewrite regionAt_cons_lt by done; destruct (Hi i) as [H1 H2];
            rewrite ?H1, ?H2; by rewrite list_lookup_insert_ne by done]).
      * edestruct (IH (S i0)) as (ra & rc & -> & ? & ? & Hi);
          [| |exact Hfit'|]; simpl; rewrite ?length_insert; try done.
        exists ra, rc. simpl in Hi. repeat split; try done;
          (destruct (decide (i = i0)) as [->|Hne];
           [rewrite Eat; destruct (Hi i0) as [H1 H2];
            rewrite Eat' in H1, H2; rewrite ?H1, ?H2;
            rewrite ?list_lookup_insert_eq by lia; unfold attempt; simpl;
            rewrite decide_False by done; rewrite Hdial; simpl;
            by rewrite ?Hb0, ?Hc0
           |rewrite regionAt_cons_lt by done; destruct (Hi i) as [H1 H2];
            rewrite ?H1, ?H2; by rewrite ?list_lookup_insert_ne by done]).
Qed.

Lemma store2_spec {A} (rows : list (list A)) (i j : nat) (x : A) :
  grid rows → (i < 3)%nat → (j < 3)%nat →
  ∃ rows', store2 rows i j x = Some rows' ∧ grid rows' ∧
    ∀ i' j', get2 rows' i' j' =
      if decide (i' = i ∧ j' = j) then Some x else get2 rows i' j'.
Proof.
  intros [Hlen Hrows] Hi Hj. unfold store2.
  destruct (lookup_lt_is_Some_2 rows i) as [row Hrow]; [lia|].
  assert (length row = 3%nat) as Hrowlen.
  { rewrite Forall_forall in Hrows. apply Hrows, list_elem_of_lookup. eauto. }
  rewrite Hrow. simpl. unfold store. rewrite decide_True by lia. simpl.
  eexists. split; [done|]. split.
  - split; [by rewrite length_insert|].
    apply Forall_insert; [done|]. by rewrite length_insert.
  - intros i' j'. unfold get2.
    destruct (decide (i' = i)) as [->|Hne].
    + rewrite list_lookup_insert_eq by lia. simpl. rewrite Hrow. simpl.
      destruct (decide (j' = j)) as [->|Hne].
      * rewrite decide_True by done. by rewrite list_lookup_insert_eq by lia.
      * rewrite decide_False by (intros [_ ?]; done).
        by rewrite list_lookup_insert_ne.
    + rewrite decide_False by (intros [? _]; done).
      by rewrite list_lookup_insert_ne.
Qed.

Lemma get2_grid {A} (rows : list (list A)) (i j : nat) :
  grid rows → (i < 3)%nat → (j < 3)%nat → is_Some (get2 rows i j).
Proof.
  intros [Hlen Hrows] Hi Hj. unfold get2.
  destruct (lookup_lt_is_Some_2 rows i) as [row Hrow]; [lia|].
  rewrite Hrow. simpl. apply lookup_lt_is_Some.
  rewrite Forall_forall in Hrows.
  rewrite (Hrows row); [lia|]. apply list_elem_of_lookup. eauto.
Qed.

Lemma zoneRowAt_cons_ne (dial : Dialer) (url : string) (urls : list string)
    (i j0 i' j : nat) :
  ¬ (i' = i ∧ j = j0) →
  zoneRowAt dial (url :: urls) i j0 i' j = zoneRowAt dial urls i (S j0) i' j.
Proof.
  intros Hne. unfold zoneRowAt.
  destruct (decide (i' = i ∧ j0 ≤ j)%nat) as [[-> ?]|?],
    (decide (_ = i ∧ S j0 ≤ j)%nat) as [[? ?]|?]; try done; try lia;
    try (by rewrite shifted by lia);
    exfalso; apply Hne; (split; [done|]); lia.
Qed.

Lemma zoneRowAt_cons_eq (dial : Dialer) (url : string) (urls : list string)
    (i j0 : nat) :
  zoneRowAt dial (url :: urls) i j0 i j0 =
    attempt dial (SZone i j0) (Some url) ∧
  zoneRowAt dial urls i (S j0) i j0 = None.
Proof.
  unfold zoneRowAt.
  destruct (decide (i = i ∧ j0 ≤ j0)%nat) as [_|?]; [|lia].
  destruct (decide (i = i ∧ S j0 ≤ j0)%nat) as [[_ ?]|_]; [lia|].
  by rewrite Nat.sub_diag.
Qed.

Lemma dialZoneRow_spec (dial : Dialer) (urls : list string) (i j0 : nat)
    (cs : orderedBlockClients) :
  grid (zonesAvailable cs) → grid (zoneClients cs) →
  (∀ k url, urls !! k = Some url → url ≠ "" →
            (i < 3)%nat ∧ (j0 + k < 3)%nat) →
  ∃ available handles,
    dialZoneRow dial urls i j0 cs =
      Some (mkClients (primeClient cs) (primeAvailable cs) (regionClients cs)
              (regionsAvailable cs) handles available) ∧
    grid available ∧ grid handles ∧
    ∀ i' j,
      get2 available i' j =
        flagAfter (zoneRowAt dial urls i j0 i' j) <$>
          get2 (zonesAvailable cs) i' j ∧
      get2 handles i' j =
        handleAfter (zoneRowAt dial urls i j0 i' j) <$>
          get2 (zoneClients cs) i' j.
Proof.
  revert j0 cs. induction urls as [|url urls IH]; intros j0 cs Ha Hh Hfit.
  - exists (zonesAvailable cs), (zoneClients cs). destruct cs. simpl.
    repeat split; try apply Ha; try apply Hh; unfold zoneRowAt, attempt;
      destruct (decide _); rewrite ?lookup_nil; simpl;
      by rewrite fmap_same.
  - assert (∀ k u, urls !! k = Some u → u ≠ "" →
                   (i < 3)%nat ∧ (S j0 + k < 3)%nat) as Hfit'.
    { intros k u Hk Hu. specialize (Hfit (S k) u Hk Hu). lia. }
    destruct (zoneRowAt_cons_eq dial url urls i j0) as [Eat Eat'].
    cbn [dialZoneRow]. destruct (decide (url = "")) as [->|Hurl].
    + simpl. destruct (IH (S j0) cs Ha Hh Hfit') as (za & zc & -> & ? & ? & Hi).
      exists za, zc. repeat split; try done; try apply H; try apply H0;
        (destruct (decide (i' = i ∧ j = j0)) as [[-> ->]|Hne];
         [rewrite Eat; destruct (Hi i j0) as [H1 H2];
          rewrite Eat' in H1, H2; by rewrite ?H1, ?H2
         |rewrite zoneRowAt_cons_ne by done; apply Hi]).
    + destruct (Hfit 0%nat url eq_refl Hurl) as [Hi0 Hj0].
      destruct (store2_spec (zonesAvailable cs) i j0 true Ha Hi0 ltac:(lia))
        as (zat & Ezat & Gzat & Hzat).
      destruct (store2_spec (zonesAvailable cs) i j0 false Ha Hi0 ltac:(lia))
        as (zaf & Ezaf & Gzaf & Hzaf).
      destruct (get2_grid (zonesAvailable cs) i j0 Ha Hi0 ltac:(lia))
        as [b0 Hb0].
      destruct (get2_grid (zoneClients cs) i j0 Hh Hi0 ltac:(lia))
        as [c0 Hc0].
      destruct (dial (SZone i j0) url) as [c|] eqn:Hdial; simpl.
      * destruct (store2_spec (zoneClients cs) i j0 c Hh Hi0 ltac:(lia))
          as (zcc & Ezcc & Gzcc & Hzcc).
        rewrite Ezat, Ezcc. simpl.
        edestruct (IH (S j0)) as (za & zc & -> & ? & ? & Hi);
          [| |exact Hfit'|]; simpl; try done.
        exists za, zc. simpl in Hi.
        split; [done|]. split; [done|]. split; [done|]. intros i' j.
        destruct (Hi i' j) as [H1 H2]. rewrite H1, H2, Hzat, Hzcc.
        destruct (decide (i' = i ∧ j = j0)) as [[-> ->]|Hne].
        -- rewrite Eat, Eat', Hb0, Hc0. unfold attempt. simpl.
           rewrite decide_False by done. by rewrite Hdial.
        -- by rewrite zoneRowAt_cons_ne by done.
      * rewrite Ezaf. simpl.
        edestruct (IH (S j0)) as (za & zc & -> & ? & ? & Hi);
          [| |exact Hfit'|]; simpl; try done.
        exists za, zc. simpl in Hi.
        split; [done|]. split; [done|]. split; [done|]. intros i' j.
        destruct (Hi i' j) as [H1 H2]. rewrite H1, H2, Hzaf.
        destruct (decide (i' = i ∧ j = j0)) as [[-> ->]|Hne].
        -- rewrite Eat, Eat', Hb0, Hc0. unfold attempt. simpl.
           rewrite decide_False by done. by rewrite Hdial.
        -- by rewrite zoneRowAt_cons_ne by done.
Qed.

Lemma zoneAt_cons_ne (dial : Dialer) (row : list string)
    (rows : list (list string)) (i0 i j : nat) :
  i ≠ i0 → zoneAt dial (row :: rows) i0 i j = zoneAt dial rows (S i0) i j.
Proof.
  intros Hi. unfold zoneAt.
  destruct (decide (i0 ≤ i)%nat), (decide (S i0 ≤ i)%nat); try lia; [|done].
  by rewrite shifted by lia.
Qed.

Lemma zoneAt_cons_eq (dial : Dialer) (row : list string)
    (rows : list (list string)) (i0 j : nat) :
  zoneAt dial (row :: rows) i0 i0 j = zoneRowAt dial row i0 0 i0 j ∧
  zoneAt dial rows (S i0) i0 j = None.
Proof.
  unfold zoneAt, zoneRowAt.
  destruct (decide (i0 ≤ i0)%nat), (decide (S i0 ≤ i0)%nat); try lia.
  destruct (decide (i0 = i0 ∧ 0 ≤ j)%nat) as [_|?]; [|lia].
  by rewrite Nat.sub_diag, Nat.sub_0_r.
Qed.

Lemma zoneRowAt_other (dial : Dialer) (urls : list string) (i j0 i' j : nat) :
  i' ≠ i → zoneRowAt dial urls i j0 i' j = None.
Proof.
  intros Hne. unfold zoneRowAt. by rewrite decide_False by (by intros [? _]).
Qed.

Lemma dialZones_spec (dial : Dialer) (rows : list (list string)) (i0 : nat)
    (cs : orderedBlockClients) :
  grid (zonesAvailable cs) → grid (zoneClients cs) →
  (∀ k j row url, rows !! k = Some row → row !! j = Some url → url ≠ "" →
                  (i0 + k < 3)%nat ∧ (j < 3)%nat) →
  ∃ available handles,
    dialZones dial rows i0 cs =
      Some (mkClients (primeClient cs) (primeAvailable cs) (regionClients cs)
              (regionsAvailable cs) handles available) ∧
    grid available ∧ grid handles ∧
    ∀ i j,
      get2 available i j =
        flagAfter (zoneAt dial rows i0 i j) <$> get2 (zonesAvailable cs) i j ∧
      get2 handles i j =
        handleAfter (zoneAt dial rows i0 i j) <$> get2 (zoneClients cs) i j.
Proof.
  revert i0 cs. induction rows as [|row rows IH]; intros i0 cs Ha Hh Hfit.
  - exists (zonesAvailable cs), (zoneClients cs). destruct cs. simpl.
    repeat split; try apply Ha; try apply Hh; unfold zoneAt, attempt;
      destruct (decide _); rewrite ?lookup_nil; simpl;
      by rewrite fmap_same.
  - cbn [dialZones].
    destruct (dialZoneRow_spec dial row i0 0 cs Ha Hh)
      as (za1 & zc1 & -> & Gza1 & Gzc1 & H1).
    { intros k url Hk Hurl.
      destruct (Hfit 0%nat k row url eq_refl Hk Hurl). split; lia. }
    simpl.
    edestruct (IH (S i0)) as (za & zc & -> & ? & ? & Hi); simpl;
      [exact Gza1|exact Gzc1| |].
    { intros k j r u Hk Hj Hu.
      destruct (Hfit (S k) j r u Hk Hj Hu). split; lia. }
    exists za, zc. simpl in Hi.
    split; [done|]. split; [done|]. split; [done|]. intros i j.
    destruct (Hi i j) as [E1 E2]. destruct (H1 i j) as [F1 F2].
    rewrite E1, E2, F1, F2.
    destruct (decide (i = i0)) as [->|Hne].
    + destruct (zoneAt_cons_eq dial row rows i0 j) as [-> ->].
      split; [by destruct (get2 (zonesAvailable cs) i0 j)
            |by destruct (get2 (zoneClients cs) i0 j)].
    + rewrite zoneAt_cons_ne by done. rewrite zoneRowAt_other by done.
      split; [by destruct (get2 (zonesAvailable cs) i j)
            |by destruct (get2 (zoneClients cs) i j)].
Qed.

Lemma getNodeClients_spec (dial : Dialer) (config : Config) :
  fits config →
  ∃ cs, getNodeClients dial config = Some cs ∧ shaped cs ∧ flagged cs ∧
    primeAvailable cs =
      flagAfter (attempt dial SPrime (Some (PrimeURL config))) false ∧
    primeClient cs =
      handleAfter (attempt dial SPrime (Some (PrimeURL config))) nilClient ∧
    (∀ i, (i < 3)%nat →
       regionsAvailable cs !! i =
         Some (flagAfter (attempt dial (SRegion i) (RegionURLs config !! i))
                 false) ∧
       regionClients cs !! i =
         Some (handleAfter (attempt dial (SRegion i) (RegionURLs config !! i))
                 nilClient)) ∧
    (∀ i j, (i < 3)%nat → (j < 3)%nat →
       get2 (zonesAvailable cs) i j =
         Some (flagAfter
                 (attempt dial (SZone i j)
                    (row ← ZoneURLs config !! i; row !! j)) false) ∧
       get2 (zoneClients cs) i j =
         Some (handleAfter
                 (attempt dial (SZone i j)
                    (row ← ZoneURLs config !! i; row !! j)) nilClient)).
Proof.
  intros [Hregions Hzones]. unfold getNodeClients.
  set (blank := mkClients nilClient false (replicate 3 nilClient)
                  (replicate 3 false) (replicate 3 (replicate 3 nilClient))
                  (replicate 3 (replicate 3 false))).
  set (cs0 := if decide (PrimeURL config = "") then blank else _).
  assert (regionClients cs0 = replicate 3 nilClient ∧
          regionsAvailable cs0 = replicate 3 false ∧
          zoneClients cs0 = replicate 3 (replicate 3 nilClient) ∧
          zonesAvailable cs0 = replicate 3 (replicate 3 false) ∧
          primeAvailable cs0 =
            flagAfter (attempt dial SPrime (Some (PrimeURL config))) false ∧
          primeClient cs0 =
            handleAfter (attempt dial SPrime (Some (PrimeURL config)))
              nilClient) as (Erc & Era & Ezc & Eza & Epa & Epc).
  { unfold cs0, attempt. simpl.
    destruct (decide (PrimeURL config = "")); [done|].
    by destruct (dial SPrime (PrimeURL config)). }
  clearbody cs0.
  destruct (dialRegions_spec dial (RegionURLs config) 0 cs0)
    as (ra & rc & -> & Hra & Hrc & Hr).
  { by rewrite Era. }
  { by rewrite Erc. }
  { intros k url Hk Hurl. simpl. by eapply Hregions. }
  simpl.
  edestruct (dialZones_spec dial (ZoneURLs config) 0) as (za & zc & -> & Gza & Gzc & Hz).
  { simpl. rewrite Eza. split; [done|]. by repeat constructor. }
  { simpl. rewrite Ezc. split; [done|]. by repeat constructor. }
  { intros k j row url Hk Hj Hurl. simpl. by eapply Hzones. }
  simpl in *. eexists. split; [reflexivity|]. simpl.
  split; [by destruct Gzc|]. split; [by destruct Gza|].
  split; [done|]. split; [done|]. split.
  - intros i Hi. destruct (Hr i) as [-> ->]. rewrite Era, Erc.
    unfold regionAt. rewrite decide_True by lia. rewrite Nat.sub_0_r.
    destruct i as [|[|[|?]]]; [done..|lia].
  - intros i j Hi Hj. destruct (Hz i j) as [-> ->]. rewrite Eza, Ezc.
    unfold zoneAt. rewrite decide_True by lia. rewrite Nat.sub_0_r.
    destruct i as [|[|[|?]]], j as [|[|[|?]]]; (done || lia).
Qed.

(** [getNodeClients] on a configuration whose URLs fit the
    three-by-three layout: it returns a registry of that layout, flags
    included, whatever the dials answer; a node is flagged available
    exactly when its URL is set and its dial succeeded, and its slot
    then holds the handle dialled; every other slot holds the nil
    client and is flagged unavailable. *)
Theorem getNodeClients_registry (dial : Dialer) (config : Config) :
  fits config →
  ∃ cs, getNodeClients dial config = Some cs ∧ shaped cs ∧ flagged cs ∧
    primeAvailable cs =
      flagAfter (attempt dial SPrime (Some (PrimeURL config))) false ∧
    primeClient cs =
      handleAfter (attempt dial SPrime (Some (PrimeURL config))) nilClient ∧
    (∀ i, (i < 3)%nat →
       regionsAvailable cs !! i =
         Some (flagAfter (attempt dial (SRegion i) (RegionURLs config !! i))
                 false) ∧
       regionClients cs !! i =
         Some (handleAfter (attempt dial (SRegion i) (RegionURLs config !! i))
                 nilClient)) ∧
    (∀ i j, (i < 3)%nat → (j < 3)%nat →
       get2 (zonesAvailable cs) i j =
         Some (flagAfter
                 (attempt dial (SZone i j)
                    (row ← ZoneURLs config !! i; row !! j)) false) ∧
       get2 (zoneClients cs) i j =
         Some (handleAfter
                 (attempt dial (SZone i j)
                    (row ← ZoneURLs config !! i; row !! j)) nilClient)).
Proof. apply getNodeClients_spec. Qed.

Lemma fits_sample (prime : string) (regions : list string)
    (zones : list (list string)) :
  (length regions ≤ 3)%nat → (length zones ≤ 3)%nat →
  Forall (λ row, (length row ≤ 3)%nat) zones →
  fits (mkConfig prime regions zones).
Proof.
  intros Hr Hz Hrows. split; simpl.
  - intros i url Hi _. apply lookup_lt_Some in Hi. lia.
  - intros i j row url Hi Hj _. rewrite Forall_forall in Hrows.
    assert (length row ≤ 3)%nat
      by (apply Hrows, list_elem_of_lookup; eauto).
    apply lookup_lt_Some in Hi, Hj. lia.
Qed.

Lemma fits_everyURL : fits everyURL.
Proof. apply fits_sample; simpl; try lia. repeat constructor; simpl; lia. Qed.

Lemma getNodeClients_registry_witness :
  ∃ cs, getNodeClients zoneLost everyURL = Some cs ∧ shaped cs ∧ flagged cs ∧
    primeAvailable cs =
      flagAfter (attempt zoneLost SPrime (Some (PrimeURL everyURL))) false ∧
    primeClient cs =
      handleAfter (attempt zoneLost SPrime (Some (PrimeURL everyURL)))
        nilClient ∧
    (∀ i, (i < 3)%nat →
       regionsAvailable cs !! i =
         Some (flagAfter
                 (attempt zoneLost (SRegion i) (RegionURLs everyURL !! i))
                 false) ∧
       regionClients cs !! i =
         Some (handleAfter
                 (attempt zoneLost (SRegion i) (RegionURLs everyURL !! i))
                 nilClient)) ∧
    (∀ i j, (i < 3)%nat → (j < 3)%nat →
       get2 (zonesAvailable cs) i j =
         Some (flagAfter
                 (attempt zoneLost (SZone i j)
                    (row ← ZoneURLs everyURL !! i; row !! j)) false) ∧
       get2 (zoneClients cs) i j =
         Some (handleAfter
                 (attempt zoneLost (SZone i j)
                    (row ← ZoneURLs everyURL !! i; row !! j)) nilClient)).
Proof. apply (getNodeClients_registry zoneLost everyURL), fits_everyURL. Defined.

(** *** URLs beyond the layout *)

Lemma dialRegions_keeps (dial : Dialer) (urls : list string) (i0 : nat)
    (cs cs' : orderedBlockClients) :
  dialRegions dial urls i0 cs = Some cs' →
  length (regionsAvailable cs') = length (regionsAvailable cs) ∧
  zonesAvailable cs' = zonesAvailable cs.
Proof.
  revert i0 cs. induction urls as [|url urls IH]; intros i0 cs; simpl.
  - by intros [= <-].
  - destruct (decide (url = "")); simpl; [apply IH|]. unfold store.
    destruct (decide (i0 < length (regionsAvailable cs))%nat);
      [|by destruct (dial (SRegion i0) url)].
    destruct (dial (SRegion i0) url); simpl;
      [destruct (decide (i0 < length (regionClients cs))%nat); [|done]; simpl|];
      intros [-> ->]%IH; simpl; by rewrite length_insert.
Qed.

Lemma dialRegions_overflow (dial : Dialer) (urls : list string) (i0 k : nat)
    (cs : orderedBlockClients) (url : string) :
  length (regionsAvailable cs) = 3%nat →
  urls !! k = Some url → url ≠ "" → (3 ≤ i0 + k)%nat →
  dialRegions dial urls i0 cs = None.
Proof.
  revert i0 k cs. induction urls as [|u urls IH]; intros i0 k cs Hlen; [done|].
  destruct k as [|k]; simpl.
  - intros [= ->] Hurl Hi0. rewrite decide_False by done. unfold store.
    destruct (decide (i0 < length (regionsAvailable cs))%nat); [lia|].
    by destruct (dial (SRegion i0) url).
  - intros Hk Hurl Hi0.
    match goal with |- ?step ≫= _ = None =>
      destruct step as [cs1|] eqn:Hstep end; [|done].
    simpl. apply (IH (S i0) k cs1); [|done|done|lia].
    destruct (decide (u = "")); [by injection Hstep as <-|].
    unfold store in Hstep.
    destruct (decide (i0 < length (regionsAvailable cs))%nat);
      [|by destruct (dial (SRegion i0) u)].
    destruct (dial (SRegion i0) u); simpl in Hstep;
      [destruct (decide (i0 < length (regionClients cs))%nat); [|done];
       simpl in Hstep|];
      injection Hstep as <-; simpl; by rewrite length_insert.
Qed.

Lemma store2_grid {A} (rows rows' : list (list A)) (i j : nat) (x : A) :
  store2 rows i j x = Some rows' → grid rows → grid rows'.
Proof.
  unfold store2, store. intros Hstore [Hlen Hrows].
  destruct (rows !! i) as [row|] eqn:Hrow; [|done]. simpl in Hstore.
  destruct (decide _); [|done]. injection Hstore as <-.
  split; [by rewrite length_insert|].
  apply Forall_insert; [done|]. rewrite length_insert.
  rewrite Forall_forall in Hrows. apply Hrows, list_elem_of_lookup. eauto.
Qed.

Lemma store2_overflow {A} (rows : list (list A)) (i j : nat) (x : A) :
  grid rows → (3 ≤ i ∨ 3 ≤ j)%nat → store2 rows i j x = None.
Proof.
  intros [Hlen Hrows] Hij. unfold store2, store.
  destruct (rows !! i) as [row|] eqn:Hrow; [|done]. simpl.
  assert (length row = 3%nat) as Hrowlen.
  { rewrite Forall_forall in Hrows. apply Hrows, list_elem_of_lookup. eauto. }
  apply lookup_lt_Some in Hrow. by rewrite decide_False by lia.
Qed.

Lemma dialZoneStep_grid (dial : Dialer) (url : string) (i j : nat)
    (cs cs1 : orderedBlockClients) :
  (if decide (url = "") then Some cs else
   match dial (SZone i j) url with
   | None =>
       available ← store2 (zonesAvailable cs) i j false;
       Some (mkClients (primeClient cs) (primeAvailable cs) (regionClients cs)
               (regionsAvailable cs) (zoneClients cs) available)
   | Some zoneClient =>
       available ← store2 (zonesAvailable cs) i j true;
       handles ← store2 (zoneClients cs) i j zoneClient;
       Some (mkClients (primeClient cs) (primeAvailable cs) (regionClients cs)
               (regionsAvailable cs) handles available)
   end) = Some cs1 →
  grid (zonesAvailable cs) → grid (zonesAvailable cs1).
Proof.
  destruct (decide (url = "")); [by intros [= <-]|].
  destruct (dial (SZone i j) url).
  - destruct (store2 (zonesAvailable cs) i j true) as [za|] eqn:Hza; [|done].
    simpl. destruct (store2 (zoneClients cs) i j c); [|done]. simpl.
    intros [= <-] Hgrid. simpl. by eapply store2_grid.
  - destruct (store2 (zonesAvailable cs) i j false) as [za|] eqn:Hza; [|done].
    simpl. intros [= <-] Hgrid. simpl. by eapply store2_grid.
Qed.

Lemma dialZoneRow_grid (dial : Dialer) (urls : list string) (i j0 : nat)
    (cs cs' : orderedBlockClients) :
  dialZoneRow dial urls i j0 cs = Some cs' →
  grid (zonesAvailable cs) → grid (zonesAvailable cs').
Proof.
  revert j0 cs. induction urls as [|url urls IH]; intros j0 cs;
    cbn [dialZoneRow]; [by intros [= <-]|].
  match goal with |- ?step ≫= _ = _ → _ =>
    destruct step as [cs1|] eqn:Hstep end; [|done].
  simpl. intros Hrest Hgrid. apply (IH _ _ Hrest).
  by eapply dialZoneStep_grid.
Qed.

Lemma dialZoneRow_overflow (dial : Dialer) (urls : list string)
    (i j0 k : nat) (cs : orderedBlockClients) (url : string) :
  grid (zonesAvailable cs) →
  urls !! k = Some url → url ≠ "" → (3 ≤ i ∨ 3 ≤ j0 + k)%nat →
  dialZoneRow dial urls i j0 cs = None.
Proof.
  revert j0 k cs. induction urls as [|u urls IH]; intros j0 k cs Hgrid;
    [done|].
  destruct k as [|k]; cbn [dialZoneRow].
  - intros [= ->] Hurl Hij. rewrite decide_False by done.
    rewrite !store2_overflow by (done || lia).
    by destruct (dial (SZone i j0) url).
  - intros Hk Hurl Hij.
    match goal with |- ?step ≫= _ = None =>
      destruct step as [cs1|] eqn:Hstep end; [|done].
    simpl. apply (IH (S j0) k cs1); [|done|done|lia].
    by eapply dialZoneStep_grid.
Qed.

Lemma dialZones_overflow (dial : Dialer) (rows : list (list string))
    (i0 k j : nat) (cs : orderedBlockClients) (row : list string)
    (url : string) :
  grid (zonesAvailable cs) →
  rows !! k = Some row → row !! j = Some url → url ≠ "" →
  (3 ≤ i0 + k ∨ 3 ≤ j)%nat →
  dialZones dial rows i0 cs = None.
Proof.
  revert i0 k cs. induction rows as [|r rows IH]; intros i0 k cs Hgrid;
    [done|].
  destruct k as [|k]; cbn [dialZones].
  - intros [= ->] Hj Hurl Hij.
    rewrite (dialZoneRow_overflow dial row i0 0 j cs url); try done. lia.
  - intros Hk Hj Hurl Hij.
    destruct (dialZoneRow dial r i0 0 cs) as [cs1|] eqn:Hrow; [|done].
    simpl. apply (IH (S i0) k cs1); try done; [|lia].
    by eapply dialZoneRow_grid.
Qed.

(** [getNodeClients] panics on a configuration that sets a URL beyond
    the three-by-three layout (a fourth region, a fourth row of zones or
    a fourth zone in a row), whatever the dials answer: the slot it
    writes to is out of range. *)
Theorem getNodeClients_overflow (dial : Dialer) (config : Config) :
  (∃ i url, RegionURLs config !! i = Some url ∧ url ≠ "" ∧ (3 ≤ i)%nat) ∨
  (∃ i j row url, ZoneURLs config !! i = Some row ∧ row !! j = Some url ∧
                  url ≠ "" ∧ (3 ≤ i ∨ 3 ≤ j)%nat) →
  getNodeClients dial config = None.
Proof.
  intros Hover. unfold getNodeClients.
  set (blank := mkClients nilClient false (replicate 3 nilClient)
                  (replicate 3 false) (replicate 3 (replicate 3 nilClient))
                  (replicate 3 (replicate 3 false))).
  set (cs0 := if decide (PrimeURL config = "") then blank else _).
  assert (regionsAvailable cs0 = replicate 3 false ∧
          zonesAvailable cs0 = replicate 3 (replicate 3 false)) as [Era Eza].
  { unfold cs0. destruct (decide _); [done|].
    by destruct (dial SPrime (PrimeURL config)). }
  clearbody cs0.
  destruct Hover as [(i & url & Hi & Hurl & Hover)|
                     (i & j & row & url & Hi & Hj & Hurl & Hover)].
  - rewrite (dialRegions_overflow dial _ 0 i cs0 url); try done.
    by rewrite Era.
  - destruct (dialRegions dial (RegionURLs config) 0 cs0) as [cs1|] eqn:Hr;
      [|done].
    simpl. apply dialRegions_keeps in Hr as [_ Hza].
    apply (dialZones_overflow dial _ 0 i j cs1 row url); try done.
    rewrite Hza, Eza. split; [done|]. by repeat constructor.
Qed.

Lemma getNodeClients_overflow_witness :
  getNodeClients allUp
    (mkConfig "ws://prime" ["ws://r1"; ""; ""; "ws://r4"] []) = None.
Proof.
  apply getNodeClients_overflow. left. exists 3%nat, "ws://r4".
  repeat split; (done || lia).
Defined.

(** *** The connection loop *)

Lemma foldl_status (st : bool) (l : list bool) :
  foldl (λ connectStatus (status : bool),
           if negb status then false else connectStatus) st l =
    st && forallb id l.
Proof.
  revert st. induction l as [|[] l IH]; intros st; simpl.
  - by rewrite andb_true_r.
  - apply IH.
  - rewrite IH. by rewrite andb_false_r.
Qed.

Lemma foldl_rows (st : bool) (rows : list (list bool)) :
  foldl (λ connectStatus zonesArray,
           foldl (λ connectStatus (status : bool),
                    if negb status then false else connectStatus)
             connectStatus zonesArray) st rows =
    st && forallb (forallb id) rows.
Proof.
  revert st. induction rows as [|row rows IH]; intros st; simpl.
  - by rewrite andb_true_r.
  - rewrite IH, foldl_status. by rewrite andb_assoc.
Qed.

Lemma connected_spec (cs : orderedBlockClients) :
  connected cs =
    primeAvailable cs && forallb id (regionsAvailable cs) &&
    forallb (forallb id) (zonesAvailable cs).
Proof.
  unfold connected. rewrite foldl_rows, foldl_status.
  by destruct (primeAvailable cs).
Qed.

Lemma connectLoop_first (conv : Conversion) (config : Config) (k : nat) :
  fits config →
  ∀ (prev : Round) (rounds : list Round) (cs cs' checked : orderedBlockClients)
    (attempts lastUpdatedAt now : Z) (acc : list Event) (r r' : Round),
    getNodeClients (dialer prev) config = Some cs →
    (prev :: rounds) !! k = Some r →
    getNodeClients (dialer r) config = Some checked →
    connected checked = true →
    (∀ j r0 c0, (j < k)%nat → (prev :: rounds) !! j = Some r0 →
       getNodeClients (dialer r0) config = Some c0 → connected c0 = false) →
    (prev :: rounds) !! S k = Some r' →
    getNodeClients (dialer r') config = Some cs' →
    ∃ body,
      connectLoop conv config cs attempts lastUpdatedAt now rounds acc =
        Returned (acc ++ body, cs') ∧
      length body = S k ∧ Forall (λ e, isSleep e = true) body ∧
      body !! 0%nat =
        Some (EvSleep
                (delaySecs conv
                   ((if twelveHours <=? now - lastUpdatedAt then 0
                     else attempts) + 1))).
Proof.
  intros Hfits. induction k as [|k IH];
    intros prev rounds cs cs' checked attempts last now acc r r'
      Hprev Hr Hchecked Hconn Hbefore Hr' Hcs'.
  - simpl in Hr. injection Hr as <-.
    assert (checked = cs) as -> by congruence.
    destruct rounds as [|r1 rounds]; [done|]. simpl in Hr'.
    injection Hr' as ->. simpl. rewrite Hcs', Hconn.
    eexists [_]. split; [done|]. repeat split; by repeat constructor.
  - assert (connected cs = false) as Hcs
      by (apply (Hbefore 0%nat prev cs); [lia|done|done]).
    destruct rounds as [|r1 rounds]; [done|].
    destruct (getNodeClients_spec (dialer r1) config Hfits) as (cs1 & Hcs1 & _).
    simpl. rewrite Hcs1, Hcs.
    edestruct (IH r1 rounds cs1 cs' checked) as (body & -> & Hlen & Hall & _);
      try done.
    { intros j r0 c0 Hj. apply (Hbefore (S j)). lia. }
    eexists (_ :: body). rewrite <- app_assoc. split; [done|].
    simpl. rewrite Hlen. repeat split; try done. by constructor.
Qed.

(** The connection loop of [main] does not go on with the registry it
    has checked. When the [k]-th run of [getNodeClients] is the first to
    find every node available (and the configuration fits the layout),
    the loop waits once more, dials once more, and leaves with the
    registry of that last run, whatever its flags; by then it has
    waited [k + 1] times, the first time for zero seconds, and issued
    no other call. *)
Theorem connect_redials (conv : Conversion) (config : Config) (now : Z)
    (rounds : list Round) (k : nat) (r r' : Round)
    (checked : orderedBlockClients) :
  fits config →
  rounds !! k = Some r →
  getNodeClients (dialer r) config = Some checked →
  connected checked = true →
  (∀ j r0 c0, (j < k)%nat → rounds !! j = Some r0 →
     getNodeClients (dialer r0) config = Some c0 → connected c0 = false) →
  rounds !! S k = Some r' →
  ∃ t cs',
    connect conv config now rounds = Returned (t, cs') ∧
    getNodeClients (dialer r') config = Some cs' ∧
    length t = S k ∧ Forall (λ e, isSleep e = true) t ∧
    t !! 0%nat = Some (EvSleep 0).
Proof.
  intros Hfits Hr Hchecked Hconn Hbefore Hr'.
  destruct rounds as [|prev rounds]; [done|].
  destruct (getNodeClients_spec (dialer prev) config Hfits) as (cs & Hcs & _).
  destruct (getNodeClients_spec (dialer r') config Hfits) as (cs' & Hcs' & _).
  destruct (connectLoop_first conv config k Hfits prev rounds cs cs' checked
              0 now (now + lasted prev) [] r r' Hcs Hr Hchecked Hconn Hbefore
              Hr' Hcs') as (body & E & Hlen & Hall & Hhead).
  exists body, cs'. unfold connect. rewrite Hcs, E.
  repeat split; try done. rewrite Hhead.
  by destruct (twelveHours <=? now + lasted prev - now).
Qed.

Lemma connect_redials_witness :
  ∃ t cs',
    connect amd64 everyURL 0 [mkRound allUp 5; mkRound zoneLost 5] =
      Returned (t, cs') ∧
    getNodeClients zoneLost everyURL = Some cs' ∧
    length t = 1%nat ∧ Forall (λ e, isSleep e = true) t ∧
    t !! 0%nat = Some (EvSleep 0).
Proof.
  destruct (getNodeClients allUp everyURL) as [checked|] eqn:Hchecked;
    [|by vm_compute in Hchecked].
  apply (connect_redials amd64 everyURL 0 [mkRound allUp 5; mkRound zoneLost 5]
           0 (mkRound allUp 5) (mkRound zoneLost 5) checked).
  - apply fits_everyURL.
  - reflexivity.
  - exact Hchecked.
  - vm_compute in Hchecked. by injection Hchecked as <-.
  - intros j r0 c0 Hj. lia.
  - reflexivity.
Defined.

(** The registry [main] goes on with in that run has ZONE(2,3)
    unavailable: the loop left on the strength of the run before. *)
Lemma connect_unchecked_sample :
  ∃ t cs',
    connect amd64 everyURL 0 [mkRound allUp 5; mkRound zoneLost 5] =
      Returned (t, cs') ∧
    connected cs' = false ∧ get2 (zonesAvailable cs') 1 2 = Some false ∧
    get2 (zoneClients cs') 1 2 = Some nilClient.
Proof. eexists _, _. by vm_compute. Qed.

End SupervisorFacts.

(** ** The subscriptions and the relocation *)

Module SubscriptionFacts.
Import Responder Dispatcher Locator DispatcherSpec Subscriptions Sample.
Import EffFacts.

(** *** Where the replies of the missing-block responder go *)

Lemma uint8_succ_small (i : nat) : (i < 255)%nat → uint8_succ i = Z.of_nat i + 1.
Proof. intros Hi. unfold uint8_succ. apply Z.mod_small. lia. Qed.

Lemma byte_pred_succ (i : nat) :
  (i < 255)%nat → byte_pred (Z.of_nat i + 1) = Z.of_nat i.
Proof.
  intros Hi. unfold byte_pred.
  replace (Z.of_nat i + 1 - 1) with (Z.of_nat i) by lia.
  apply Z.mod_small. lia.
Qed.

Lemma head_two (a b : Z) :
  index [a; b] 0 = mret a ∧ index [a; b] 1 = mret b.
Proof. done. Qed.

(** [subscribeMissingExternalBlock] names each subscription by two
    bytes, and the responder finds its way back by them: in a registry
    of fewer than 256 regions and fewer than 256 zones per row, for
    every goroutine it starts, for a client under the name [chain], the
    reply of [subscribeMissingExternalBlockClient] to a request received
    under that name goes to that very client. *)
Theorem subscribeMissingExternalBlock_round_trip (m : Manager)
    (client : Client) (chain : list Z) :
  (length (regionClients (clients m)) < 256)%nat →
  Forall (λ row, (length row < 256)%nat) (zoneClients (clients m)) →
  (length (zoneClients (clients m)) < 256)%nat →
  SubscribeMissingExternalBlockClient client chain
    ∈ subscribeMissingExternalBlock m →
  extClient m chain = mret client.
Proof.
  intros Hregions Hrows Hzones. unfold subscribeMissingExternalBlock.
  rewrite elem_of_cons, elem_of_app.
  intros [[= -> ->]|[Hin|Hin]]; [done| |].
  - apply elem_of_lookup_imap in Hin as (i & c & [= -> ->] & Hi).
    assert (i < 255)%nat by (apply lookup_lt_Some in Hi; lia).
    unfold extClient. destruct (head_two (uint8_succ i) 0) as [-> ->].
    rewrite !bind_ret, uint8_succ_small by done.
    destruct (Z.eqb_spec (Z.of_nat i + 1) 0); [lia|]. simpl.
    rewrite byte_pred_succ by done. by rewrite index_nat, Hi.
  - apply DispatcherMore.elem_of_concat in Hin as (gs & Hin & Hgs).
    apply elem_of_lookup_imap in Hgs as (i & row & -> & Hi).
    apply elem_of_lookup_imap in Hin as (j & c & [= -> ->] & Hj).
    assert (i < 255)%nat by (apply lookup_lt_Some in Hi; lia).
    assert (j < 255)%nat.
    { rewrite Forall_forall in Hrows.
      assert (length row < 256)%nat
        by (apply Hrows, list_elem_of_lookup; eauto).
      apply lookup_lt_Some in Hj. lia. }
    unfold extClient.
    destruct (head_two (uint8_succ i) (uint8_succ j)) as [-> ->].
    rewrite !bind_ret, !uint8_succ_small by done.
    destruct (Z.eqb_spec (Z.of_nat i + 1) 0); [lia|].
    destruct (Z.eqb_spec (Z.of_nat j + 1) 0); [lia|]. simpl.
    rewrite !byte_pred_succ by done.
    by rewrite index_nat, Hi, bind_ret, index_nat, Hj.
Qed.

Lemma subscribeMissingExternalBlock_round_trip_witness :
  extClient fullManager [2; 3] = mret 123%N.
Proof.
  apply (subscribeMissingExternalBlock_round_trip fullManager 123%N [2; 3]).
  - simpl. lia.
  - repeat constructor; simpl; lia.
  - simpl. lia.
  - apply list_elem_of_In. vm_compute.
    repeat (first [left; reflexivity | right]).
Defined.

(** *** The new-head subscriptions *)

Lemma newHeadRegions_spec (cs : orderedBlockClients) (regions : list Client)
    (i : nat) :
  (i + length regions ≤ length (zoneClients cs))%nat →
  ∃ gs, newHeadRegions cs i regions = Some gs ∧
    gs ≡ₚ ((λ c, SubscribeNewHeadClient c 1) <$> regions) ++
          ((λ c, SubscribeNewHeadClient c 2) <$>
             concat (take (length regions) (drop i (zoneClients cs)))).
Proof.
  revert i. induction regions as [|c regions IH]; intros i Hlen; simpl in *.
  - by exists [].
  - destruct (lookup_lt_is_Some_2 (zoneClients cs) i) as [row Hrow]; [lia|].
    rewrite Hrow. simpl.
    destruct (IH (S i)) as (gs & -> & Hgs); [lia|]. simpl.
    eexists. split; [done|].
    rewrite (drop_S _ _ _ Hrow). simpl. rewrite fmap_app, Hgs.
    constructor. rewrite !app_assoc. apply Permutation_app_tail.
    apply Permutation_app_comm.
Qed.

Lemma newHeadRegions_short (cs : orderedBlockClients) (regions : list Client)
    (i : nat) :
  (i ≤ length (zoneClients cs) < i + length regions)%nat →
  newHeadRegions cs i regions = None.
Proof.
  revert i. induction regions as [|c regions IH]; intros i Hlen; simpl in *.
  - lia.
  - destruct (zoneClients cs !! i) as [row|] eqn:Hrow; [|done]. simpl.
    apply lookup_lt_Some in Hrow. rewrite IH by lia. done.
Qed.

(** [subscribeNewHead] on a registry that lists a row of zones for
    every region starts one goroutine per client, each with the tier of
    its client: PRIME with 0, every region with 1, and with 2 every zone
    of the rows that belong to a region. On a registry with fewer rows
    of zones than regions it panics. *)
Theorem subscribeNewHead_covers (m : Manager) :
  let cs := clients m in
  ((length (regionClients cs) ≤ length (zoneClients cs))%nat →
   ∃ gs, subscribeNewHead m = Some gs ∧
     gs ≡ₚ SubscribeNewHeadClient (primeClient cs) 0 ::
           ((λ c, SubscribeNewHeadClient c 1) <$> regionClients cs) ++
           ((λ c, SubscribeNewHeadClient c 2) <$>
              concat (take (length (regionClients cs)) (zoneClients cs)))) ∧
  ((length (zoneClients cs) < length (regionClients cs))%nat →
   subscribeNewHead m = None).
Proof.
  intros cs. unfold subscribeNewHead. fold cs. split; intros Hlen.
  - destruct (newHeadRegions_spec cs (regionClients cs) 0) as (gs & -> & Hgs);
      [lia|].
    eexists. split; [done|]. by constructor.
  - by rewrite newHeadRegions_short by lia.
Qed.

(** *** The bundles of the mining slice *)

Lemma index_beyond {A} (l : list A) (i : Z) :
  Z.of_nat (length l) <= i → index l i = panic.
Proof.
  intros Hi. unfold index. destruct (Z.leb_spec 0 i); [|done].
  by rewrite lookup_ge_None_2 by lia.
Qed.

Lemma checkConnection_bind {A} (net : Network) (c : Client)
    (f : bool → Eff A) :
  checkConnection net c ≫= f =
    mkEff (EvHeaderByNumber c :: events (f (answers net c)))
      (result (f (answers net c))).
Proof.
  unfold checkConnection, answers.
  destruct (headerByNumber net c); simpl; unfold mbind, Eff_bind; simpl;
    by destruct (result (f _)).
Qed.

Lemma bundle_spec (start : Client → Z → Goroutine) (m : Manager)
    (net : Network) (r z : Z) :
  shaped (clients m) → flagged (clients m) →
  location m = [r; z] → 1 <= r <= 3 → 1 <= z <= 3 →
  bundle start m net =
    mkEff (EvHeaderByNumber <$>
             concat (map (miningTarget (clients m) r z) [0; 1; 2]))
      (Some (started start (clients m) net r z)).
Proof.
  intros (Hrc & Hzc & Hzrows) (Hra & Hza & Hzarows) Hloc Hr Hz.
  unfold bundle. rewrite Hloc. set (cs := clients m) in *.
  destruct (index_slot (regionClients cs) r Hrc Hr) as (rc & Erc & Hrc').
  destruct (index_slot (zoneClients cs) r Hzc Hr) as (row & Erow & Hrow).
  assert (length row = 3%nat) as Hlen.
  { rewrite Forall_forall in Hzrows. apply Hzrows.
    apply list_elem_of_lookup. eauto. }
  destruct (index_slot row z Hlen Hz) as (zc & Ezc & Hzc').
  destruct (index_slot (zonesAvailable cs) r Hza Hr) as (arow & Earow & Harow).
  assert (length arow = 3%nat) as Halen.
  { rewrite Forall_forall in Hzarows. apply Hzarows.
    apply list_elem_of_lookup. eauto. }
  destruct (head_two r z) as [E0 E1].
  pose proof (DispatcherMore.flag_slot _ r Hra Hr) as Era.
  pose proof (DispatcherMore.flag_slot _ z Halen Hz) as Eza.
  assert (started start cs net r z =
            (if primeAvailable cs && answers net (primeClient cs)
             then [start (primeClient cs) 0] else []) ++
            (if default false (regionsAvailable cs !! Z.to_nat (r - 1)) &&
                answers net rc then [start rc 1] else []) ++
            (if default false (arow !! Z.to_nat (z - 1)) && answers net zc
             then [start zc 2] else [])) as ->.
  { unfold started, startedAt, availableAt, nodeAt.
    rewrite Harow, Hrc', Hrow. simpl. rewrite Hzc'. by rewrite app_nil_r. }
  assert (concat (map (miningTarget cs r z) [0; 1; 2]) =
            (if primeAvailable cs then [primeClient cs] else []) ++
            (if default false (regionsAvailable cs !! Z.to_nat (r - 1))
             then [rc] else []) ++
            (if default false (arow !! Z.to_nat (z - 1)) then [zc] else []))
    as ->.
  { unfold miningTarget, availableAt, nodeAt.
    rewrite Harow, Hrc', Hrow. simpl. rewrite Hzc', app_nil_r.
    by destruct (primeAvailable cs), (default false (regionsAvailable cs !! _)),
      (default false (arow !! _)). }
  destruct (primeAvailable cs),
    (default false (regionsAvailable cs !! Z.to_nat (r - 1))),
    (default false (arow !! Z.to_nat (z - 1)));
    repeat (progress (rewrite ?bind_ret, ?E0, ?E1, ?Era, ?Eza, ?Earow, ?Erc,
                        ?Erow, ?Ezc, ?checkConnection_bind; cbv beta));
    destruct (answers net (primeClient cs)), (answers net rc),
      (answers net zc);
    repeat (progress (rewrite ?bind_ret, ?E0, ?E1, ?Era, ?Eza, ?Earow, ?Erc,
                        ?Erow, ?Ezc, ?checkConnection_bind; cbv beta));
    reflexivity.
Qed.

(** [subscribeAllPendingBlocks] and [fetchAllPendingBlocks] at a
    location inside the layout: neither panics; each pings, in the order
    PRIME, region, zone, the nodes of the mining slice that are flagged
    available, and starts its goroutine for exactly those of them that
    answer, with the tier of the node; so the two start goroutines for
    the same nodes as long as the nodes answer both alike. *)
Theorem pendingBlocks_bundles (m : Manager) (net : Network) (r z : Z) :
  shaped (clients m) → flagged (clients m) →
  location m = [r; z] → 1 <= r <= 3 → 1 <= z <= 3 →
  subscribeAllPendingBlocks m net =
    mkEff (EvHeaderByNumber <$>
             concat (map (miningTarget (clients m) r z) [0; 1; 2]))
      (Some (started SubscribePendingHeader (clients m) net r z)) ∧
  fetchAllPendingBlocks m net =
    mkEff (EvHeaderByNumber <$>
             concat (map (miningTarget (clients m) r z) [0; 1; 2]))
      (Some (started FetchPendingBlocks (clients m) net r z)).
Proof. intros. split; by apply bundle_spec. Qed.

Lemma pendingBlocks_bundles_witness :
  subscribeAllPendingBlocks fullManager zoneDown =
    mkEff (EvHeaderByNumber <$> [100; 110; 111]%N)
      (Some [SubscribePendingHeader 100%N 0; SubscribePendingHeader 110%N 1;
             SubscribePendingHeader 111%N 2]) ∧
  fetchAllPendingBlocks fullManager zoneDown =
    mkEff (EvHeaderByNumber <$> [100; 110; 111]%N)
      (Some [FetchPendingBlocks 100%N 0; FetchPendingBlocks 110%N 1;
             FetchPendingBlocks 111%N 2]).
Proof.
  apply (pendingBlocks_bundles fullManager zoneDown 1 1).
  - apply ResponderFacts.shaped_sample.
  - apply DispatcherMore.flagged_sample.
  - reflexivity.
  - lia.
  - lia.
Defined.

Lemma bundle_zone_zero (start : Client → Z → Goroutine) (m : Manager)
    (net : Network) (r : Z) :
  shaped (clients m) → flagged (clients m) →
  location m = [r; 0] → 1 <= r <= 3 →
  result (bundle start m net) = None.
Proof.
  intros (Hrc & Hzc & Hzrows) (Hra & Hza & Hzarows) Hloc Hr.
  unfold bundle. rewrite Hloc. set (cs := clients m) in *.
  destruct (index_slot (regionClients cs) r Hrc Hr) as (rc & Erc & Hrc').
  destruct (index_slot (zonesAvailable cs) r Hza Hr) as (arow & Earow & Harow).
  assert (length arow = 3%nat) as Halen.
  { rewrite Forall_forall in Hzarows. apply Hzarows.
    apply list_elem_of_lookup. eauto. }
  destruct (head_two r 0) as [E0 E1].
  pose proof (DispatcherMore.flag_slot _ r Hra Hr) as Era.
  assert (index arow (byte_pred 0) = panic) as Eza
    by (apply index_beyond; rewrite Halen; by vm_compute).
  destruct (primeAvailable cs),
    (default false (regionsAvailable cs !! Z.to_nat (r - 1)));
    repeat (progress (rewrite ?bind_ret, ?E0, ?E1, ?Era, ?Eza, ?Earow, ?Erc,
                        ?checkConnection_bind; cbv beta));
    destruct (answers net (primeClient cs)), (answers net rc);
    repeat (progress (rewrite ?bind_ret, ?E0, ?E1, ?Era, ?Eza, ?Earow, ?Erc,
                        ?checkConnection_bind; cbv beta));
    reflexivity.
Qed.

(** *** The locator when nodes are unreachable *)

Lemma lowestDifficulty_down (net : Network) (tier : nat) (cs : list Client)
    (i best lowest : Z) :
  Forall (down net) cs →
  lowestDifficulty net tier cs i best lowest =
    mkEff (EvHeaderByNumber <$> cs) (Some (best, lowest)).
Proof.
  intros Hdown. revert i.
  induction Hdown as [|c cs Hc _ IH]; intros i; [done|].
  cbn [lowestDifficulty]. unfold down in Hc. rewrite Hc, IH. done.
Qed.

(** When no region node answers, [findBestLocation] pings each region
    once and panics: no region having been chosen, it reads
    [zoneClients[-1]]. *)
Theorem findBestLocation_no_region (cs : orderedBlockClients) (net : Network) :
  Forall (down net) (regionClients cs) →
  findBestLocation cs net =
    mkEff (EvHeaderByNumber <$> regionClients cs) None.
Proof.
  intros Hdown. unfold findBestLocation.
  rewrite lowestDifficulty_down by done.
  apply DispatcherMore.Eff_eq; simpl; [|done]. by rewrite app_nil_r.
Qed.

Lemma findBestLocation_no_region_witness :
  findBestLocation registry silent =
    mkEff (EvHeaderByNumber <$> [110; 120; 130]%N) None.
Proof.
  apply (findBestLocation_no_region registry silent).
  by repeat constructor.
Defined.

Lemma findBestLocation_no_zone (cs : orderedBlockClients) (net : Network)
    (regionDifficulties : list Z) :
  Forall2 (λ c d, difficultyOf net 1 c = Some d)
    (regionClients cs) regionDifficulties →
  (∃ d, d ∈ regionDifficulties ∧ d < MaxInt) →
  (length (regionClients cs) ≤ length (zoneClients cs))%nat →
  (length (regionClients cs) < 256)%nat →
  Forall (Forall (down net)) (zoneClients cs) →
  ∃ r : nat,
    (r < length (regionClients cs))%nat ∧
    result (findBestLocation cs net) = Some [Z.of_nat (S r); 0].
Proof.
  intros Hregions Hsome Hlen Hbytes Hzones.
  destruct (LocatorFacts.lowestDifficulty_first net 1 _ _ Hregions Hsome)
    as (r & lowestRegion & Er & Hr & _).
  assert (r < length (regionClients cs))%nat as Hrlt.
  { rewrite (Forall2_length _ _ _ Hregions). by eapply lookup_lt_Some. }
  destruct (lookup_lt_is_Some_2 (zoneClients cs) r) as [row Hrow]; [lia|].
  exists r. split; [done|].
  unfold findBestLocation. rewrite result_bind, Er. simpl.
  rewrite result_bind.
  rewrite (index_lookup (zoneClients cs) _ row); [|lia|].
  2:{ replace (Z.to_nat (Z.of_nat (S r) - 1)) with r by lia. done. }
  simpl. rewrite lowestDifficulty_down.
  2:{ rewrite Forall_forall in Hzones. apply Hzones, list_elem_of_lookup. eauto. }
  simpl. do 2 f_equal. apply Z.mod_small. lia.
Qed.

(** A tick of [checkBestLocation] can take the coordinator down. When
    the regions answer (one of them with a difficulty below
    [math.MaxInt]) but no zone node does, [findBestLocation] returns a
    location whose zone byte is zero; the tick adopts it, the
    coordinator's zone being at least one, and
    [subscribeAllPendingBlocks] then panics on the zone flag it reads
    at index 255. *)
Theorem checkBestLocation_zone_unreachable (m : Manager) (net : Network)
    (regionDifficulties : list Z) (r0 z0 : Z) :
  shaped (clients m) → flagged (clients m) →
  location m = [r0; z0] → 1 <= z0 →
  Forall2 (λ c d, difficultyOf net 1 c = Some d)
    (regionClients (clients m)) regionDifficulties →
  (∃ d, d ∈ regionDifficulties ∧ d < MaxInt) →
  Forall (Forall (down net)) (zoneClients (clients m)) →
  (∃ r, 1 <= r <= 3 ∧ result (findBestLocation (clients m) net) = Some [r; 0]) ∧
  result (checkBestLocation m net) = None.
Proof.
  intros Hs Hf Hloc Hz0 Hregions Hsome Hzones.
  destruct (findBestLocation_no_zone (clients m) net regionDifficulties)
    as (r & Hr & Hbest); try done.
  { destruct Hs as (-> & -> & _). lia. }
  { destruct Hs as (-> & _). lia. }
  assert (1 <= Z.of_nat (S r) <= 3) as Hr3 by (destruct Hs as (? & _); lia).
  split; [eauto|].
  unfold checkBestLocation. rewrite result_bind, Hbest. simpl.
  rewrite decide_False by (rewrite Hloc; intros [= _ <-]; lia).
  unfold subscribeAllPendingBlocks. rewrite result_bind.
  by rewrite (bundle_zone_zero _ _ net (Z.of_nat (S r))).
Qed.

Lemma sample_regions :
  Forall2 (λ c d, difficultyOf zonesSilent 1 c = Some d)
    (regionClients registry) [50; 50; 40].
Proof. by repeat constructor. Qed.

Lemma checkBestLocation_zone_unreachable_witness :
  (∃ r, 1 <= r <= 3 ∧
        result (findBestLocation registry zonesSilent) = Some [r; 0]) ∧
  result (checkBestLocation fullManager zonesSilent) = None.
Proof.
  apply (checkBestLocation_zone_unreachable fullManager zonesSilent
           [50; 50; 40] 1 1).
  - apply ResponderFacts.shaped_sample.
  - apply DispatcherMore.flagged_sample.
  - reflexivity.
  - lia.
  - apply sample_regions.
  - exists 40. split; [|by vm_compute].
    apply list_elem_of_In. simpl. tauto.
  - by repeat constructor.
Defined.

(** *** A tick settles *)

Lemma events_lowestDifficulty (net : Network) (tier : nat) (cs : list Client)
    (i best lowest : Z) :
  Forall (λ e, ∃ c, e = EvHeaderByNumber c)
    (events (lowestDifficulty net tier cs i best lowest)).
Proof.
  revert i best lowest.
  induction cs as [|c cs IH]; intros i best lowest; [by constructor|].
  cbn [lowestDifficulty]. rewrite events_bind. simpl.
  constructor; [eauto|].
  destruct (headerByNumber net c) as [h|]; [|apply IH].
  destruct (Difficulty h !! tier) as [[d|]|]; try by constructor.
  destruct (val d <? lowest); apply IH.
Qed.

Lemma events_findBestLocation (cs : orderedBlockClients) (net : Network) :
  Forall (λ e, ∃ c, e = EvHeaderByNumber c) (events (findBestLocation cs net)).
Proof.
  unfold findBestLocation. rewrite events_bind. apply Forall_app.
  split; [apply events_lowestDifficulty|].
  destruct (result _) as [[r ?]|]; [|by constructor].
  rewrite events_bind. apply Forall_app. split.
  { unfold index. by destruct (if 0 <=? r - 1 then _ else _); constructor. }
  destruct (result _) as [row|]; [|by constructor].
  rewrite events_bind. apply Forall_app.
  split; [apply events_lowestDifficulty|].
  by destruct (result _) as [[? ?]|]; constructor.
Qed.

Lemma events_bundle (start : Client → Z → Goroutine) (m : Manager)
    (net : Network) :
  Forall (λ e, ∃ c, e = EvHeaderByNumber c) (events (bundle start m net)).
Proof.
  unfold bundle, checkConnection, index.
  repeat first
    [ rewrite events_bind; apply Forall_app; split
    | progress simpl
    | by constructor
    | by (constructor; [eauto|constructor])
    | match goal with
      | |- context [match ?x with _ => _ end] => destruct x
      end ].
Qed.

(** A tick of [checkBestLocation] that runs through issues
    [HeaderByNumber] calls only (it never takes the coordinator mutex,
    though it writes [m.location]); it leaves the registry, the
    combined header (its [Location] included) and the pending blocks as
    they were; it starts goroutines only if it changed the location; and
    a second tick under the same answers changes nothing and starts
    nothing. *)
Theorem checkBestLocation_settles (m m' : Manager) (net : Network)
    (gs : list Goroutine) :
  result (checkBestLocation m net) = Some (m', gs) →
  clients m' = clients m ∧ combinedHeader m' = combinedHeader m ∧
  pendingBlocks m' = pendingBlocks m ∧
  result (findBestLocation (clients m) net) = Some (location m') ∧
  (gs ≠ [] → location m' ≠ location m) ∧
  result (checkBestLocation m' net) = Some (m', []) ∧
  Forall (λ e, ∃ c, e = EvHeaderByNumber c) (events (checkBestLocation m net)).
Proof.
  unfold checkBestLocation at 1. rewrite result_bind.
  destruct (result (findBestLocation (clients m) net)) as [loc|] eqn:Hbest;
    [|done].
  simpl. intros Hres.
  assert (clients m' = clients m ∧ combinedHeader m' = combinedHeader m ∧
          pendingBlocks m' = pendingBlocks m ∧ location m' = loc ∧
          (gs ≠ [] → location m' ≠ location m)) as (Hc & Hh & Hp & Hl & Hgs).
  { destruct (decide (loc = location m)) as [->|Hne].
    - injection Hres as <- <-. done.
    - rewrite result_bind in Hres.
      destruct (result (subscribeAllPendingBlocks _ net)); [|done].
      simpl in Hres. rewrite result_bind in Hres.
      destruct (result (fetchAllPendingBlocks _ net)); [|done].
      simpl in Hres. injection Hres as <- <-. done. }
  repeat split; try done.
  - by rewrite Hl.
  - unfold checkBestLocation. rewrite result_bind, Hc, Hbest. simpl.
    by rewrite decide_True.
  - unfold checkBestLocation. rewrite events_bind. apply Forall_app.
    split; [apply events_findBestLocation|]. rewrite Hbest.
    destruct (decide (loc = location m)); [by constructor|].
    rewrite events_bind. apply Forall_app. split; [apply events_bundle|].
    destruct (result (subscribeAllPendingBlocks _ net)); [|by constructor].
    rewrite events_bind. apply Forall_app. split; [apply events_bundle|].
    by destruct (result (fetchAllPendingBlocks _ net)); constructor.
Qed.

Lemma checkBestLocation_settles_witness :
  ∃ m',
    result (checkBestLocation fullManager ordinary) =
      Some (m', [SubscribePendingHeader 100%N 0; SubscribePendingHeader 130%N 1;
                 SubscribePendingHeader 132%N 2; FetchPendingBlocks 100%N 0;
                 FetchPendingBlocks 130%N 1; FetchPendingBlocks 132%N 2]) ∧
    location m' = [3; 2] ∧
    Location (combinedHeader m') = [1; 1] ∧
    result (checkBestLocation m' ordinary) = Some (m', []).
Proof.
  destruct (result (checkBestLocation fullManager ordinary)) as [[m' gs]|]
    eqn:Htick; [|by vm_compute in Htick].
  destruct (checkBestLocation_settles fullManager m' ordinary gs Htick)
    as (_ & _ & _ & _ & _ & Hagain & _).
  exists m'. vm_compute in Htick. injection Htick as <- <-.
  split; [reflexivity|]. split; [reflexivity|]. split; [reflexivity|].
  exact Hagain.
Defined.

End SubscriptionFacts.

(** ** New heads *)

Module PropagatorFacts.
Import Responder Dispatcher DispatcherSpec Propagator Sample EffFacts.
Import DispatcherFacts.

Lemma emit_bind {A} (e : Event) (f : () → Eff A) :
  events (emit e ≫= f) = e :: events (f ()).
Proof. rewrite events_bind. done. Qed.

Lemma events_ret {A} (a : A) : events (mret (M := Eff) a) = [].
Proof. done. Qed.

Lemma events_panic {A} : events (panic (A := A)) = [].
Proof. done. Qed.

Lemma index_cases {A} (l : list A) (i : Z) :
  index l i = panic ∨
  ∃ x, index l i = mret x ∧ 0 <= i ∧ l !! Z.to_nat i = Some x.
Proof.
  unfold index. destruct (Z.leb_spec 0 i); [|by left].
  destruct (l !! Z.to_nat i) as [x|]; [right; eauto|by left].
Qed.

Lemma SendClientsExtBlock_sends (m : Manager) (mined : Z) (ctxs : list Z)
    (block : Block) (receiptBlock : ReceiptBlock) :
  Forall (λ e, ∃ c, e = EvSendExternalBlock c block (rReceipts receiptBlock)
                          mined)
    (events (SendClientsExtBlock m mined ctxs block receiptBlock)).
Proof.
  unfold SendClientsExtBlock. issues;
    try (apply issues_emit; eauto).
Qed.

Lemma withReceipts_sends (m : Manager) (mined : Z) (ctxs : list Z)
    (block : Block) (receiptBlock : option ReceiptBlock) :
  events (withReceipts receiptBlock (SendClientsExtBlock m mined ctxs block))
    ≠ [] →
  ∃ rb, receiptBlock = Some rb ∧
    Forall (λ e, ∃ c, e = EvSendExternalBlock c block (rReceipts rb) mined)
      (events (withReceipts receiptBlock
                 (SendClientsExtBlock m mined ctxs block))).
Proof.
  destruct receiptBlock as [rb|]; simpl.
  - intros _. exists rb. split; [done|]. apply SendClientsExtBlock_sends.
  - destruct (events (SendClientsExtBlock _ _ _ _ _)) eqn:E; [|done].
    intros H. by rewrite E in H.
Qed.

Ltac prefix_of l tail :=
  match l with
  | tail => constr:(@nil Event)
  | ?x :: ?r => let p := prefix_of r tail in constr:(x :: p)
  end.

Ltac unfold_handler :=
  repeat first
    [ rewrite emit_bind
    | rewrite events_ret
    | rewrite events_panic
    | rewrite bind_ret
    | rewrite bind_panic
    | match goal with
      | |- context [index ?l ?i] =>
          let H := fresh "Hindex" in
          destruct (index_cases l i) as [H|(? & H & ? & ?)]; rewrite H;
          clear H
      end ].

(** What [subscribeNewHeadClient] does with a new head, whatever the
    nodes answer. Its calls are [BlockByHash], then calls that are not
    [SendExternalBlock], then [SendExternalBlock] calls only. Among the
    former there are at most two [SendMinedBlock] calls for a PRIME
    head, one for a region head and none for a zone head. The head's
    block is passed on as an external block only if [BlockByHash] and
    [GetBlockReceipts] returned no error, the block carries a location
    and every lower-tier external block the head needs was found; every
    such call carries that block, the receipts fetched for it and the
    tier of the subscription. *)
Theorem subscribeNewHeadClient_gates (hashOf : Header → Hash) (m : Manager)
    (net : Network) (client : Client) (difficultyContext : Z) (newHead : Hash)
    (err : bool) :
  ∃ calls sends,
    events (subscribeNewHeadClient hashOf m net client difficultyContext
              newHead err) =
      EvBlockByHash client newHead :: calls ++ sends ∧
    Forall (λ e, isSendExternalBlock e = false) calls ∧
    (count isSendMinedBlock calls ≤ Z.to_nat (2 - difficultyContext))%nat ∧
    (sends ≠ [] →
       err = false ∧ (getBlockReceipts net client newHead).2 = false ∧
       0 <= difficultyContext <= 2 ∧
       ∃ block receiptBlock,
         blockByHash net client newHead = Some block ∧
         Location (bHeader block) ≠ [] ∧
         (getBlockReceipts net client newHead).1 = Some receiptBlock ∧
         lowerFound hashOf m net difficultyContext block ∧
         Forall (λ e, ∃ c, e = EvSendExternalBlock c block
                                 (rReceipts receiptBlock) difficultyContext)
           sends).
Proof.
  unfold subscribeNewHeadClient. rewrite emit_bind.
  destruct err.
  { exists [], []. split; [done|]. split; [constructor|].
    split; [simpl; lia|]. done. }
  rewrite emit_bind.
  destruct (getBlockReceipts net client newHead) as [rbo [|]] eqn:Hrb.
  { exists [EvGetBlockReceipts client newHead], []. split; [done|].
    split; [by repeat constructor|]. split; [simpl; lia|]. done. }
  destruct (blockByHash net client newHead) as [block|] eqn:Hblock.
  2:{ exists [EvGetBlockReceipts client newHead], []. split; [done|].
    split; [by repeat constructor|]. split; [simpl; lia|]. done. }
  destruct (Location (bHeader block)) as [|a loc] eqn:Hloc.
  { exists [EvGetBlockReceipts client newHead], []. split; [done|].
    split; [by repeat constructor|]. split; [simpl; lia|]. done. }
  rewrite <- Hloc.
  destruct (Z.eqb_spec difficultyContext 0) as [->|H0];
    [|destruct (Z.eqb_spec difficultyContext 1) as [->|H1];
      [|destruct (Z.eqb_spec difficultyContext 2) as [->|H2]]].
  all: repeat first
    [ progress unfold_handler
    | match goal with
      | |- context [match getExternalBlock ?n ?c ?h ?k with _ => _ end] =>
          destruct (getExternalBlock n c h k) eqn:?
      end ].
  all: match goal with
    | |- ∃ calls sends, _ :: ?rest = _ ∧ _ =>
        match rest with
        | context [events (withReceipts ?a ?b)] =>
            let p := prefix_of rest (events (withReceipts a b)) in
            exists p, (events (withReceipts a b))
        | _ => exists rest, (@nil Event); rewrite app_nil_r
        end
    end.
  all: (split; [reflexivity|]); (split; [by repeat constructor|]);
    (split; [simpl; lia|]); try done.
  all: intros (rb & -> & Hsends)%withReceipts_sends;
    (split; [done|]); (split; [done|]); (split; [lia|]);
    exists block, rb; (split; [done|]); (split; [by rewrite Hloc|]);
    (split; [done|]); (split; [|done]).
  all: split; intros ?; try done; try lia; eauto 10.
Qed.

Lemma index_int_slot {A} (l : list A) (b : Z) :
  length l = 3%nat → 1 <= b <= 3 →
  ∃ x, index l (b - 1) = mret x ∧ l !! Z.to_nat (b - 1) = Some x.
Proof.
  intros Hl Hb.
  destruct (lookup_lt_is_Some_2 l (Z.to_nat (b - 1))) as [x Hx]; [lia|].
  exists x. split; [|done]. apply index_lookup; [lia|done].
Qed.

(** A PRIME head whose block, receipts and two lower-tier external
    blocks are all found, in a registry of the three-by-three layout:
    the handler returns after sending the region's external block,
    rebuilt and sealed with its own header, to the region it is located
    in, then the zone's likewise to its zone, and then the head's block
    as an external block to the region and the zone of the block's
    location (when flagged available) and to every other region and
    zone. *)
Theorem subscribeNewHeadClient_prime_head (hashOf : Header → Hash)
    (m : Manager) (net : Network) (client : Client) (newHead : Hash)
    (block : Block) (receiptBlock : ReceiptBlock)
    (regionExternalBlock zoneExternalBlock : ExternalBlock)
    (r z r1 z1 r2 z2 : Z) :
  shaped (clients m) → flagged (clients m) →
  blockByHash net client newHead = Some block →
  getBlockReceipts net client newHead = (Some receiptBlock, false) →
  Location (bHeader block) = [r; z] → 1 <= r <= 3 → 1 <= z <= 3 →
  getExternalBlock net (primeClient (clients m)) (hashOf (bHeader block)) 1 =
    Some regionExternalBlock →
  Location (eHeader regionExternalBlock) = [r1; z1] → 1 <= r1 <= 3 →
  getExternalBlock net (primeClient (clients m)) (hashOf (bHeader block)) 2 =
    Some zoneExternalBlock →
  Location (eHeader zoneExternalBlock) = [r2; z2] →
  1 <= r2 <= 3 → 1 <= z2 <= 3 →
  ∃ regionClient zoneClient,
    nodeAt (clients m) 1 r1 z1 = Some regionClient ∧
    nodeAt (clients m) 2 r2 z2 = Some zoneClient ∧
    subscribeNewHeadClient hashOf m net client 0 newHead false =
      mkEff
        ([EvBlockByHash client newHead; EvGetBlockReceipts client newHead;
          EvGetExternalBlock (primeClient (clients m))
            (hashOf (bHeader block)) 1;
          EvSendMinedBlock regionClient (rebuilt regionExternalBlock);
          EvGetExternalBlock (primeClient (clients m))
            (hashOf (bHeader block)) 2;
          EvSendMinedBlock zoneClient (rebuilt zoneExternalBlock)] ++
         ((λ c, EvSendExternalBlock c block (rReceipts receiptBlock) 0) <$>
            fanOut (clients m) r z [1; 2]))
        (Some ()).
Proof.
  intros Hs Hf Hblock Hrb Hloc Hr Hz Hreg Hrloc Hr1 Hzone Hzloc Hr2 Hz2.
  pose proof Hs as (Hrc & Hzc & Hzrows).
  destruct (index_int_slot (regionClients (clients m)) r1 Hrc Hr1)
    as (rc & Erc & Hrc').
  destruct (index_int_slot (zoneClients (clients m)) r2 Hzc Hr2)
    as (row & Erow & Hrow).
  assert (length row = 3%nat) as Hlen.
  { rewrite Forall_forall in Hzrows. apply Hzrows.
    apply list_elem_of_lookup. eauto. }
  destruct (index_int_slot row z2 Hlen Hz2) as (zc & Ezc & Hzc').
  exists rc, zc. unfold nodeAt. simpl. rewrite Hrow. simpl.
  split; [done|]. split; [done|].
  unfold subscribeNewHeadClient. rewrite Hrb, Hblock, Hloc, Hreg, Hzone.
  cbn [rebuilt NewBlockWithBody WithSeal bHeader Z.eqb].
  rewrite Hrloc, Hzloc.
  change (index [r1; z1] 0) with (mret (M := Eff) r1).
  change (index [r2; z2] 0) with (mret (M := Eff) r2).
  change (index [r2; z2] 1) with (mret (M := Eff) z2).
  rewrite !bind_ret, Erc, Erow, !bind_ret, Ezc, !bind_ret.
  unfold withReceipts.
  rewrite (DispatcherMore.SendClientsExtBlock_spec m 0 [1; 2] block
             receiptBlock r z Hs Hf Hloc Hr Hz).
  reflexivity.
Qed.

Lemma subscribeNewHeadClient_prime_head_witness :
  ∃ regionClient zoneClient,
    nodeAt registry 1 2 1 = Some regionClient ∧
    nodeAt registry 2 3 2 = Some zoneClient ∧
    subscribeNewHeadClient sampleHash fullManager relaying 100%N 0 9%N false =
      mkEff
        ([EvBlockByHash 100%N 9%N; EvGetBlockReceipts 100%N 9%N;
          EvGetExternalBlock 100%N 7%N 1;
          EvSendMinedBlock regionClient (rebuilt (externalAt [2; 1]));
          EvGetExternalBlock 100%N 7%N 2;
          EvSendMinedBlock zoneClient (rebuilt (externalAt [3; 2]))] ++
         ((λ c, EvSendExternalBlock c heldBlock (rReceipts nextHeight) 0) <$>
            fanOut registry 1 1 [1; 2]))
        (Some ()).
Proof.
  apply (subscribeNewHeadClient_prime_head sampleHash fullManager relaying
           100%N 9%N heldBlock nextHeight (externalAt [2; 1])
           (externalAt [3; 2]) 1 1 2 1 3 2);
    try reflexivity; try lia.
  - apply ResponderFacts.shaped_sample.
  - apply DispatcherMore.flagged_sample.
Defined.

End PropagatorFacts.

(** ** No call of an iteration is lost or issued twice *)

Module DispatcherTrace.
Import Dispatcher DispatcherSpec Sample DriverFacts DispatcherFacts.

Lemma step_conserves (p : Event → bool) (c c' : Config) :
  step c c' →
  (count p (trace c') + count p (pendingEvents c') =
   count p (trace c) + count p (pendingEvents c))%nat.
Proof.
  destruct 1; unfold pendingEvents; simpl;
    rewrite ?map_app, ?concat_app; simpl;
    rewrite ?count_app; simpl; rewrite ?count_app; simpl; lia.
Qed.

(** The interleaving loses no call and issues none twice. *)
Lemma reachable_conserves (m : Manager) (net : Network)
    (bundle : HeaderBundle) (c : Config) (p : Event → bool) :
  reachable m net bundle c →
  (count p (trace c) + count p (pendingEvents c) =
   count p (pendingEvents (initial m net bundle)))%nat.
Proof.
  revert c. apply rtc_ind_r; [done|].
  intros c c' _ Hstep IH. by rewrite (step_conserves p c c' Hstep).
Qed.

End DispatcherTrace.

(** ** The mode, the mining location and the nonce check *)

Module StartupFacts.
Import Locator Startup Sample EffFacts.

Lemma findBestLocation_two (cs : orderedBlockClients) (net : Network)
    (location : list Z) :
  result (findBestLocation cs net) = Some location →
  ∃ r z, location = [r; z] ∧ 0 <= r < 256 ∧ 0 <= z < 256.
Proof.
  unfold findBestLocation. rewrite result_bind.
  destruct (result (lowestDifficulty net 1 _ 0 0 MaxInt)) as [[r lowestR]|];
    [|done].
  simpl. rewrite result_bind.
  destruct (result (index (zoneClients cs) (r - 1))) as [row|]; [|done].
  simpl. rewrite result_bind.
  destruct (result (lowestDifficulty net 2 row 0 0 MaxInt)) as [[z lowestZ]|];
    [|done].
  simpl. intros [= <-]. exists (r mod 256), (z mod 256).
  split; [done|]. split; apply Z.mod_pos_bound; lia.
Qed.

(** The mining location [main] starts with always has two bytes. With
    more than three command-line words the location is made of the low
    bytes of the numbers read from the second and third word: none of
    the three checks on the number of values can fire, no node is
    called, mining is on exactly when the fourth word reads as 1, and
    the location is never re-examined. In the other two modes, whenever
    [main] gets past the choice, the location has two entries: the
    automatic mode takes the pair [findBestLocation] returns, and the
    listening mode ends in [log.Fatal] unless the configured location
    has two. *)
Theorem selectMode_location (atoi : string → Z) (args : list string)
    (config : Settings) (allClients : orderedBlockClients) (net : Network) :
  ((3 < length args)%nat →
   ∃ program region zone third rest,
     args = program :: region :: zone :: third :: rest ∧
     selectMode atoi args config allClients net =
       mret (Chosen [atoi region mod 256; atoi zone mod 256]
               (atoi third =? 1) false)) ∧
  (∀ location mine changeLocationCycle,
     result (selectMode atoi args config allClients net) =
       Some (Chosen location mine changeLocationCycle) →
     length location = 2%nat ∧
     (changeLocationCycle = true →
      (length args ≤ 3)%nat ∧ Auto config = true ∧ Mine config = true ∧
      Optimize config = true ∧ mine = true)).
Proof.
  split.
  - intros Hlen.
    destruct args as [|program [|region [|zone [|third rest]]]];
      simpl in Hlen; try lia.
    exists program, region, zone, third, rest. split; [done|].
    unfold selectMode. rewrite decide_True by (simpl; lia). done.
  - intros location mine cycle. unfold selectMode.
    destruct (decide (3 < length args)%nat) as [Hlen|Hlen].
    + destruct args as [|program [|region [|zone [|third rest]]]];
        simpl in Hlen; try lia.
      simpl. by intros [= <- <- <-].
    + destruct (Auto config), (Mine config); simpl;
        try (rewrite result_bind;
             destruct (result (findBestLocation allClients net)) as [loc|]
               eqn:Hbest; [|done]; simpl; intros [= <- <- <-];
             destruct (findBestLocation_two _ _ _ Hbest) as (r & z & -> & _);
             split; [done|]; intros ->; repeat split; (done || lia));
        destruct (Nat.eqb_spec (length (Location_ config)) 2); simpl;
        try done; by intros [= <- <- <-].
Qed.

(** [checkNonceEmpty] answers true exactly when no header has an empty
    nonce: neither the common head nor any header of the two chains. *)
Theorem checkNonceEmpty_all_sealed (commonHead : Header)
    (oldChain newChain : list Header) :
  checkNonceEmpty (Some commonHead) (Some <$> oldChain) (Some <$> newChain) =
    Some (forallb sealedHeader (commonHead :: oldChain ++ newChain)).
Proof.
  assert (∀ chain, nonceLoop (Some <$> chain) =
                   Some (forallb sealedHeader chain)) as Hloop.
  { induction chain as [|h chain IH]; [done|].
    rewrite fmap_cons. cbn [nonceLoop forallb]. rewrite IH.
    unfold sealedHeader. by destruct (Nonce h =? emptyNonce)%N. }
  unfold checkNonceEmpty. rewrite !Hloop. cbn [forallb mbind option_bind].
  rewrite forallb_app.
  destruct (forallb sealedHeader oldChain), (forallb sealedHeader newChain);
    unfold sealedHeader; by destruct (Nonce commonHead =? emptyNonce)%N.
Qed.


End StartupFacts.

(** ** The sync check of the pending-header subscription *)

Module PendingHeaderFacts.
Import PendingHeader.

Lemma syncLoop_spec (checkSync err : bool) (polls : nat) (script : list Sync) :
  match syncLoop checkSync err polls script with
  | Some (checkSync', err', polls') =>
      checkSync' && negb err' = false ∧
      ∃ k, polls' = (polls + k)%nat ∧
        Forall (λ a, busy a = true) (take (pred k) script) ∧
        match k with
        | O => checkSync' = checkSync ∧ err' = err
        | S j => checkSync && negb err = true ∧
                 script !! j = Some (mkSync checkSync' err')
        end
  | None =>
      checkSync && negb err = true ∧ Forall (λ a, busy a = true) script
  end.
Proof.
  revert checkSync err polls.
  induction script as [|a script IH]; intros checkSync err polls; simpl.
  - destruct (checkSync && negb err) eqn:E; [done|].
    split; [done|]. exists 0%nat. repeat split; (done || lia).
  - destruct (checkSync && negb err) eqn:E.
    + specialize (IH (syncing a) (syncFailed a) (S polls)).
      destruct (syncLoop _ _ _ script) as [[[c' e'] p']|].
      * destruct IH as (Hexit & k & -> & Hbusy & Hk). split; [done|].
        exists (S k). split; [lia|]. destruct k as [|j]; simpl in *.
        -- destruct Hk as [-> ->]. split; [constructor|]. split; [done|].
           by destruct a.
        -- destruct Hk as [Hb Hj]. split; [by constructor|]. done.
      * destruct IH as [Hb Hall]. split; [done|]. by constructor.
    + split; [done|]. exists 0%nat. repeat split; (done || lia).
Qed.

(** The sync check of [subscribePendingHeader]. It polls [SyncProgress] with
    no pause until an answer is not "syncing, no error"; it subscribes
    exactly when that answer is "not syncing, no error" and the
    subscription itself succeeds, and returns for good when that answer
    carries an error. Once subscribed it calls [fetchPendingBlocks] with
    its own client and tier once per header notification, and a message
    on [doneCh] neither stops it nor changes what it does next. *)
Theorem subscribePendingHeader_gate (client : Client) (sliceIndex : Z)
    (script : list Sync) (subscribeFailed : bool) (notices : list Notice) :
  let run :=
    subscribePendingHeader client sliceIndex script subscribeFailed notices in
  match ending run with
  | Polling => Forall (λ a, busy a = true) script ∧ fetched run = []
  | outcome =>
      ∃ last,
        script !! pred (polls run) = Some last ∧ (0 < polls run)%nat ∧
        Forall (λ a, busy a = true) (take (pred (polls run)) script) ∧
        busy last = false ∧
        match outcome with
        | Serving =>
            syncing last = false ∧ syncFailed last = false ∧
            subscribeFailed = false ∧
            fetched run =
              replicate (length (List.filter isHeader notices))
                (client, sliceIndex)
        | Exits =>
            syncing last = false ∧ syncFailed last = false ∧
            subscribeFailed = true ∧ fetched run = []
        | _ => syncFailed last = true ∧ fetched run = []
        end
  end.
Proof.
  intros run. subst run. unfold subscribePendingHeader.
  destruct script as [|first script]; [by split|].
  pose proof (syncLoop_spec (syncing first) (syncFailed first) 1 script) as H.
  destruct (syncLoop _ _ _ script) as [[[c e] p]|].
  - destruct H as (Hexit & k & -> & Hbusy & Hk).
    assert (∃ last, (first :: script) !! k = Some last ∧
                    last = mkSync c e ∧
                    Forall (λ a, busy a = true) (take k (first :: script)))
      as (last & Hlast & -> & Hall).
    { destruct k as [|j]; simpl in *.
      - destruct Hk as [-> ->]. exists first. split; [done|].
        split; [by destruct first|constructor].
      - destruct Hk as [Hb Hj]. exists (mkSync c e). split; [done|].
        split; [done|]. constructor; [done|].
        destruct j; simpl in *; [constructor|done]. }
    assert (fetchedOK :
      serve client sliceIndex notices =
        replicate (length (List.filter isHeader notices)) (client, sliceIndex)).
    { induction notices as [|[|] notices IH]; simpl; [done| |done].
      by rewrite IH. }
    destruct c, e; simpl in *; try done;
      try (destruct subscribeFailed; simpl);
      (eexists; split; [exact Hlast|]);
      repeat split; simpl; try done; try lia;
      try (by left); try (by right).
  - destruct H as [Hb Hall]. simpl. split; [|done]. by constructor.
Qed.

End PendingHeaderFacts.

(** ** The dispatcher from one iteration to the next *)

Module DispatcherLoopFacts.
Import Dispatcher DispatcherSpec DispatcherLoop Sample EffFacts DriverFacts.
Import DispatcherFacts DispatcherMore.

(** *** The mutex across iterations *)

Lemma entered_blocked (m : Manager) (net : Network) (bundle : HeaderBundle)
    (c' : Config) :
  ¬ step (entered true m net bundle) c'.
Proof.
  unfold entered, resultLoop. intros H.
  inversion H; subst; by destruct ts1.
Qed.

Lemma finished_held (m : Manager) (net : Network) (bundle : HeaderBundle)
    (c : Config) :
  reachable m net bundle c → finished c →
  held c = negb (forallb (answers net) (everyClient (clients m))).
Proof.
  intros Hc [Hmain _].
  destruct (reachable_finalHeld m net bundle c Hc) as [Hfinal Hpanic].
  rewrite Hmain in Hfinal, Hpanic. simpl in Hfinal. rewrite Hfinal.
  apply resultLoop_finalHeld. by intros ?%Hpanic%elem_of_nil.
Qed.

Lemma afterOffline_held (c : Config) :
  afterOffline c → ∃ m net bundle, c = entered true m net bundle.
Proof.
  intros (m0 & net0 & bundle0 & c0 & m & net & bundle & Hc0 & [Hmain Hts] & Hoff & ->).
  exists m, net, bundle. f_equal.
  rewrite (finished_held m0 net0 bundle0 c0 Hc0 (conj Hmain Hts)).
  by rewrite Hoff.
Qed.

Lemma iterated_cases (c : Config) :
  iterated c → (∃ m net bundle, reachable m net bundle c) ∨ afterOffline c.
Proof.
  induction 1 as [m net bundle|c c' _ IH Hstep|c m net bundle _ IH Hfin].
  - left. exists m, net, bundle. apply rtc_refl.
  - destruct IH as [(m & net & bundle & Hc)|Hoff].
    + left. exists m, net, bundle. by eapply rtc_r.
    + apply afterOffline_held in Hoff as (m & net & bundle & ->).
      by apply entered_blocked in Hstep.
  - destruct IH as [(m0 & net0 & bundle0 & Hc)|Hoff].
    + destruct (forallb (answers net0) (everyClient (clients m0))) eqn:Hon.
      * left. exists m, net, bundle.
        rewrite (finished_held m0 net0 bundle0 c Hc Hfin), Hon.
        apply rtc_refl.
      * right. by exists m0, net0, bundle0, c, m, net, bundle.
    + apply afterOffline_held in Hoff as (m1 & net1 & bundle1 & ->).
      by destruct Hfin as [Hmain _].
Qed.

Lemma iterated_rtc (c c' : Config) : iterated c → rtc step c c' → iterated c'.
Proof.
  intros Hc Hsteps. induction Hsteps as [|c c1 c' Hstep _ IH]; [done|].
  apply IH. by eapply iterated_step.
Qed.

(** From one iteration of [resultLoop] to the next, under every
    interleaving: unless a panic has taken the process down or the
    iteration is over, some goroutine can take a step, except at the
    start of an iteration that follows a failed reachability check.
    There the coordinator stands still for good: the [continue] taken
    when a chain is offline has skipped [m.lock.Unlock()], the mutex is
    still held and [m.lock.Lock()] cannot be passed. Within an
    iteration every [wg.Wait()] is eventually passed. *)
Theorem resultLoop_progress (c : Config) :
  iterated c →
  (crashed c = false → ¬ finished c → (∃ c', step c c') ∨ afterOffline c) ∧
  (afterOffline c → held c = true ∧ ∀ c', ¬ step c c').
Proof.
  intros Hc. split.
  - intros Hcr Hnf.
    destruct (iterated_cases c Hc) as [(m & net & bundle & Hr)|Hoff]; [|by right].
    left. by apply (reachable_progress m net bundle).
  - intros (m & net & bundle & ->)%afterOffline_held.
    split; [done|]. intros c'. apply entered_blocked.
Qed.

Lemma resultLoop_progress_witness :
  afterOffline (entered true fullManager quiet primeBundle) ∧
  ∀ c', ¬ step (entered true fullManager quiet primeBundle) c'.
Proof.
  destruct (run (replicate 7 None) (initial fullManager zoneDown primeBundle))
    as [c0|] eqn:Hrun; [|by vm_compute in Hrun].
  assert (iterated c0) as Hc0.
  { apply (iterated_rtc (entered false fullManager zoneDown primeBundle));
      [apply iterated_first | exact (run_steps _ _ _ Hrun)]. }
  assert (finished c0 ∧ held c0 = true) as [Hfin Hheld]
    by (vm_compute in Hrun; injection Hrun as <-; by repeat split).
  pose proof (iterated_next c0 fullManager quiet primeBundle Hc0 Hfin) as Hnext.
  rewrite Hheld in Hnext.
  destruct (resultLoop_progress _ Hnext) as [Hgo Hstop].
  destruct Hgo as [[c' Hstep]|Hoff].
  - reflexivity.
  - intros [Hmain _]. by vm_compute in Hmain.
  - by apply entered_blocked in Hstep.
  - split; [exact Hoff | apply Hstop, Hoff].
Defined.

End DispatcherLoopFacts.

(** ** The cost of an iteration *)

Module DispatcherCost.
Import Dispatcher DispatcherSpec DispatcherLoop Sample EffFacts DriverFacts.
Import DispatcherFacts DispatcherMore.

(** *** How many calls each piece of the dispatcher issues *)

Lemma size_bind {A B} (x : Eff A) (f : A → Eff B) (a b : nat) :
  (length (events x) ≤ a)%nat → (∀ v, (length (events (f v)) ≤ b)%nat) →
  (length (events (x ≫= f)) ≤ a + b)%nat.
Proof.
  intros Hx Hf. rewrite events_bind, length_app.
  destruct (result x) as [v|]; [specialize (Hf v)|]; simpl; lia.
Qed.

Lemma size_index {A B} (l : list A) (i : Z) (f : A → Eff B) (b : nat) :
  (∀ v, (length (events (f v)) ≤ b)%nat) →
  (length (events (index l i ≫= f)) ≤ b)%nat.
Proof.
  intros Hf. apply (size_bind _ _ 0%nat b); [|done].
  unfold index. by repeat case_match.
Qed.

Lemma size_when (c : bool) (body : Eff ()) (b : nat) :
  (length (events body) ≤ b)%nat →
  (length (events (when c body)) ≤ if c then b else 0)%nat.
Proof. by destruct c. Qed.

Lemma size_forRange {A} (f : Z → A → Eff ()) (w : A → nat) (l : list A) :
  (∀ i x, (length (events (f i x)) ≤ w x)%nat) →
  ∀ i, (length (events (forRange f i l)) ≤ sum_list (w <$> l))%nat.
Proof.
  intros Hf. induction l as [|x l IH]; intros i; simpl; [lia|].
  apply size_bind; [apply Hf | intros _; apply IH].
Qed.

Lemma sum_ones {A} (l : list A) : sum_list ((λ _, 1%nat) <$> l) = length l.
Proof. induction l as [|x l IH]; simpl; [done|]. f_equal. exact IH. Qed.

Lemma sum_lengths {A} (rows : list (list A)) :
  sum_list (length <$> rows) = length (concat rows).
Proof.
  induction rows as [|r rows IH]; simpl; [done|].
  rewrite length_app. f_equal. exact IH.
Qed.

Lemma SendClientsExtBlock_size (m : Manager) (mined : Z)
    (externalContexts : list Z) (block : Block) (receiptBlock : ReceiptBlock) :
  (length (events (SendClientsExtBlock m mined externalContexts block
                     receiptBlock)) ≤
   length externalContexts + nodes (clients m))%nat.
Proof.
  unfold SendClientsExtBlock, nodes.
  destruct (Location (bHeader block)) as [|l0 ls]; [simpl; lia|].
  rewrite Nat.add_assoc, <- Nat.add_assoc.
  apply size_bind; [|intros _; apply size_bind; [|intros _]].
  - rewrite <- (sum_ones externalContexts). apply size_forRange. intros _ ctx.
    assert (∀ x y z : Eff (), ∀ a b c : nat,
              (length (events x) ≤ a)%nat → (length (events y) ≤ b)%nat →
              (length (events z) ≤ c)%nat → (a + b + c ≤ 1)%nat →
              (length (events (x;; y;; z)) ≤ 1)%nat) as Hseq.
    { intros x y z a b c Hx Hy Hz Habc.
      pose proof (size_bind x (λ _, y;; z) a (b + c) Hx
                    (λ _, size_bind y (λ _, z) b c Hy (λ _, Hz))). lia. }
    eapply Hseq.
    + apply (size_when _ _ 1). done.
    + apply (size_when _ _ 1).
      apply size_index. intros ?. apply size_index. intros available.
      destruct available; [|simpl; lia].
      apply size_index. intros ?. done.
    + apply (size_when _ _ 1).
      do 4 (apply size_index; intros ?).
      match goal with |- context [when ?c _] => destruct c end; [|simpl; lia].
      do 4 (apply size_index; intros ?). done.
    + destruct (Z.eqb_spec ctx 0), (Z.eqb_spec ctx 1), (Z.eqb_spec ctx 2);
        simpl; try lia; destruct (primeAvailable _); lia.
  - rewrite <- (sum_ones (regionClients (clients m))).
    apply size_forRange. intros i blockClient.
    apply size_index. intros l. destruct (l - 1 =? i); simpl; lia.
  - rewrite <- (sum_lengths (zoneClients (clients m))).
    apply size_forRange. intros i row.
    rewrite <- (sum_ones row). apply size_forRange. intros j blockClient.
    apply size_index. intros l.
    destruct (l - 1 =? i).
    + apply (size_bind _ _ 0 1)%nat.
      * apply size_index. intros l1. simpl. lia.
      * intros miningZone. destruct miningZone; simpl; lia.
    + rewrite bind_ret. simpl. lia.
Qed.

Lemma size_one_of (x y z : Eff ()) (a b c : nat) :
  (length (events x) ≤ a)%nat → (length (events y) ≤ b)%nat →
  (length (events z) ≤ c)%nat → (a + b + c ≤ 1)%nat →
  (length (events (x;; y;; z)) ≤ 1)%nat.
Proof.
  intros Hx Hy Hz Habc.
  pose proof (size_bind x (λ _, y;; z) a (b + c) Hx
                (λ _, size_bind y (λ _, z) b c Hy (λ _, Hz))). lia.
Qed.

Lemma SendClientsMinedExtBlock_size (m : Manager) (mined : Z)
    (externalContexts : list Z) (header : Header) :
  (length (events (SendClientsMinedExtBlock m mined externalContexts header)) ≤
   length externalContexts + nodes (clients m))%nat.
Proof.
  unfold SendClientsMinedExtBlock. apply size_index.
  intros [receiptBlock|]; [apply SendClientsExtBlock_size | simpl; lia].
Qed.

Lemma SendMinedBlock_size (m : Manager) (mined : Z) (header : Header) :
  (length (events (SendMinedBlock m mined header)) ≤ 1)%nat.
Proof.
  unfold SendMinedBlock. apply size_index.
  intros [receiptBlock|]; [|simpl; lia].
  eapply size_one_of.
  - apply (size_when _ _ 1). done.
  - apply (size_when _ _ 1). do 2 (apply size_index; intros ?). done.
  - apply (size_when _ _ 1). do 4 (apply size_index; intros ?). done.
  - destruct (Z.eqb_spec mined 0), (Z.eqb_spec mined 1), (Z.eqb_spec mined 2);
      simpl; lia.
Qed.

Lemma pinged_size (net : Network) (cs : list Client) :
  (length (pinged net cs) ≤ length cs)%nat.
Proof.
  induction cs as [|c cs IH]; simpl; [done|].
  destruct (answers net c); simpl; lia.
Qed.

Lemma allChainsOnline_size (m : Manager) (net : Network) :
  (length (events (allChainsOnline m net)) ≤ 1 + nodes (clients m))%nat.
Proof.
  rewrite allChainsOnline_spec. cbn [events]. rewrite length_fmap.
  etrans; [apply pinged_size|]. unfold everyClient, nodes. simpl.
  by rewrite length_app.
Qed.

Lemma weight_emits (evs : list Event) :
  sum_list (map weight (map IEmit evs)) = length evs.
Proof. induction evs as [|e evs IH]; simpl; [done|]. by rewrite IH. Qed.

(** The work an iteration starts with. *)
Lemma resultLoop_weight (m : Manager) (net : Network) (bundle : HeaderBundle) :
  (sum_list (map weight (resultLoop m net bundle)) ≤
   4 * nodes (clients m) + 32)%nat.
Proof.
  pose proof (allChainsOnline_size m net) as Honline.
  pose proof (SendClientsMinedExtBlock_size m 0 [1; 2] (Header_ bundle)) as He0.
  pose proof (SendClientsMinedExtBlock_size m 1 [0; 2] (Header_ bundle)) as He1.
  pose proof (SendClientsMinedExtBlock_size m 2 [0; 1] (Header_ bundle)) as He2.
  pose proof (SendMinedBlock_size m 0 (Header_ bundle)) as Hm0.
  pose proof (SendMinedBlock_size m 1 (Header_ bundle)) as Hm1.
  pose proof (SendMinedBlock_size m 2 (Header_ bundle)) as Hm2.
  cbv beta zeta delta [resultLoop spawn guarded].
  set (e0 := SendClientsMinedExtBlock m 0 [1; 2] (Header_ bundle)) in *.
  set (e1 := SendClientsMinedExtBlock m 1 [0; 2] (Header_ bundle)) in *.
  set (e2 := SendClientsMinedExtBlock m 2 [0; 1] (Header_ bundle)) in *.
  set (m0 := SendMinedBlock m 0 (Header_ bundle)) in *.
  set (m1 := SendMinedBlock m 1 (Header_ bundle)) in *.
  set (m2 := SendMinedBlock m 2 (Header_ bundle)) in *.
  set (online := allChainsOnline m net) in *.
  cbn [length] in *.
  cbn [map sum_list weight]. rewrite map_app, sum_app, weight_emits.
  repeat case_match; cbn [app map sum_list sum_list_with weight];
    repeat match goal with H : (_ =? _) = true |- _ => apply Z.eqb_eq in H end;
    unfold id; lia.
Qed.

(** An iteration of [resultLoop] terminates under every interleaving of
    its goroutines, and quickly: no run of the iteration, whatever the
    bundle, the shared state and the network, takes more than
    4 n + 33 steps, n being the number of region and zone nodes (a step
    is a statement of the coordinator, or a call or the return of a
    goroutine): the reachability check makes at most n + 1 calls, each
    of the at most three external-block goroutines at most n + 2, each
    of the at most three sealed-block goroutines at most one. *)
Theorem resultLoop_terminates (m : Manager) (net : Network)
    (bundle : HeaderBundle) (n : nat) (c : Config) :
  nsteps step n (initial m net bundle) c →
  (n ≤ 4 * nodes (clients m) + 33)%nat.
Proof.
  intros Hrun. apply nsteps_measure in Hrun.
  pose proof (resultLoop_weight m net bundle) as Hw.
  assert (measure (initial m net bundle) =
          S (sum_list (map weight (resultLoop m net bundle)) + 0)) as E
    by reflexivity.
  lia.
Qed.

Lemma resultLoop_terminates_witness :
  ∃ c,
    run (replicate 20 None ++
         concat (replicate 12 [Some 2; Some 0; Some 1]%nat) ++
         replicate 3 (Some 0%nat) ++ replicate 7 None ++
         [Some 1; Some 0; Some 2; Some 0; Some 0; Some 0]%nat ++
         replicate 2 None)
      (initial fullManager quiet primeBundle) = Some c ∧
    finished c ∧
    (74 ≤ 4 * nodes (clients fullManager) + 33)%nat.
Proof.
  destruct (run _ (initial fullManager quiet primeBundle)) as [c|] eqn:Hrun;
    [|by vm_compute in Hrun].
  exists c. split; [reflexivity|].
  pose proof (resultLoop_terminates fullManager quiet primeBundle _ c
                (run_nsteps _ _ _ Hrun)) as Hbound.
  split; [|exact Hbound].
  vm_compute in Hrun. injection Hrun as <-. by split.
Defined.

End DispatcherCost.

(** ** The sends of an iteration *)

Module DispatcherSends.
Import Dispatcher DispatcherSpec DispatcherLoop Sample EffFacts DriverFacts.
Import DispatcherFacts DispatcherMore DispatcherTrace.

(** *** What a dispatching iteration has sent when it is over *)

Lemma step_doomed (c c' : Config) : step c c' → doomed c → doomed c'.
Proof.
  unfold doomed. destruct 1; simpl.
  all: intros [Hp|(b & [Hb|Hb] & Hres)].
  all: repeat match goal with
         | H : _ ∈ _ :: _ |- _ => apply elem_of_cons in H as [H|H]
         | H : _ ∈ _ ++ _ |- _ => apply elem_of_app in H as [H|H]
         end; simplify_eq/=.
  all: try (left; rewrite ?elem_of_cons; by auto).
  all: try match goal with
           | Hres : result ?b = None |- _ =>
               right; exists b; (split; [|done]);
               rewrite ?elem_of_app, ?elem_of_cons; by auto
           end.
  all: right; eexists (mkEff _ None); (split; [|done]);
    rewrite elem_of_app, elem_of_cons; by auto.
Qed.

Lemma reachable_doomed (m : Manager) (net : Network) (bundle : HeaderBundle)
    (c : Config) :
  reachable m net bundle c → doomed (initial m net bundle) → doomed c.
Proof.
  intros Hc Hd. revert c Hc. apply rtc_ind_r; [done|].
  intros c c' _ Hstep IH. by apply (step_doomed c c').
Qed.

(** An iteration gets to its end only if every goroutine it starts
    returns. *)
Lemma finished_bodies (m : Manager) (net : Network) (bundle : HeaderBundle)
    (c : Config) (body : Eff ()) :
  reachable m net bundle c → finished c →
  IGo body ∈ resultLoop m net bundle → result body = Some ().
Proof.
  intros Hc [Hmain Hts] Hbody.
  destruct (result body) as [[]|] eqn:Hres; [done|]. exfalso.
  assert (doomed c) as [Hd|(b & [Hd|Hd] & _)].
  { apply (reachable_doomed m net bundle); [done|].
    right. exists body. split; [by left | done]. }
  - rewrite Hmain in Hd. by apply elem_of_nil in Hd.
  - rewrite Hmain in Hd. by apply elem_of_nil in Hd.
  - rewrite Hts in Hd. by apply elem_of_nil in Hd.
Qed.

(** The program of an iteration that dispatches: every chain answers,
    the bundle has context [k] and its header a number for tier [k]. *)
Lemma resultLoop_dispatch (m : Manager) (net : Network) (bundle : HeaderBundle)
    (k : nat) (number : BigInt) :
  forallb (answers net) (everyClient (clients m)) = true →
  Context bundle = Z.of_nat k → (k < 3)%nat →
  Number (Header_ bundle) !! k = Some (Some number) →
  resultLoop m net bundle =
    ILock :: map IEmit (events (allChainsOnline m net)) ++
    concat ((λ t, spawn (SendClientsMinedExtBlock m (Z.of_nat t) (contextsOf t)
                           (Header_ bundle))) <$> tiersFrom k) ++
    [IWait] ++
    concat ((λ t, spawn (SendMinedBlock m (Z.of_nat t) (Header_ bundle)))
              <$> reverse (tiersFrom k)) ++
    [IWait; IUnlock].
Proof.
  intros Hon Hctx Hk Hnum. unfold resultLoop.
  rewrite allChainsOnline_spec. cbn [events result]. rewrite Hon.
  unfold guarded. rewrite Hctx.
  destruct k as [|[|[|k]]]; [| | |lia]; cbn -[spawn]; rewrite Hnum;
    cbn -[spawn]; by rewrite <- ?app_assoc.
Qed.

Lemma index_outcome {A} (l : list A) (i : Z) :
  (∃ x, index l i = mret x ∧ l !! Z.to_nat i = Some x) ∨ index l i = panic.
Proof.
  unfold index. destruct (0 <=? i); [|by right].
  destruct (l !! Z.to_nat i) as [x|]; [left; by exists x | by right].
Qed.

Ltac indexes :=
  repeat match goal with
         | |- context [index ?l ?i] =>
             destruct (index_outcome l i) as [(? & -> & ?)| ->];
             rewrite ?bind_ret, ?bind_panic
         end.

(** A sealed-block goroutine that returns has made exactly one call. *)
Lemma SendMinedBlock_once (m : Manager) (t : nat) (header : Header) :
  (t < 3)%nat → result (SendMinedBlock m (Z.of_nat t) header) = Some () →
  count isSendMinedBlock (events (SendMinedBlock m (Z.of_nat t) header)) = 1%nat ∧
  ∃ receiptBlock, pendingBlocks m !! t = Some (Some receiptBlock).
Proof.
  intros Ht. unfold SendMinedBlock. rewrite index_nat.
  destruct (pendingBlocks m !! t) as [[receiptBlock|]|]; [|done..].
  rewrite bind_ret.
  destruct t as [|[|[|t]]]; [| | |lia]; unfold when; cbn -[mbind mret index];
    rewrite ?bind_ret; indexes; try done; cbn; eauto.
Qed.

Lemma count_sends (block : Block) (receipts : list Hash) (mined : Z)
    (cs : list Client) :
  count isSendExternalBlock
    ((λ c, EvSendExternalBlock c block receipts mined) <$> cs) = length cs.
Proof. induction cs as [|c cs IH]; simpl; [done|]. f_equal. exact IH. Qed.

(** An external-block goroutine whose pending block is there sends it
    to the nodes of [fanOut]. *)
Lemma SendClientsMinedExtBlock_count (m : Manager) (t : nat)
    (externalContexts : list Z) (header : Header)
    (receiptBlock : ReceiptBlock) (r z : Z) :
  pendingBlocks m !! t = Some (Some receiptBlock) →
  shaped (clients m) → flagged (clients m) →
  Location header = [r; z] → 1 <= r <= 3 → 1 <= z <= 3 →
  count isSendExternalBlock
    (events (SendClientsMinedExtBlock m (Z.of_nat t) externalContexts header)) =
  length (fanOut (clients m) r z externalContexts).
Proof.
  intros Hp Hs Hf Hloc Hr Hz. unfold SendClientsMinedExtBlock.
  rewrite index_nat, Hp, bind_ret.
  rewrite (SendClientsExtBlock_spec m _ _ _ _ r z Hs Hf); [|exact Hloc|done..].
  apply count_sends.
Qed.

Lemma phase_count (L : nat) (t : list Event) :
  Forall (λ e, phase e = L) t →
  (L ≠ 2%nat → count isSendExternalBlock t = 0%nat) ∧
  (L ≠ 3%nat → count isSendMinedBlock t = 0%nat).
Proof.
  intros H. split; intros HL; apply count_none;
    (eapply Forall_impl; [exact H|]); intros [] He; simpl in *; congruence.
Qed.

Lemma pending_emits (evs : list Event) :
  concat (map pendingOf (map IEmit evs)) = evs.
Proof. induction evs as [|e evs IH]; simpl; [done|]. by rewrite IH. Qed.

Lemma pending_spawns (body : nat → Eff ()) (ts : list nat) :
  concat (map pendingOf (concat ((λ t, spawn (body t)) <$> ts))) =
  concat ((λ t, events (body t)) <$> ts).
Proof. induction ts as [|t ts IH]; simpl; [done|]. f_equal. exact IH. Qed.

Lemma count_concat {A} (p : Event → bool) (g : A → list Event) (ts : list A) :
  count p (concat (g <$> ts)) = sum_list ((λ t, count p (g t)) <$> ts).
Proof.
  induction ts as [|t ts IH]; simpl; [done|].
  rewrite count_app. f_equal. exact IH.
Qed.

Lemma sum_ext {A} (f g : A → nat) (ts : list A) :
  (∀ t, t ∈ ts → f t = g t) → sum_list (f <$> ts) = sum_list (g <$> ts).
Proof.
  induction ts as [|t ts IH]; intros H; simpl; [done|].
  rewrite (H t) by left. f_equal. apply IH. intros t' Ht'. apply H. by right.
Qed.

Lemma sum_const {A} (n : nat) (ts : list A) :
  sum_list ((λ _, n) <$> ts) = (n * length ts)%nat.
Proof.
  induction ts as [|t ts IH]; simpl; [lia|].
  rewrite Nat.mul_succ_r, Nat.add_comm. f_equal. exact IH.
Qed.

Lemma spawn_elem (body : nat → Eff ()) (ts : list nat) (t : nat) :
  t ∈ ts → IGo (body t) ∈ concat ((λ t, spawn (body t)) <$> ts).
Proof.
  induction 1 as [t ts|t t' ts _ IH]; simpl.
  - right. left.
  - right. right. exact IH.
Qed.

Lemma pending_program (p : Event → bool) (evs : list Event)
    (ext mined : nat → Eff ()) (ts1 ts2 : list nat) :
  count p
    (concat (map pendingOf
       (ILock :: map IEmit evs ++
        concat ((λ t, spawn (ext t)) <$> ts1) ++ [IWait] ++
        concat ((λ t, spawn (mined t)) <$> ts2) ++ [IWait; IUnlock]))) =
  ((if p EvLock then 1 else 0) + count p evs +
   sum_list ((λ t, count p (events (ext t))) <$> ts1) +
   sum_list ((λ t, count p (events (mined t))) <$> ts2) +
   (if p EvUnlock then 1 else 0))%nat.
Proof.
  cbn [map concat app pendingOf].
  do 3 (rewrite ?map_app, ?concat_app, ?pending_emits, ?pending_spawns;
        cbn [map concat app pendingOf]).
  cbn [count]. rewrite !count_app, !count_concat. cbn [count]. lia.
Qed.

(** The calls of a dispatching iteration, counted under any test. *)
Lemma dispatch_count (p : Event → bool) (m : Manager) (net : Network)
    (bundle : HeaderBundle) (k : nat) (number : BigInt) :
  forallb (answers net) (everyClient (clients m)) = true →
  Context bundle = Z.of_nat k → (k < 3)%nat →
  Number (Header_ bundle) !! k = Some (Some number) →
  count p (pendingEvents (initial m net bundle)) =
  ((if p EvLock then 1 else 0) + count p (events (allChainsOnline m net)) +
   sum_list ((λ t, count p (events
               (SendClientsMinedExtBlock m (Z.of_nat t) (contextsOf t)
                  (Header_ bundle)))) <$> tiersFrom k) +
   sum_list ((λ t, count p (events
               (SendMinedBlock m (Z.of_nat t) (Header_ bundle)))) <$>
               reverse (tiersFrom k)) +
   (if p EvUnlock then 1 else 0))%nat.
Proof.
  intros Hon Hctx Hk Hnum. unfold pendingEvents, initial. cbn [threads main].
  rewrite (resultLoop_dispatch m net bundle k number Hon Hctx Hk Hnum).
  exact (pending_program p (events (allChainsOnline m net))
           (λ t, SendClientsMinedExtBlock m (Z.of_nat t) (contextsOf t)
                   (Header_ bundle))
           (λ t, SendMinedBlock m (Z.of_nat t) (Header_ bundle))
           (tiersFrom k) (reverse (tiersFrom k))).
Qed.

(** What an iteration that dispatches has sent when it is over,
    whatever the interleaving of its goroutines. For a solution of
    context [k] (0, 1 or 2) whose header has a number at tier [k], with
    every chain online: the iteration that has run to its end has made
    exactly 3 - k [SendMinedBlock] calls, one for tier [k] and one for
    each tier below it; and, the registry and the flags having the
    deployed layout and the header naming a zone [(r, z)], the number of
    its [SendExternalBlock] calls is the sum, over the same tiers, of the
    size of the fan-out of that tier's external-block goroutine. *)
Theorem resultLoop_sends (m : Manager) (net : Network)
    (bundle : HeaderBundle) (c : Config) (k : nat) (number : BigInt) :
  reachable m net bundle c → finished c →
  forallb (answers net) (everyClient (clients m)) = true →
  Context bundle = Z.of_nat k → (k < 3)%nat →
  Number (Header_ bundle) !! k = Some (Some number) →
  count isSendMinedBlock (trace c) = (3 - k)%nat ∧
  ∀ r z,
    shaped (clients m) → flagged (clients m) →
    Location (Header_ bundle) = [r; z] → 1 <= r <= 3 → 1 <= z <= 3 →
    count isSendExternalBlock (trace c) = externalSends (clients m) r z k.
Proof.
  intros Hc Hfin Hon Hctx Hk Hnum.
  pose proof (λ body, finished_bodies m net bundle c body Hc Hfin) as Hbodies.
  assert (∀ p, count p (trace c) =
               count p (pendingEvents (initial m net bundle))) as Hcount.
  { intros p. rewrite <- (reachable_conserves m net bundle c p Hc).
    destruct Hfin as [Hmain Hts]. unfold pendingEvents.
    rewrite Hmain, Hts. simpl. lia. }
  rewrite !Hcount,
    !(dispatch_count _ m net bundle k number Hon Hctx Hk Hnum).
  rewrite (resultLoop_dispatch m net bundle k number Hon Hctx Hk Hnum)
    in Hbodies.
  assert (∀ t, t ∈ tiersFrom k → (t < 3)%nat) as Htier.
  { intros t Ht. apply elem_of_seq in Ht. lia. }
  assert (∀ t, t ∈ tiersFrom k →
            count isSendMinedBlock
              (events (SendMinedBlock m (Z.of_nat t) (Header_ bundle))) = 1%nat ∧
            ∃ receiptBlock, pendingBlocks m !! t = Some (Some receiptBlock))
    as Hmined.
  { intros t Ht. apply SendMinedBlock_once; [by apply Htier|].
    apply Hbodies. right. rewrite !elem_of_app. right. right. right. left.
    apply (spawn_elem (λ t, SendMinedBlock m (Z.of_nat t) (Header_ bundle))).
    by apply elem_of_reverse. }
  cbn [isSendMinedBlock isSendExternalBlock].
  destruct (phase_count 1 _ (allChainsOnline_issues m net)) as [Hne Hnm].
  rewrite Hne, Hnm by done.
  split.
  - rewrite (sum_ext _ (λ _, 0%nat) (tiersFrom k)).
    2:{ intros t _.
        by apply (phase_count 2 _ (SendClientsMinedExtBlock_issues m _ _ _)). }
    rewrite (sum_ext _ (λ _, 1%nat) (reverse (tiersFrom k))).
    2:{ intros t Ht. rewrite elem_of_reverse in Ht. exact (proj1 (Hmined t Ht)). }
    rewrite !sum_const, length_reverse. unfold tiersFrom.
    rewrite length_seq. lia.
  - intros r z Hs Hf Hloc Hr Hz.
    rewrite (sum_ext _ (λ _, 0%nat) (reverse (tiersFrom k))).
    2:{ intros t _.
        by apply (phase_count 3 _ (SendMinedBlock_issues m _ _)). }
    rewrite (sum_ext _ (λ t, length (fanOut (clients m) r z (contextsOf t)))
               (tiersFrom k)).
    2:{ intros t Ht. destruct (Hmined t Ht) as (_ & receiptBlock & Hp).
        by apply (SendClientsMinedExtBlock_count m t _ _ receiptBlock). }
    rewrite sum_const. unfold externalSends. lia.
Qed.

Lemma resultLoop_sends_witness :
  ∃ c,
    run (replicate 20 None ++
         concat (replicate 12 [Some 2; Some 0; Some 1]%nat) ++
         replicate 3 (Some 0%nat) ++ replicate 7 None ++
         [Some 1; Some 0; Some 2; Some 0; Some 0; Some 0]%nat ++
         replicate 2 None)
      (initial fullManager quiet primeBundle) = Some c ∧
    count isSendMinedBlock (trace c) = 3%nat ∧
    count isSendExternalBlock (trace c) = externalSends registry 1 1 0 ∧
    externalSends registry 1 1 0 = 36%nat.
Proof.
  destruct (run _ (initial fullManager quiet primeBundle)) as [c|] eqn:Hrun;
    [|by vm_compute in Hrun].
  exists c. split; [reflexivity|].
  assert (finished c) as Hfin
    by (vm_compute in Hrun; injection Hrun as <-; by split).
  destruct (resultLoop_sends fullManager quiet primeBundle c 0 (mkBig 11 5)
              (run_steps _ _ _ Hrun) Hfin) as [Hmined Hext].
  - reflexivity.
  - reflexivity.
  - lia.
  - reflexivity.
  - split; [exact Hmined|]. split; [|reflexivity].
    apply Hext.
    + apply ResponderFacts.shaped_sample.
    + apply flagged_sample.
    + reflexivity.
    + lia.
    + lia.
Defined.

End DispatcherSends.
